(** * aktiv-html: the href rewriter and the testimonial slider

    A shallow embedding of [src/scripts/fix-href.js], of its configurable
    variant (the file with the [BASE_PATH] constant) and of the
    [TestimonialSlider] class, followed by the properties stated about
    them.

    JavaScript strings are modelled as [string] (a sequence of character
    codes), JavaScript numbers that hold slide indices, counts, delays and
    clock readings as [Z], a DOM [classList] as a finite set of tokens and
    the static [NodeList] of slides as a list accessed with [!!] and
    updated with [<[ _ := _ ]>]. *)

From stdpp Require Import base strings list gmap.
From Stdlib Require Import Ascii ZArith QArith Lia.

Open Scope Z_scope.

(** ** JavaScript string primitives used by the scripts *)

Module JsString.

(** [s.includes(needle)]: some suffix of [s] starts with [needle]. *)
Fixpoint includes (needle s : string) : bool :=
  if String.prefix needle s then true
  else match s with
       | EmptyString => false
       | String _ s' => includes needle s'
       end.

(** [s.indexOf(needle)] counted from position [i]: the first position at
    which [needle] occurs, or [-1]. *)
Fixpoint indexOf_from (needle s : string) (i : Z) : Z :=
  if String.prefix needle s then i
  else match s with
       | EmptyString => -1
       | String _ s' => indexOf_from needle s' (i + 1)
       end.

Definition indexOf (needle s : string) : Z := indexOf_from needle s 0.

Definition clamp (len i : Z) : Z := Z.max 0 (Z.min i len).

(** [s.substring(start, end)]: both indices are clamped to
    [0 .. s.length] and swapped when [start > end]. *)
Definition substring (s : string) (istart iend : Z) : string :=
  let len := Z.of_nat (String.length s) in
  let a := clamp len istart in
  let b := clamp len iend in
  let lo := Z.min a b in
  let hi := Z.max a b in
  String.substring (Z.to_nat lo) (Z.to_nat (hi - lo)) s.

(** [s.substring(start)]: the end index defaults to [s.length]. *)
Definition substring_from (s : string) (istart : Z) : string :=
  substring s istart (Z.of_nat (String.length s)).

End JsString.

(** ** fix-href.js *)

Module FixHref.
Import JsString.

(** [transformHref] of [src/scripts/fix-href.js], with the literal
    ["/src/pages"] written in the code. *)
Definition transformHref (href : string) : string :=
  if includes ".html" href then href
  else
    let hashIndex := indexOf "#" href in
    if negb (hashIndex =? -1) then
      let beforeHash := substring href 0 hashIndex in
      let afterHash := substring_from href hashIndex in
      if String.eqb beforeHash "/src/pages"
      then "/src/pages/index.html" +:+ afterHash
      else (beforeHash +:+ ".html") +:+ afterHash
    else
      if String.eqb href "/src/pages"
      then "/src/pages/index.html"
      else href +:+ ".html".

(** The values a caller can pass in the [href] position.  Calling a
    method on [null] or [undefined] raises a [TypeError]. *)
Inductive jsval : Type :=
| JNull
| JUndefined
| JString (s : string).

Inductive completion (A : Type) : Type :=
| Normal (a : A)
| TypeError.
Arguments Normal {A} a.
Arguments TypeError {A}.

(** [transformHref] seen from an untyped caller: the first thing the body
    does is the method call [href.includes(".html")]. *)
Definition transformHref_call (v : jsval) : completion string :=
  match v with
  | JString s => Normal (transformHref s)
  | JNull | JUndefined => TypeError
  end.

End FixHref.

(** ** The variant with a configurable base path *)

Module FixHrefBase.
Import JsString.

Section WithBasePath.
(** The body of [transformHref] reads the module-level constant
    [BASE_PATH]; here it is a section variable, so that the function can
    be taken at any value of the constant. *)
Variable BASE_PATH : string.

Definition transformHref_with (href : string) : string :=
  if includes ".html" href then href
  else
    let hashIndex := indexOf "#" href in
    if negb (hashIndex =? -1) then
      let beforeHash := substring href 0 hashIndex in
      let afterHash := substring_from href hashIndex in
      if String.eqb beforeHash BASE_PATH
      then (BASE_PATH +:+ "/index.html") +:+ afterHash
      else (beforeHash +:+ ".html") +:+ afterHash
    else
      if String.eqb href BASE_PATH
      then BASE_PATH +:+ "/index.html"
      else href +:+ ".html".
End WithBasePath.

(** The constant as it stands in the file, and the function with it. *)
Definition BASE_PATH : string := "/aktiv/src/pages".

Definition transformHref (href : string) : string :=
  transformHref_with BASE_PATH href.

End FixHrefBase.

(** ** The rules of the href rewriter as the specification words them *)

Module HrefRules.
Import JsString.

(** Rule 2: split at the first ['#']; the second part keeps the ['#']
    and is empty when there is none. *)
Fixpoint split_hash (href : string) : string * string :=
  match href with
  | EmptyString => (EmptyString, EmptyString)
  | String c rest =>
      if Ascii.eqb c "#"%char then (EmptyString, href)
      else let '(b, h) := split_hash rest in (String c b, h)
  end.

(** Rules 1 to 5 in order. *)
Definition transform (href basePath : string) : string :=
  if includes ".html" href then href
  else
    let '(beforePart, hashPart) := split_hash href in
    let base :=
      if String.eqb beforePart basePath
      then basePath +:+ "/index.html"
      else beforePart +:+ ".html" in
    base +:+ hashPart.

End HrefRules.

(** ** The testimonial slider *)

Module Slider.

(** *** Values *)

(** Results of JavaScript arithmetic on integers: the remainder by zero
    is [NaN]. *)
Inductive jsnum : Type :=
| Num (z : Z)
| NaN.

(** [a % b] on integers: truncated remainder, [NaN] when [b] is zero. *)
Definition js_rem (a b : Z) : jsnum :=
  if b =? 0 then NaN else Num (Z.rem a b).

(** *** The page, the object and the host *)

(** The part of the document the slider touches.  An element is
    represented by its [classList]. *)
Record Dom : Type := {
  slides : list (gset string);      (* querySelectorAll(".testimonial-slide") *)
  prevBtn : option (gset string);   (* getElementById("prev-btn"), maybe null *)
  nextBtn : option (gset string);   (* getElementById("next-btn"), maybe null *)
  sliderContainer : bool            (* is #testimonial-slider present *)
}.

(** The fields of a [TestimonialSlider] instance. *)
Record Fields : Type := {
  currentSlide : Z;
  totalSlides : Z;
  autoplayInterval : option Z;      (* interval handle, or null *)
  autoplayDelay : Z;
  isTransitioning : bool;
  clickDelay : Z
}.

(** The two closures the class hands to the host's timers. *)
Inductive callback : Type :=
| ReleaseLock      (* the arrow function given to setTimeout in showSlide *)
| AutoplayTick.    (* the arrow function given to setInterval in startAutoplay *)

Record timer : Type := {
  tid : Z;                (* handle returned to the script *)
  due : Z;                (* clock reading at which it fires next *)
  period : option Z;      (* [Some p] for setInterval, [None] for setTimeout *)
  action : callback
}.

(** What the host records while it runs callbacks.  The script keeps no
    such record; it is there so that properties about how often
    something ran can be stated. *)
Inductive event : Type :=
| CalledNext       (* the autoplay closure called nextSlide *)
| Uncaught.        (* a callback or handler ended with an exception *)

(** The host's timer queue and clock, in milliseconds.  Timers are kept
    in registration order. *)
Record Host : Type := {
  now : Z;
  timers : list timer;
  nextTimerId : Z;
  journal : list event
}.

Record world : Type := {
  dom : Dom;
  self : Fields;
  host : Host
}.

(** A call either completes or throws; in both cases the mutations made
    so far are kept. *)
Inductive outcome : Type :=
| Done (w : world)
| Thrown (w : world).

Definition state_of (o : outcome) : world :=
  match o with Done w | Thrown w => w end.

(** *** Field updates *)

Definition set_slides (l : list (gset string)) (w : world) : world :=
  {| dom := {| slides := l; prevBtn := prevBtn (dom w);
               nextBtn := nextBtn (dom w);
               sliderContainer := sliderContainer (dom w) |};
     self := self w; host := host w |}.

Definition set_buttons (p n : option (gset string)) (w : world) : world :=
  {| dom := {| slides := slides (dom w); prevBtn := p; nextBtn := n;
               sliderContainer := sliderContainer (dom w) |};
     self := self w; host := host w |}.

Definition set_currentSlide (i : Z) (w : world) : world :=
  {| dom := dom w;
     self := {| currentSlide := i; totalSlides := totalSlides (self w);
                autoplayInterval := autoplayInterval (self w);
                autoplayDelay := autoplayDelay (self w);
                isTransitioning := isTransitioning (self w);
                clickDelay := clickDelay (self w) |};
     host := host w |}.

Definition set_autoplayInterval (h : option Z) (w : world) : world :=
  {| dom := dom w;
     self := {| currentSlide := currentSlide (self w);
                totalSlides := totalSlides (self w);
                autoplayInterval := h;
                autoplayDelay := autoplayDelay (self w);
                isTransitioning := isTransitioning (self w);
                clickDelay := clickDelay (self w) |};
     host := host w |}.

Definition set_isTransitioning (b : bool) (w : world) : world :=
  {| dom := dom w;
     self := {| currentSlide := currentSlide (self w);
                totalSlides := totalSlides (self w);
                autoplayInterval := autoplayInterval (self w);
                autoplayDelay := autoplayDelay (self w);
                isTransitioning := b;
                clickDelay := clickDelay (self w) |};
     host := host w |}.

Definition set_timers (l : list timer) (w : world) : world :=
  {| dom := dom w; self := self w;
     host := {| now := now (host w); timers := l;
                nextTimerId := nextTimerId (host w);
                journal := journal (host w) |} |}.

Definition set_now (t : Z) (w : world) : world :=
  {| dom := dom w; self := self w;
     host := {| now := t; timers := timers (host w);
                nextTimerId := nextTimerId (host w);
                journal := journal (host w) |} |}.

Definition note (e : event) (w : world) : world :=
  {| dom := dom w; self := self w;
     host := {| now := now (host w); timers := timers (host w);
                nextTimerId := nextTimerId (host w);
                journal := journal (host w) ++ [e] |} |}.

(** *** Host timers *)

(** Registers a timer and returns its handle.  A negative delay counts
    as zero. *)
Definition add_timer (cb : callback) (delay : Z) (p : option Z) (w : world)
  : Z * world :=
  let id := nextTimerId (host w) in
  let t := {| tid := id; due := now (host w) + Z.max 0 delay;
              period := p; action := cb |} in
  (id, {| dom := dom w; self := self w;
          host := {| now := now (host w);
                     timers := timers (host w) ++ [t];
                     nextTimerId := id + 1;
                     journal := journal (host w) |} |}).

Definition setTimeout (cb : callback) (delay : Z) (w : world) : Z * world :=
  add_timer cb delay None w.

Definition setInterval (cb : callback) (delay : Z) (w : world) : Z * world :=
  add_timer cb delay (Some delay) w.

Definition clearInterval (id : Z) (w : world) : world :=
  set_timers (filter (λ t, tid t ≠ id) (timers (host w))) w.

(** *** classList operations *)

Definition classList_add (tokens : list string) (cl : gset string) : gset string :=
  cl ∪ list_to_set tokens.

Definition classList_remove (tokens : list string) (cl : gset string) : gset string :=
  cl ∖ list_to_set tokens.

Definition disabled_classes : list string :=
  ["opacity-50"; "cursor-not-allowed"; "pointer-events-none"].

(** *** Methods of [TestimonialSlider] *)

(** [this.prevBtn?.classList.add(...)], [this.nextBtn?.classList.add(...)]. *)
Definition disableButtons (w : world) : world :=
  set_buttons (classList_add disabled_classes <$> prevBtn (dom w))
              (classList_add disabled_classes <$> nextBtn (dom w)) w.

Definition enableButtons (w : world) : world :=
  set_buttons (classList_remove disabled_classes <$> prevBtn (dom w))
              (classList_remove disabled_classes <$> nextBtn (dom w)) w.

(** The [forEach] of showSlide applied to one slide. *)
Definition hide (cl : gset string) : gset string :=
  classList_add ["opacity-0"] (classList_remove ["opacity-100"] cl).

Definition reveal (cl : gset string) : gset string :=
  classList_add ["opacity-100"] (classList_remove ["opacity-0"] cl).

(** [this.slides[index]]: [undefined] unless [index] is an integer in
    range. *)
Definition slide_at (index : jsnum) (w : world) : option (Z * gset string) :=
  match index with
  | NaN => None
  | Num z =>
      if z <? 0 then None
      else (λ cl, (z, cl)) <$> slides (dom w) !! Z.to_nat z
  end.

Definition showSlide (index : jsnum) (w : world) : outcome :=
  if isTransitioning (self w) then Done w
  else
    let w := set_isTransitioning true w in
    let w := disableButtons w in
    let w := set_slides (hide <$> slides (dom w)) w in
    match slide_at index w with
    | None => Thrown w                  (* undefined.classList *)
    | Some (i, cl) =>
        let w := set_slides (<[Z.to_nat i := reveal cl]> (slides (dom w))) w in
        let w := set_currentSlide i w in
        Done (setTimeout ReleaseLock (clickDelay (self w)) w).2
    end.

Definition nextSlide (w : world) : outcome :=
  let nextIndex := js_rem (currentSlide (self w) + 1) (totalSlides (self w)) in
  showSlide nextIndex w.

Definition prevSlide (w : world) : outcome :=
  let prevIndex :=
    js_rem (currentSlide (self w) - 1 + totalSlides (self w))
           (totalSlides (self w)) in
  showSlide prevIndex w.

(** [if (this.autoplayInterval)]: [null] and the number zero are falsy. *)
Definition truthy (h : option Z) : bool :=
  match h with
  | Some id => negb (id =? 0)
  | None => false
  end.

Definition pauseAutoplay (w : world) : world :=
  match autoplayInterval (self w) with
  | Some id =>
      if truthy (Some id)
      then set_autoplayInterval None (clearInterval id w)
      else w
  | None => w
  end.

Definition startAutoplay (w : world) : world :=
  let w := pauseAutoplay w in
  let '(id, w) := setInterval AutoplayTick (autoplayDelay (self w)) w in
  set_autoplayInterval (Some id) w.

Definition restartAutoplay (w : world) : world := startAutoplay w.

(** [init]: the listeners it registers are the cases of [deliver] below;
    what remains is the call that starts the slideshow. *)
Definition init (w : world) : outcome := Done (startAutoplay w).

(** [new TestimonialSlider()] on a given page and host. *)
Definition construct (page : Dom) (h : Host) : outcome :=
  init {| dom := page;
          self := {| currentSlide := 0;
                     totalSlides := Z.of_nat (length (slides page));
                     autoplayInterval := None;
                     autoplayDelay := 3000;
                     isTransitioning := false;
                     clickDelay := 800 |};
          host := h |}.

(** *** The host's event loop *)

(** Body of a timer callback. *)
Definition run_callback (cb : callback) (w : world) : outcome :=
  match cb with
  | ReleaseLock => Done (enableButtons (set_isTransitioning false w))
  | AutoplayTick =>
      if negb (isTransitioning (self w))
      then nextSlide (note CalledNext w)
      else Done w
  end.

(** An exception that escapes a callback or a listener is reported and
    the page goes on. *)
Definition settle (o : outcome) : world :=
  match o with
  | Done w => w
  | Thrown w => note Uncaught w
  end.

Definition retime (id t : Z) (x : timer) : timer :=
  if decide (tid x = id)
  then {| tid := tid x; due := t; period := period x; action := action x |}
  else x.

(** Fires one timer that was found ready, unless it has been cleared in
    the meantime.  A timeout leaves the queue; an interval is re-armed. *)
Definition run_timer (w : world) (t : timer) : world :=
  match list_find (λ x, tid x = tid t) (timers (host w)) with
  | None => w
  | Some (_, x) =>
      let w :=
        match period x with
        | None => clearInterval (tid x) w
        | Some p =>
            set_timers (retime (tid x) (now (host w) + Z.max 0 p)
                          <$> timers (host w)) w
        end in
      settle (run_callback (action x) w)
  end.

(** One millisecond passes; every timer that is due runs, in
    registration order. *)
Definition tick (w : world) : world :=
  let w := set_now (now (host w) + 1) w in
  let ready := filter (λ t, due t ≤ now (host w)) (timers (host w)) in
  foldl run_timer w ready.

Definition advance (ms : Z) (w : world) : world :=
  Nat.iter (Z.to_nat ms) tick w.

(** What can happen to a constructed slider: the listeners registered by
    [init], direct calls of the public methods, and the clock. *)
Inductive input : Type :=
| ClickPrev
| ClickNext
| MouseEnter
| MouseLeave
| CallShowSlide (index : jsnum)
| CallNextSlide
| CallPrevSlide
| CallPauseAutoplay
| CallStartAutoplay
| CallRestartAutoplay
| Tick.

Definition deliver (i : input) (w : world) : world :=
  match i with
  | ClickPrev =>
      if prevBtn (dom w) is Some _ then settle (prevSlide w) else w
  | ClickNext =>
      if nextBtn (dom w) is Some _ then settle (nextSlide w) else w
  | MouseEnter =>
      if sliderContainer (dom w) then pauseAutoplay w else w
  | MouseLeave =>
      if sliderContainer (dom w) then startAutoplay w else w
  | CallShowSlide index => settle (showSlide index w)
  | CallNextSlide => settle (nextSlide w)
  | CallPrevSlide => settle (prevSlide w)
  | CallPauseAutoplay => pauseAutoplay w
  | CallStartAutoplay => startAutoplay w
  | CallRestartAutoplay => restartAutoplay w
  | Tick => tick w
  end.

Definition run (ins : list input) (w : world) : world :=
  foldl (λ w i, deliver i w) w ins.

(** A host that has registered no timer yet; handles start at 1. *)
Definition fresh_host : Host :=
  {| now := 0; timers := []; nextTimerId := 1; journal := [] |}.

Definition page_of (n : nat) : Dom :=
  {| slides := replicate n ∅; prevBtn := Some ∅; nextBtn := Some ∅;
     sliderContainer := true |}.

(** The slider constructed on a page of [n] slides in a fresh host. *)
Definition world_of (n : nat) : world :=
  state_of (construct (page_of n) fresh_host).

(** *** Predicates on worlds *)

#[global] Instance callback_eq_dec : EqDecision callback.
Proof. solve_decision. Defined.

#[global] Instance event_eq_dec : EqDecision event.
Proof. solve_decision. Defined.

(** The index is a position of the slide list. *)
Definition index_inv (w : world) : Prop :=
  totalSlides (self w) = Z.of_nat (length (slides (dom w))) ∧
  0 ≤ currentSlide (self w) < totalSlides (self w).

(** The pending lock releases: the transitions in flight. *)
Definition releases (l : list timer) : list timer :=
  filter (λ t, action t = ReleaseLock) l.

(** A queue that fits the lock flag [b]: at most one release is pending,
    none when the lock is free, and a release is a timeout. *)
Definition lock_queue (b : bool) (l : list timer) : Prop :=
  (length (releases l) ≤ 1)%nat ∧
  (b = false → releases l = []) ∧
  Forall (λ t, period t = None) (releases l).

Definition lock_inv (w : world) : Prop :=
  lock_queue (isTransitioning (self w)) (timers (host w)).

(** No release is pending and every handle in the queue has been issued
    by this host. *)
Definition idle_queue (w : world) : Prop :=
  Forall (λ t, action t = AutoplayTick ∧ tid t < nextTimerId (host w))
         (timers (host w)).

(** Every timer in the queue is the autoplay interval the object holds
    the handle of. *)
Definition autoplay_owned (w : world) : Prop :=
  Forall (λ t, action t = AutoplayTick ∧ tid t ≠ 0 ∧
               autoplayInterval (self w) = Some (tid t))
         (timers (host w)).

(** An autoplay timer registered before the timer [rel]. *)
Definition autoplay_before (rel t : timer) : Prop :=
  action t = AutoplayTick ∧ tid t < tid rel.

(** The documented contract of the inputs: [showSlide] is called with a
    position of the slide list. *)
Definition in_contract (n : Z) (i : input) : Prop :=
  match i with
  | CallShowSlide (Num z) => 0 ≤ z < n
  | CallShowSlide NaN => False
  | _ => True
  end.

(** The world a successful [showSlide z] leaves, [cl] being the class
    list of slide [z] before the call. *)
Definition started (z : Z) (cl : gset string) (w : world) : world :=
  (setTimeout ReleaseLock (clickDelay (self w))
     (set_currentSlide z
        (set_slides (<[Z.to_nat z := reveal (hide cl)]> (hide <$> slides (dom w)))
           (disableButtons (set_isTransitioning true w))))).2.

(** The world [startAutoplay] leaves when the queue held nothing but the
    interval the object had the handle of. *)
Definition armed (w : world) : world :=
  set_autoplayInterval (Some (nextTimerId (host w)))
    (setInterval AutoplayTick (autoplayDelay (self w)) (set_timers [] w)).2.

(** A navigation call followed by the settle delay. *)
Definition settled (o : outcome) : world :=
  advance (clickDelay (self (state_of o))) (state_of o).

End Slider.

(** ** The page scan of the href rewriter *)

Module HrefPage.
Import JsString.

(** What [transformHref] calls [beforeHash] and [afterHash], for any
    href: the parts before and from the first ['#'], the second one empty
    when there is no ['#']. *)
Definition beforeHash (href : string) : string :=
  let hashIndex := indexOf "#" href in
  if negb (hashIndex =? -1) then substring href 0 hashIndex else href.

Definition afterHash (href : string) : string :=
  let hashIndex := indexOf "#" href in
  if negb (hashIndex =? -1) then substring_from href hashIndex
  else EmptyString.

(** An element of the document, as far as the scan looks at it. *)
Record element : Type := {
  localName : string;
  href : option string        (* the href attribute, when present *)
}.

(** The attribute selector with the prefix operator: the attribute is
    present and its value starts with [v]; an empty [v] matches nothing. *)
Definition attr_starts_with (v : string) (a : option string) : bool :=
  match a with
  | Some s => negb (String.eqb v EmptyString) && String.prefix v s
  | None => false
  end.

(** The selector of [querySelectorAll]: an [a] element whose href starts
    with [base]. *)
Definition selected (base : string) (e : element) : bool :=
  String.eqb (localName e) "a" && attr_starts_with base (href e).

(** The body of the [forEach] on one element of the document, for the
    elements the selector returns; the others are not visited.  Returns
    the element afterwards and the values passed to [setAttribute]. *)
Definition visit (base : string) (transformHref : string → string)
    (e : element) : element * list string :=
  if selected base e then
    match href e with
    | Some originalHref =>
        let newHref := transformHref originalHref in
        if negb (String.eqb originalHref newHref)
        then ({| localName := localName e; href := Some newHref |}, [newHref])
        else (e, [])
    | None => (e, [])         (* a selected element has the attribute *)
    end
  else (e, []).

(** The scan over a document given in document order: the document
    afterwards and the sequence of [setAttribute] values. *)
Definition scan (base : string) (transformHref : string → string)
    (doc : list element) : list element * list string :=
  let visited := visit base transformHref <$> doc in
  (visited.*1, concat visited.*2).

(** [fixAllHrefs] of [src/scripts/fix-href.js]. *)
Definition fixAllHrefs (doc : list element) : list element * list string :=
  scan "/src/pages" FixHref.transformHref doc.

(** [fixAllHrefs] of the variant with [BASE_PATH]. *)
Definition fixAllHrefs_configured (doc : list element)
  : list element * list string :=
  scan FixHrefBase.BASE_PATH FixHrefBase.transformHref doc.

(** A small document: two links in scope, one of them with a fragment,
    one already qualified, one out of scope, and a non-link. *)
Definition sample_doc : list element :=
  [ {| localName := "a"; href := Some "/src/pages/view-booking" |};
    {| localName := "a"; href := Some "/src/pages#workshop" |};
    {| localName := "a"; href := Some "/src/pages/x.html#y" |};
    {| localName := "a"; href := Some "/about" |};
    {| localName := "link"; href := Some "/src/pages/site" |};
    {| localName := "a"; href := None |} ].

End HrefPage.

(** ** Further predicates on the slider *)

Module SliderState.
Import Slider.

(** A button whose class list fits the lock flag [b]: it carries the
    three classes of [disableButtons] when the lock is held and none of
    them when it is free. *)
Definition button_fits (b : bool) (cl : gset string) : Prop :=
  if b then (list_to_set disabled_classes : gset string) ⊆ cl
  else cl ## (list_to_set disabled_classes : gset string).

Definition buttons_inv (w : world) : Prop :=
  ∀ cl, prevBtn (dom w) = Some cl ∨ nextBtn (dom w) = Some cl →
        button_fits (isTransitioning (self w)) cl.

(** The slide at [currentSlide], and no other, is the visible one. *)
Definition shown_inv (w : world) : Prop :=
  ∀ (i : nat) (cl : gset string),
    slides (dom w) !! i = Some cl →
    ("opacity-100" ∈ cl ↔ Z.of_nat i = currentSlide (self w)) ∧
    ("opacity-0" ∈ cl ↔ Z.of_nat i ≠ currentSlide (self w)).

(** The lock is held and nothing in the queue will release it. *)
Definition wedged (w : world) : Prop :=
  isTransitioning (self w) = true ∧ releases (timers (host w)) = [].

(** The autoplay intervals in a queue. *)
Definition autoplays (l : list timer) : list timer :=
  filter (λ t, action t = AutoplayTick) l.

(** At most one autoplay interval is in the queue, and the object holds
    its handle. *)
Definition handle_inv (w : world) : Prop :=
  0 < nextTimerId (host w) ∧
  (length (autoplays (timers (host w))) ≤ 1)%nat ∧
  Forall (λ t, autoplayInterval (self w) = Some (tid t) ∧ tid t ≠ 0)
         (autoplays (timers (host w))).

(** The handle the object holds was issued by this host. *)
Definition handle_issued (w : world) : Prop :=
  ∀ id, autoplayInterval (self w) = Some id → id < nextTimerId (host w).

(** The slideshow runs undisturbed: the slider is idle and the queue
    holds the autoplay interval alone, due in [d] milliseconds. *)
Definition playing (d : Z) (w : world) : Prop :=
  index_inv w ∧ isTransitioning (self w) = false ∧
  0 < clickDelay (self w) < autoplayDelay (self w) ∧
  ∃ iv, timers (host w) = [iv] ∧ action iv = AutoplayTick ∧
        period iv = Some (autoplayDelay (self w)) ∧
        due iv = now (host w) + d ∧ tid iv < nextTimerId (host w).

(** A navigation call and the settle delay after it. *)
Definition next_settled (w : world) : world := settled (nextSlide w).
Definition prev_settled (w : world) : world := settled (prevSlide w).

End SliderState.

(** ** navbar.js: the mobile drawer *)

Module Drawer.

(** The elements the drawer code reaches through its module-level
    constants.  An element looked up with [getElementById] may be absent
    ([None]); a present element is represented by what the code touches
    of it: a class list, or the inline style property that is assigned. *)
Record page : Type := {
  mobileMenuButton : bool;                  (* is #mobile-menu-button there *)
  closeDrawerButton : bool;                 (* is #close-drawer-button there *)
  drawerBackdrop : option (gset string);    (* classList of #drawer-backdrop *)
  mobileDrawer : option (gset string);      (* classList of #mobile-drawer *)
  line1 : option string;                    (* style.transform of #line1 *)
  line2 : option string;                    (* style.opacity of #line2 *)
  line3 : option string;                    (* style.transform of #line3 *)
  bodyOverflow : string                     (* document.body.style.overflow *)
}.

(** A call completes or throws a [TypeError] (a property of [null] was
    read); the assignments made before the throw stay. *)
Inductive result : Type :=
| Completed (p : page)
| Threw (p : page).

Definition page_of (r : result) : page :=
  match r with Completed p | Threw p => p end.

Definition set_mobileDrawer (cl : gset string) (p : page) : page :=
  {| mobileMenuButton := mobileMenuButton p;
     closeDrawerButton := closeDrawerButton p;
     drawerBackdrop := drawerBackdrop p; mobileDrawer := Some cl;
     line1 := line1 p; line2 := line2 p; line3 := line3 p;
     bodyOverflow := bodyOverflow p |}.

Definition set_drawerBackdrop (cl : gset string) (p : page) : page :=
  {| mobileMenuButton := mobileMenuButton p;
     closeDrawerButton := closeDrawerButton p;
     drawerBackdrop := Some cl; mobileDrawer := mobileDrawer p;
     line1 := line1 p; line2 := line2 p; line3 := line3 p;
     bodyOverflow := bodyOverflow p |}.

Definition set_bodyOverflow (v : string) (p : page) : page :=
  {| mobileMenuButton := mobileMenuButton p;
     closeDrawerButton := closeDrawerButton p;
     drawerBackdrop := drawerBackdrop p; mobileDrawer := mobileDrawer p;
     line1 := line1 p; line2 := line2 p; line3 := line3 p;
     bodyOverflow := v |}.

Definition set_line1 (v : string) (p : page) : page :=
  {| mobileMenuButton := mobileMenuButton p;
     closeDrawerButton := closeDrawerButton p;
     drawerBackdrop := drawerBackdrop p; mobileDrawer := mobileDrawer p;
     line1 := Some v; line2 := line2 p; line3 := line3 p;
     bodyOverflow := bodyOverflow p |}.

Definition set_line2 (v : string) (p : page) : page :=
  {| mobileMenuButton := mobileMenuButton p;
     closeDrawerButton := closeDrawerButton p;
     drawerBackdrop := drawerBackdrop p; mobileDrawer := mobileDrawer p;
     line1 := line1 p; line2 := Some v; line3 := line3 p;
     bodyOverflow := bodyOverflow p |}.

Definition set_line3 (v : string) (p : page) : page :=
  {| mobileMenuButton := mobileMenuButton p;
     closeDrawerButton := closeDrawerButton p;
     drawerBackdrop := drawerBackdrop p; mobileDrawer := mobileDrawer p;
     line1 := line1 p; line2 := line2 p; line3 := Some v;
     bodyOverflow := bodyOverflow p |}.

(** The seven statements of [openDrawer] and of [closeDrawer], each with
    the element it dereferences. *)
Definition on_mobileDrawer (f : gset string → gset string)
    (k : page → result) (p : page) : result :=
  match mobileDrawer p with
  | Some cl => k (set_mobileDrawer (f cl) p)
  | None => Threw p
  end.

Definition on_drawerBackdrop (f : gset string → gset string)
    (k : page → result) (p : page) : result :=
  match drawerBackdrop p with
  | Some cl => k (set_drawerBackdrop (f cl) p)
  | None => Threw p
  end.

Definition on_line1 (v : string) (k : page → result) (p : page) : result :=
  match line1 p with Some _ => k (set_line1 v p) | None => Threw p end.

Definition on_line2 (v : string) (k : page → result) (p : page) : result :=
  match line2 p with Some _ => k (set_line2 v p) | None => Threw p end.

Definition on_line3 (v : string) (k : page → result) (p : page) : result :=
  match line3 p with Some _ => k (set_line3 v p) | None => Threw p end.

Definition openDrawer (p : page) : result :=
  on_mobileDrawer (Slider.classList_remove ["-translate-x-full"])
    (on_drawerBackdrop
       (Slider.classList_remove ["opacity-0"; "pointer-events-none"])
       (on_drawerBackdrop
          (Slider.classList_add ["opacity-100"; "pointer-events-auto"])
          (λ p,
            on_line1 "rotate(45deg) translate(5px, 5px)"
              (on_line2 "0"
                 (on_line3 "rotate(-45deg) translate(7px, -6px)" Completed))
              (set_bodyOverflow "hidden" p)))) p.

Definition closeDrawer (p : page) : result :=
  on_mobileDrawer (Slider.classList_add ["-translate-x-full"])
    (on_drawerBackdrop
       (Slider.classList_remove ["opacity-100"; "pointer-events-auto"])
       (on_drawerBackdrop
          (Slider.classList_add ["opacity-0"; "pointer-events-none"])
          (λ p,
            on_line1 EmptyString
              (on_line2 EmptyString (on_line3 EmptyString Completed))
              (set_bodyOverflow EmptyString p)))) p.

(** The [keydown] listener of the document. *)
Definition onKeydown (key : string) (p : page) : result :=
  if String.eqb key "Escape" then
    match mobileDrawer p with
    | Some cl =>
        if negb (bool_decide ("-translate-x-full" ∈ cl))
        then closeDrawer p
        else Completed p
    | None => Threw p            (* mobileDrawer.classList of null *)
    end
  else Completed p.

(** The events the script listens to.  A listener registered through
    optional chaining exists only when its element does; the links of the
    drawer exist only inside a drawer. *)
Inductive event : Type :=
| ClickMenuButton
| ClickCloseButton
| ClickBackdrop
| ClickDrawerLink
| Keydown (key : string).

Definition handle (e : event) (p : page) : result :=
  match e with
  | ClickMenuButton =>
      if mobileMenuButton p then openDrawer p else Completed p
  | ClickCloseButton =>
      if closeDrawerButton p then closeDrawer p else Completed p
  | ClickBackdrop =>
      if drawerBackdrop p is Some _ then closeDrawer p else Completed p
  | ClickDrawerLink =>
      if mobileDrawer p is Some _ then closeDrawer p else Completed p
  | Keydown key => onKeydown key p
  end.

(** An exception in a listener is reported and the page lives on. *)
Definition run (es : list event) (p : page) : page :=
  foldl (λ p e, page_of (handle e p)) p es.

(** The drawer is out of view. *)
Definition closed (p : page) : Prop :=
  ∃ cl, mobileDrawer p = Some cl ∧ "-translate-x-full" ∈ cl.

(** The drawer is on screen. *)
Definition in_view (p : page) : Prop :=
  ∃ cl, mobileDrawer p = Some cl ∧ "-translate-x-full" ∉ cl.

(** A key press other than Escape. *)
Definition other_key (e : event) : bool :=
  match e with
  | Keydown key => negb (String.eqb key "Escape")
  | _ => false
  end.

(** Page scrolling is locked exactly when the drawer is in view. *)
Definition scroll_lock_inv (p : page) : Prop :=
  ∃ cl, mobileDrawer p = Some cl ∧
        (bodyOverflow p = "hidden" ↔ "-translate-x-full" ∉ cl).

(** [q] has no backdrop, and what the calls assign after the backdrop
    (the scroll lock, the icon lines) is in [q] as it is in [p]. *)
Definition same_rest (p q : page) : Prop :=
  drawerBackdrop q = None ∧ bodyOverflow q = bodyOverflow p ∧
  line1 q = line1 p ∧ line2 q = line2 p ∧ line3 q = line3 p ∧
  mobileMenuButton q = mobileMenuButton p.

(** A page with every element, the drawer closed. *)
Definition sample : page :=
  {| mobileMenuButton := true; closeDrawerButton := true;
     drawerBackdrop := Some {["opacity-0"; "pointer-events-none"; "fixed"]};
     mobileDrawer := Some {["-translate-x-full"; "fixed"]};
     line1 := Some EmptyString; line2 := Some EmptyString;
     line3 := Some EmptyString; bodyOverflow := EmptyString |}.

End Drawer.

(** ** navbar.js: the navbar on scroll *)

Module Scroll.

(** The module-level variables of the scroll code, the navbar element
    and the host's scroll position and frame callbacks. *)
Record state : Type := {
  navbar : option (gset string);   (* classList of #navbar, if present *)
  scrollY : Q;                     (* window.scrollY *)
  lastScrollY : Q;
  ticking : bool;
  frames : nat                     (* updateNavbar callbacks waiting for
                                      the next animation frame *)
}.

(** [a > b] on numbers. *)
Definition gt (a b : Q) : bool := negb (Qle_bool a b).

Definition updateNavbar (s : state) : state :=
  let currentScrollY := scrollY s in
  let nav :=
    if gt currentScrollY (lastScrollY s) && gt currentScrollY (50 # 1)
    then Slider.classList_add ["-translate-y-full"] <$> navbar s
    else Slider.classList_remove ["-translate-y-full"] <$> navbar s in
  {| navbar := nav; scrollY := scrollY s;
     lastScrollY := currentScrollY; ticking := false; frames := frames s |}.

Definition requestTick (s : state) : state :=
  if negb (ticking s)
  then {| navbar := navbar s; scrollY := scrollY s;
          lastScrollY := lastScrollY s; ticking := true;
          frames := S (frames s) |}
  else s.

(** What the host does: the page is scrolled to [y] and the scroll
    listener runs; or an animation frame comes and the callbacks that
    wait for it run. *)
Inductive event : Type :=
| ScrollTo (y : Q)
| Frame.

Definition handle (e : event) (s : state) : state :=
  match e with
  | ScrollTo y =>
      requestTick {| navbar := navbar s; scrollY := y;
                     lastScrollY := lastScrollY s; ticking := ticking s;
                     frames := frames s |}
  | Frame =>
      Nat.iter (frames s) updateNavbar
        {| navbar := navbar s; scrollY := scrollY s;
           lastScrollY := lastScrollY s; ticking := ticking s;
           frames := 0 |}
  end.

Definition run (es : list event) (s : state) : state :=
  foldl (λ s e, handle e s) s es.

(** The state when the script has been evaluated on a page scrolled to
    [y]. *)
Definition loaded (nav : option (gset string)) (y : Q) : state :=
  {| navbar := nav; scrollY := y; lastScrollY := y; ticking := false;
     frames := 0 |}.

Definition hidden (s : state) : Prop :=
  ∃ cl, navbar s = Some cl ∧ "-translate-y-full" ∈ cl.

(** One callback waits exactly while [ticking] is set. *)
Definition throttle_inv (s : state) : Prop :=
  frames s = (if ticking s then 1 else 0)%nat.

End Scroll.


(** * Properties *)

(** ** String lemmas *)

Section StringFacts.
Import JsString.

Lemma append_cons (c : ascii) (a b : string) :
  String c a +:+ b = String c (a +:+ b).
Proof. reflexivity. Qed.

Lemma append_nil_r (s : string) : s +:+ EmptyString = s.
Proof.
  induction s as [|c s IH]; [done |]. by rewrite append_cons, IH.
Qed.

Lemma append_assoc (a b c : string) : (a +:+ b) +:+ c = a +:+ (b +:+ c).
Proof.
  induction a as [|x a IH]; [done |]. by rewrite !append_cons, IH.
Qed.

Lemma prefix_append (n b : string) : String.prefix n (n +:+ b) = true.
Proof.
  induction n as [|c n IH]; [by destruct b |]. rewrite append_cons. simpl.
  destruct (ascii_dec c c); [exact IH | congruence].
Qed.

Lemma includes_prefix (n s : string) :
  String.prefix n s = true → includes n s = true.
Proof. intros H. destruct s; cbn [includes]; by rewrite H. Qed.

(** A string that has [n] somewhere inside includes it. *)
Lemma includes_middle (n a b : string) : includes n (a +:+ (n +:+ b)) = true.
Proof.
  induction a as [|c a IH].
  - apply includes_prefix. exact (prefix_append n b).
  - rewrite append_cons. cbn [includes]. rewrite IH.
    by destruct (String.prefix n _).
Qed.

Lemma includes_suffix (n a : string) : includes n (a +:+ n) = true.
Proof. rewrite <- (append_nil_r n) at 2. apply includes_middle. Qed.

Lemma prefix_hash (c : ascii) (s : string) :
  String.prefix "#" (String c s) = Ascii.eqb c "#".
Proof.
  change (String.prefix "#" (String c s))
    with (if ascii_dec "#" c then String.prefix EmptyString s else false).
  destruct (ascii_dec "#" c) as [<-|Hne]; [by destruct s |].
  symmetry. apply Ascii.eqb_neq. congruence.
Qed.

Lemma indexOf_from_lower (s : string) (i : Z) :
  indexOf_from "#" s i = -1 ∨ i ≤ indexOf_from "#" s i.
Proof.
  revert i. induction s as [|c s IH]; intros i; [by left |].
  cbn [indexOf_from]. rewrite prefix_hash.
  destruct (Ascii.eqb c "#"); [right; lia |].
  destruct (IH (i + 1)) as [->|H]; [by left | right; lia].
Qed.

(** No ['#']: the split leaves everything in the first part. *)
Lemma split_hash_absent (s : string) (i : Z) :
  0 ≤ i → indexOf_from "#" s i = -1 → HrefRules.split_hash s = (s, EmptyString).
Proof.
  revert i. induction s as [|c s IH]; intros i Hi; [done |].
  cbn [indexOf_from HrefRules.split_hash]. rewrite prefix_hash.
  destruct (Ascii.eqb c "#"); [lia |].
  intros H. by rewrite (IH (i + 1)) by (lia || done).
Qed.

(** A ['#'] at offset [k]: the split is the pair of substrings that
    [substring(0, k)] and [substring(k)] return. *)
Lemma split_hash_present (s : string) (i : Z) :
  0 ≤ i → indexOf_from "#" s i ≠ -1 →
  ∃ k : nat,
    indexOf_from "#" s i = i + Z.of_nat k ∧ (k ≤ String.length s)%nat ∧
    HrefRules.split_hash s =
      (String.substring 0 k s, String.substring k (String.length s - k) s).
Proof.
  revert i. induction s as [|c s IH]; intros i Hi; [done |].
  cbn [indexOf_from HrefRules.split_hash]. rewrite prefix_hash.
  destruct (Ascii.eqb c "#") eqn:Ec.
  - intros _. exists 0%nat. split; [lia |]. split; [simpl; lia |].
    f_equal. cbn [String.substring String.length Nat.sub].
    f_equal. clear. induction s as [|x s IH]; simpl; [done | by f_equal].
  - intros H. destruct (IH (i + 1)) as (k & Hk & Hle & Hs); [lia | done |].
    exists (S k). split; [lia |]. split; [simpl; lia |].
    rewrite Hs. done.
Qed.

Lemma substring_prefix (s : string) (k : nat) :
  (k ≤ String.length s)%nat →
  substring s 0 (Z.of_nat k) = String.substring 0 k s.
Proof.
  intros Hk. unfold substring, clamp.
  replace (Z.min _ _) with 0 by lia.
  replace (Z.max _ _ - 0) with (Z.of_nat k) by lia.
  by rewrite Nat2Z.id.
Qed.

Lemma substring_from_suffix (s : string) (k : nat) :
  (k ≤ String.length s)%nat →
  substring_from s (Z.of_nat k) =
    String.substring k (String.length s - k) s.
Proof.
  intros Hk. unfold substring_from, substring, clamp.
  replace (Z.min (Z.max _ _) _) with (Z.of_nat k) by lia.
  replace (Z.max (Z.max _ _) _ - _)
    with (Z.of_nat (String.length s - k)) by lia.
  by rewrite !Nat2Z.id.
Qed.

(** What the code computes around the ['#'] is the split of rule 2. *)
Lemma code_split (s : string) :
  HrefRules.split_hash s =
    if negb (indexOf "#" s =? -1)
    then (substring s 0 (indexOf "#" s), substring_from s (indexOf "#" s))
    else (s, EmptyString).
Proof.
  unfold indexOf. destruct (Z.eqb_spec (indexOf_from "#" s 0) (-1)) as [E|E]; simpl.
  - by apply (split_hash_absent s 0).
  - destruct (split_hash_present s 0) as (k & Hk & Hle & Hs); [lia | done |].
    rewrite Hk, Z.add_0_l, substring_prefix, substring_from_suffix; done.
Qed.

End StringFacts.

(** ** The href rewriter *)

Section HrefTheorems.
Import JsString.

(** Every result of [transformHref] carries the extension. *)
Lemma transformHref_has_extension (href : string) :
  includes ".html" (FixHref.transformHref href) = true.
Proof.
  unfold FixHref.transformHref.
  destruct (includes ".html" href) eqn:Hinc; [exact Hinc |].
  destruct (negb (indexOf "#" href =? -1)).
  - cbv zeta. destruct (String.eqb _ "/src/pages").
    + exact (includes_middle ".html" "/src/pages/index" _).
    + rewrite append_assoc. apply includes_middle.
  - destruct (String.eqb href "/src/pages"); [reflexivity |].
    apply includes_suffix.
Qed.

(** C1: for every input the code returns what the four rules of the
    specification prescribe with the base path ["/src/pages"]: an href
    that contains [".html"] is returned unchanged; otherwise it is split
    at the first ['#'], the part before becomes [basePath + "/index.html"]
    when it equals the base path and gets [".html"] appended otherwise,
    and the part from the ['#'] on is appended.  The two examples with a
    fragment evaluate as listed. *)
Theorem transformHref_follows_rules :
  (∀ href : string,
      FixHref.transformHref href = HrefRules.transform href "/src/pages") ∧
  FixHref.transformHref "/src/pages/view-booking#test"
    = "/src/pages/view-booking.html#test" ∧
  FixHref.transformHref "/src/pages#workshop"
    = "/src/pages/index.html#workshop".
Proof.
  split; [| split; reflexivity].
  intros href. unfold FixHref.transformHref, HrefRules.transform.
  destruct (includes ".html" href); [reflexivity |].
  rewrite code_split.
  destruct (negb (indexOf "#" href =? -1)); cbv zeta beta iota.
  - destruct (String.eqb _ "/src/pages"); reflexivity.
  - destruct (String.eqb href "/src/pages"); [reflexivity |].
    by rewrite append_nil_r.
Qed.

(** C2: [transformHref] is idempotent; the second application stops at
    the [".html"] test. *)
Theorem transformHref_idempotent (s : string) :
  FixHref.transformHref (FixHref.transformHref s) = FixHref.transformHref s.
Proof.
  pose proof (transformHref_has_extension s) as H.
  unfold FixHref.transformHref at 1. by rewrite H.
Qed.

(** C9: with its constant set to ["/src/pages"], the configurable
    variant returns the same string as the hard-coded one on every
    input. *)
Theorem transformHref_variants_agree (href : string) :
  FixHrefBase.transformHref_with "/src/pages" href
    = FixHref.transformHref href.
Proof.
  unfold FixHrefBase.transformHref_with, FixHref.transformHref.
  destruct (includes ".html" href); [reflexivity |].
  destruct (negb (indexOf "#" href =? -1)); cbv zeta.
  - destruct (String.eqb _ "/src/pages"); reflexivity.
  - destruct (String.eqb href "/src/pages"); reflexivity.
Qed.

(** The remaining cases listed with the function and in the
    specification. *)
Example transformHref_page :
  FixHref.transformHref "/src/pages/view-booking"
    = "/src/pages/view-booking.html".
Proof. reflexivity. Qed.

Example transformHref_base :
  FixHref.transformHref "/src/pages" = "/src/pages/index.html".
Proof. reflexivity. Qed.

Example transformHref_qualified :
  FixHref.transformHref "/src/pages/x.html#y" = "/src/pages/x.html#y".
Proof. reflexivity. Qed.

Example transformHref_empty_fragment :
  FixHref.transformHref "/src/pages#" = "/src/pages/index.html#".
Proof. reflexivity. Qed.

Example transformHref_unrelated :
  FixHref.transformHref "mailto:a#b#c" = "mailto:a.html#b#c".
Proof. reflexivity. Qed.

Example transformHref_null :
  FixHref.transformHref_call FixHref.JNull = FixHref.TypeError.
Proof. reflexivity. Qed.

Example transformHref_configured :
  FixHrefBase.transformHref "/aktiv/src/pages#team"
    = "/aktiv/src/pages/index.html#team".
Proof. reflexivity. Qed.

End HrefTheorems.

(** ** The slider: calls *)

Section SliderCalls.
Import Slider.

Lemma set_timers_same (w : world) : set_timers (timers (host w)) w = w.
Proof. by destruct w as [d s [? ? ? ?]]. Qed.

Lemma rem_in_range (a n : Z) : 0 ≤ a → 0 < n → 0 ≤ Z.rem a n < n.
Proof.
  intros Ha Hn. rewrite Z.rem_mod_nonneg by lia. by apply Z.mod_pos_bound.
Qed.

Lemma slide_at_Some (index : jsnum) (w : world) (i : Z) (cl : gset string) :
  slide_at index w = Some (i, cl) →
  index = Num i ∧ 0 ≤ i ∧ slides (dom w) !! Z.to_nat i = Some cl.
Proof.
  destruct index as [z|]; [| done]. unfold slide_at.
  destruct (Z.ltb_spec z 0); [done |].
  destruct (slides (dom w) !! Z.to_nat z) eqn:E; [| done].
  cbn. intros [= <- <-]. done.
Qed.

Lemma slide_at_in_range (z : Z) (w : world) :
  0 ≤ z < Z.of_nat (length (slides (dom w))) →
  ∃ cl, slides (dom w) !! Z.to_nat z = Some cl ∧
        slide_at (Num z) w = Some (z, cl).
Proof.
  intros Hz. destruct (lookup_lt_is_Some_2 (slides (dom w)) (Z.to_nat z)) as [cl Hcl].
  { lia. }
  exists cl. split; [done |]. unfold slide_at.
  destruct (Z.ltb_spec z 0); [lia |]. by rewrite Hcl.
Qed.

(** A call while the lock is held returns at the first test. *)
Lemma showSlide_locked (index : jsnum) (w : world) :
  isTransitioning (self w) = true → showSlide index w = Done w.
Proof. intros H. unfold showSlide. by rewrite H. Qed.

(** An idle call with a position of the list completes and leaves
    [started]. *)
Lemma showSlide_idle (z : Z) (w : world) :
  isTransitioning (self w) = false →
  0 ≤ z < Z.of_nat (length (slides (dom w))) →
  ∃ cl, slides (dom w) !! Z.to_nat z = Some cl ∧
        showSlide (Num z) w = Done (started z cl w).
Proof.
  intros Hidle Hz.
  destruct (slide_at_in_range z w Hz) as (cl & Hcl & _).
  exists cl. split; [done |].
  unfold showSlide. rewrite Hidle. unfold slide_at. cbn [dom set_slides slides].
  destruct (Z.ltb_spec z 0); [lia |].
  rewrite list_lookup_fmap. cbn [disableButtons set_buttons set_isTransitioning dom slides].
  rewrite Hcl. reflexivity.
Qed.

(** Any other idle call throws at the slide access, with the lock taken,
    the buttons disabled and every slide hidden. *)
Lemma showSlide_idle_undefined (index : jsnum) (w : world) :
  isTransitioning (self w) = false →
  slide_at index w = None →
  showSlide index w =
    Thrown (set_slides (hide <$> slides (dom w))
              (disableButtons (set_isTransitioning true w))).
Proof.
  intros Hidle Hnone. unfold showSlide. rewrite Hidle.
  replace (slide_at index _) with (@None (Z * gset string)); [done |].
  symmetry. destruct index as [z|]; [| done].
  unfold slide_at in *. cbn [dom set_slides slides disableButtons set_buttons
                               set_isTransitioning].
  destruct (z <? 0); [done |]. rewrite list_lookup_fmap.
  by destruct (slides (dom w) !! Z.to_nat z).
Qed.

Lemma nextSlide_idle (w : world) :
  index_inv w → isTransitioning (self w) = false →
  ∃ cl, nextSlide w =
          Done (started (Z.rem (currentSlide (self w) + 1) (totalSlides (self w)))
                        cl w).
Proof.
  intros [Hn Hc] Hidle. unfold nextSlide, js_rem.
  destruct (Z.eqb_spec (totalSlides (self w)) 0); [lia |].
  destruct (showSlide_idle (Z.rem (currentSlide (self w) + 1) (totalSlides (self w))) w)
    as (cl & _ & ->); [done | |by exists cl].
  rewrite <- Hn. apply rem_in_range; lia.
Qed.

Lemma prevSlide_idle (w : world) :
  index_inv w → isTransitioning (self w) = false →
  ∃ cl, prevSlide w =
          Done (started (Z.rem (currentSlide (self w) - 1 + totalSlides (self w))
                               (totalSlides (self w)))
                        cl w).
Proof.
  intros [Hn Hc] Hidle. unfold prevSlide, js_rem.
  destruct (Z.eqb_spec (totalSlides (self w)) 0); [lia |].
  destruct (showSlide_idle
              (Z.rem (currentSlide (self w) - 1 + totalSlides (self w))
                     (totalSlides (self w))) w)
    as (cl & _ & ->); [done | |by exists cl].
  rewrite <- Hn. apply rem_in_range; lia.
Qed.

(** Whatever the argument, [showSlide] leaves the index in range. *)
Lemma showSlide_index_inv (index : jsnum) (w : world) :
  index_inv w → index_inv (state_of (showSlide index w)).
Proof.
  intros [Hn Hc]. unfold showSlide.
  destruct (isTransitioning (self w)); [done |].
  destruct (slide_at index _) as [[i cl]|] eqn:E.
  - apply slide_at_Some in E as (_ & Hi & Hl).
    apply lookup_lt_Some in Hl.
    cbn in Hl. rewrite length_fmap in Hl.
    split; cbn; rewrite ?length_insert, ?length_fmap; lia.
  - split; cbn; rewrite ?length_fmap; lia.
Qed.

Lemma pauseAutoplay_index_inv (w : world) :
  index_inv w → index_inv (pauseAutoplay w).
Proof.
  intros H. unfold pauseAutoplay.
  destruct (autoplayInterval (self w)); [| done].
  by destruct (truthy _).
Qed.

Lemma startAutoplay_index_inv (w : world) :
  index_inv w → index_inv (startAutoplay w).
Proof. intros H. by apply pauseAutoplay_index_inv in H. Qed.

Lemma settle_index_inv (o : outcome) :
  index_inv (state_of o) → index_inv (settle o).
Proof. by destruct o. Qed.

Lemma run_callback_index_inv (cb : callback) (w : world) :
  index_inv w → index_inv (state_of (run_callback cb w)).
Proof.
  intros H. destruct cb; cbn [run_callback]; [done |].
  destruct (isTransitioning (self w)); [done |].
  by apply (showSlide_index_inv _ (note CalledNext w)).
Qed.

Lemma run_timer_index_inv (w : world) (t : timer) :
  index_inv w → index_inv (run_timer w t).
Proof.
  intros H. unfold run_timer.
  destruct (list_find _ _) as [[? x]|]; [| done].
  apply settle_index_inv, run_callback_index_inv.
  by destruct (period x).
Qed.

Lemma foldl_run_timer_index_inv (l : list timer) (w : world) :
  index_inv w → index_inv (foldl run_timer w l).
Proof.
  revert w. induction l as [|t l IH]; intros w H; [done |].
  cbn [foldl]. by apply IH, run_timer_index_inv.
Qed.

Lemma tick_index_inv (w : world) : index_inv w → index_inv (tick w).
Proof. intros H. by apply foldl_run_timer_index_inv. Qed.

Lemma deliver_index_inv (i : input) (w : world) :
  index_inv w → index_inv (deliver i w).
Proof.
  intros H. destruct i; cbn [deliver].
  - destruct (prevBtn (dom w)); [| done].
    by apply settle_index_inv, showSlide_index_inv.
  - destruct (nextBtn (dom w)); [| done].
    by apply settle_index_inv, showSlide_index_inv.
  - destruct (sliderContainer (dom w)); [| done].
    by apply pauseAutoplay_index_inv.
  - destruct (sliderContainer (dom w)); [| done].
    by apply startAutoplay_index_inv.
  - by apply settle_index_inv, showSlide_index_inv.
  - by apply settle_index_inv, showSlide_index_inv.
  - by apply settle_index_inv, showSlide_index_inv.
  - by apply pauseAutoplay_index_inv.
  - by apply startAutoplay_index_inv.
  - by apply startAutoplay_index_inv.
  - by apply tick_index_inv.
Qed.

Lemma run_index_inv (ins : list input) (w : world) :
  index_inv w → index_inv (run ins w).
Proof.
  revert w. induction ins as [|i ins IH]; intros w H; [done |].
  apply IH, deliver_index_inv, H.
Qed.

Lemma construct_done (page : Dom) (h : Host) :
  ∃ w, construct page h = Done w ∧
       dom w = page ∧
       currentSlide (self w) = 0 ∧
       totalSlides (self w) = Z.of_nat (length (slides page)) ∧
       isTransitioning (self w) = false ∧
       autoplayInterval (self w) = Some (nextTimerId h) ∧
       journal (host w) = journal h.
Proof. eexists. split; [reflexivity |]. by cbn. Qed.

End SliderCalls.

(** ** The slider: the clock *)

Section SliderClock.
Import Slider.

Lemma Forall_filter_keep {A} (P Q : A → Prop) `{!∀ x, Decision (Q x)}
    (l : list A) :
  Forall P l → Forall P (filter Q l).
Proof.
  rewrite !Forall_forall. intros Hall x Hx.
  apply list_elem_of_filter in Hx as [_ Hx]. by apply Hall.
Qed.

Lemma filter_none {A} (Q : A → Prop) `{!∀ x, Decision (Q x)} (l : list A) :
  Forall (λ x, ¬ Q x) l → filter Q l = [].
Proof.
  induction 1 as [|x l Hx _ IH]; [done |].
  rewrite filter_cons. by destruct (decide (Q x)).
Qed.

Lemma retime_tid (id t : Z) (x : timer) : tid (retime id t x) = tid x.
Proof. unfold retime. by destruct (decide _). Qed.

Lemma retime_action (id t : Z) (x : timer) : action (retime id t x) = action x.
Proof. unfold retime. by destruct (decide _). Qed.

Lemma retime_other (id t : Z) (x : timer) : tid x ≠ id → retime id t x = x.
Proof. intros H. unfold retime. by destruct (decide _). Qed.

(** While no timer is ready, a tick only moves the clock. *)
Lemma tick_quiet (w : world) :
  Forall (λ t, now (host w) + 1 < due t) (timers (host w)) →
  tick w = set_now (now (host w) + 1) w.
Proof.
  intros H. unfold tick. cbn [set_now host now timers].
  rewrite filter_none; [done |].
  eapply Forall_impl; [exact H |]. cbn. intros t Ht. lia.
Qed.

Lemma iter_tick_quiet (k : nat) (w : world) :
  Forall (λ t, now (host w) + Z.of_nat k < due t) (timers (host w)) →
  Nat.iter k tick w = set_now (now (host w) + Z.of_nat k) w.
Proof.
  induction k as [|k IH]; intros H.
  - cbn [Nat.iter]. rewrite Z.add_0_r. by destruct w as [d s [? ? ? ?]].
  - rewrite Nat.iter_succ, IH.
    + rewrite tick_quiet.
      * replace (now (host w) + Z.of_nat (S k))
          with (now (host w) + Z.of_nat k + 1) by lia.
        reflexivity.
      * cbn [set_now host now timers]. eapply Forall_impl; [exact H |].
        cbn. intros t Ht. lia.
    + eapply Forall_impl; [exact H |]. cbn. intros t Ht. lia.
Qed.

(** With the lock held and the release timer [rel] last in the queue, a
    timer other than [rel] that runs changes the queue before [rel] and
    nothing else. *)
Lemma run_timer_locked (w : world) (t rel : timer) (L : list timer) :
  isTransitioning (self w) = true →
  timers (host w) = L ++ [rel] →
  Forall (autoplay_before rel) L →
  tid t ≠ tid rel →
  ∃ L', run_timer w t = set_timers (L' ++ [rel]) w ∧
        Forall (autoplay_before rel) L'.
Proof.
  intros Hlock HT HL Ht. unfold run_timer.
  destruct (list_find _ _) as [[i x]|] eqn:E.
  - apply list_find_Some in E as (Hl & Hx & _).
    rewrite HT in Hl. apply list_elem_of_lookup_2, elem_of_app in Hl.
    destruct Hl as [Hin|Hin].
    2:{ apply list_elem_of_singleton in Hin. congruence. }
    rewrite Forall_forall in HL. destruct (HL x Hin) as [Hact Hlt].
    rewrite Hact. destruct (period x) as [p|].
    + exists (retime (tid x) (now (host w) + Z.max 0 p) <$> L). split.
      * cbn [run_callback set_timers self]. rewrite Hlock. cbn [negb settle].
        rewrite HT, fmap_app. cbn [fmap list_fmap].
        by rewrite (retime_other _ _ rel) by lia.
      * apply Forall_fmap, Forall_forall. intros y Hy.
        destruct (HL y Hy). unfold autoplay_before. cbn.
        by rewrite retime_tid, retime_action.
    + exists (filter (λ y, tid y ≠ tid x) L). split.
      * cbn [run_callback clearInterval set_timers self]. rewrite Hlock.
        cbn [negb settle]. unfold clearInterval. rewrite HT, filter_app.
        rewrite (list.filter_singleton _ rel L).
        destruct (decide (tid rel ≠ tid x)); [done | lia].
      * apply Forall_filter_keep, Forall_forall, HL.
  - exists L. split; [| done]. by rewrite <- HT, set_timers_same.
Qed.

Lemma foldl_run_timer_locked (ready : list timer) (w : world) (rel : timer)
    (L : list timer) :
  isTransitioning (self w) = true →
  timers (host w) = L ++ [rel] →
  Forall (autoplay_before rel) L →
  Forall (λ t, tid t ≠ tid rel) ready →
  ∃ L', foldl run_timer w ready = set_timers (L' ++ [rel]) w ∧
        Forall (autoplay_before rel) L'.
Proof.
  revert w L. induction ready as [|t ready IH]; intros w L Hlock HT HL Hr.
  - exists L. split; [| done]. by rewrite <- HT, set_timers_same.
  - apply Forall_cons in Hr as [Ht Hr]. cbn [foldl].
    destruct (run_timer_locked w t rel L) as (L1 & -> & HL1); try done.
    destruct (IH (set_timers (L1 ++ [rel]) w) L1) as (L2 & -> & HL2); try done.
    by exists L2.
Qed.

(** Before the release is due, a tick under the lock moves the clock and
    re-arms autoplay timers; nothing else changes. *)
Lemma tick_locked_early (w : world) (rel : timer) (L : list timer) :
  isTransitioning (self w) = true →
  timers (host w) = L ++ [rel] →
  Forall (autoplay_before rel) L →
  now (host w) + 1 < due rel →
  ∃ L', tick w = set_now (now (host w) + 1) (set_timers (L' ++ [rel]) w) ∧
        Forall (autoplay_before rel) L'.
Proof.
  intros Hlock HT HL Hdue. unfold tick.
  cbn [set_now host now timers]. rewrite HT, filter_app.
  rewrite (list.filter_singleton _ rel L).
  destruct (decide (due rel ≤ now (host w) + 1)); [lia |].
  rewrite app_nil_r.
  destruct (foldl_run_timer_locked
              (filter (λ t, due t ≤ now (host w) + 1) L)
              (set_now (now (host w) + 1) w) rel L) as (L' & -> & HL'); try done.
  - apply Forall_forall. intros t Hin.
    apply list_elem_of_filter in Hin as [_ Hin].
    rewrite Forall_forall in HL. destruct (HL t Hin). lia.
  - by exists L'.
Qed.

(** The tick at which the release is due: every autoplay timer that is
    ready is skipped, then the lock is released and the release timer
    leaves the queue. *)
Lemma tick_locked_release (w : world) (rel : timer) (L : list timer) :
  isTransitioning (self w) = true →
  timers (host w) = L ++ [rel] →
  Forall (autoplay_before rel) L →
  action rel = ReleaseLock → period rel = None →
  due rel ≤ now (host w) + 1 →
  ∃ L', tick w =
          enableButtons
            (set_isTransitioning false
               (set_now (now (host w) + 1) (set_timers L' w))) ∧
        Forall (autoplay_before rel) L'.
Proof.
  intros Hlock HT HL Hact Hper Hdue. unfold tick.
  cbn [set_now host now timers]. rewrite HT, filter_app.
  rewrite (list.filter_singleton _ rel L).
  destruct (decide (due rel ≤ now (host w) + 1)); [| lia].
  rewrite foldl_app. cbn [foldl].
  destruct (foldl_run_timer_locked
              (filter (λ t, due t ≤ now (host w) + 1) L)
              (set_now (now (host w) + 1) w) rel L) as (L' & -> & HL'); try done.
  - apply Forall_forall. intros t Hin.
    apply list_elem_of_filter in Hin as [_ Hin].
    rewrite Forall_forall in HL. destruct (HL t Hin). lia.
  - exists L'. split; [| done]. unfold run_timer.
    cbn [set_timers set_now host timers].
    assert (list_find (λ x, tid x = tid rel) (L' ++ [rel])
            = Some (length L', rel)) as ->.
    { apply list_find_Some. split; [| split; [done |]].
      - by rewrite lookup_app_r, Nat.sub_diag.
      - intros j y Hy Hj. rewrite lookup_app_l in Hy by done.
        apply list_elem_of_lookup_2 in Hy.
        rewrite Forall_forall in HL'. destruct (HL' y Hy). lia. }
    rewrite Hper, Hact. unfold clearInterval.
    cbn [run_callback settle set_timers host timers].
    rewrite filter_app, (list.filter_singleton _ rel L).
    destruct (decide (tid rel ≠ tid rel)); [done |].
    rewrite app_nil_r.
    assert (filter (λ t, tid t ≠ tid rel) L' = L') as ->; [| done].
    clear -HL'. induction HL' as [|y l [_ Hy] _ IH]; [done |].
    rewrite filter_cons. destruct (decide (tid y ≠ tid rel)); [| lia].
    by rewrite IH.
Qed.

End SliderClock.

(** ** The slider: the settle window *)

Section SliderSettle.
Import Slider.

Lemma iter_tick_locked (k : nat) (w : world) (rel : timer) (L : list timer) :
  isTransitioning (self w) = true →
  timers (host w) = L ++ [rel] →
  Forall (autoplay_before rel) L →
  now (host w) + Z.of_nat k < due rel →
  ∃ L', Nat.iter k tick w =
          set_now (now (host w) + Z.of_nat k) (set_timers (L' ++ [rel]) w) ∧
        Forall (autoplay_before rel) L'.
Proof.
  intros Hlock HT HL. induction k as [|k IH]; intros Hdue.
  - exists L. split; [| done]. cbn [Nat.iter]. rewrite Z.add_0_r, <- HT.
    by destruct w as [d s [? ? ? ?]].
  - destruct IH as (L1 & E1 & HL1); [lia |].
    rewrite Nat.iter_succ, E1.
    destruct (tick_locked_early
                (set_now (now (host w) + Z.of_nat k) (set_timers (L1 ++ [rel]) w))
                rel L1) as (L2 & -> & HL2); try done.
    { cbn [set_now set_timers host now]. lia. }
    exists L2. split; [| done]. cbn [set_now set_timers host now].
    replace (now (host w) + Z.of_nat (S k))
      with (now (host w) + Z.of_nat k + 1) by lia.
    reflexivity.
Qed.

(** Under the lock, with the release [rel] due [d] milliseconds from now:
    after [d] milliseconds the lock is free, the buttons are enabled, the
    release has left the queue, and nothing else but the clock and the
    arming of autoplay timers has changed. *)
Lemma advance_to_release (d : Z) (w : world) (rel : timer) (L : list timer) :
  isTransitioning (self w) = true →
  timers (host w) = L ++ [rel] →
  Forall (autoplay_before rel) L →
  action rel = ReleaseLock → period rel = None →
  0 < d → due rel = now (host w) + d →
  ∃ L', advance d w =
          enableButtons
            (set_isTransitioning false
               (set_now (now (host w) + d) (set_timers L' w))) ∧
        Forall (autoplay_before rel) L'.
Proof.
  intros Hlock HT HL Hact Hper Hd Hdue. unfold advance.
  replace (Z.to_nat d) with (S (Z.to_nat (d - 1))) by lia.
  destruct (iter_tick_locked (Z.to_nat (d - 1)) w rel L)
    as (L1 & E1 & HL1); try done; [lia |].
  rewrite Nat.iter_succ, E1.
  destruct (tick_locked_release
              (set_now (now (host w) + Z.of_nat (Z.to_nat (d - 1)))
                 (set_timers (L1 ++ [rel]) w))
              rel L1) as (L2 & -> & HL2); try done.
  { cbn [set_now set_timers host now]. lia. }
  exists L2. split; [| done]. cbn [set_now set_timers host now].
  replace (now (host w) + Z.of_nat (Z.to_nat (d - 1)) + 1)
    with (now (host w) + d) by lia.
  reflexivity.
Qed.

(** Less than [d] milliseconds after, the lock is still held. *)
Lemma advance_before_release (d : Z) (w : world) (rel : timer) (L : list timer) :
  isTransitioning (self w) = true →
  timers (host w) = L ++ [rel] →
  Forall (autoplay_before rel) L →
  now (host w) + d < due rel →
  isTransitioning (self (advance d w)) = true ∧
  self (advance d w) = self w ∧ dom (advance d w) = dom w ∧
  journal (host (advance d w)) = journal (host w).
Proof.
  intros Hlock HT HL Hdue. unfold advance.
  destruct (Z.le_gt_cases 0 d) as [Hd|Hd].
  - destruct (iter_tick_locked (Z.to_nat d) w rel L Hlock HT HL)
      as (L1 & -> & _); [lia | done].
  - by replace (Z.to_nat d) with 0%nat by lia.
Qed.

(** The release timer [showSlide] registers. *)
Lemma started_queue (z : Z) (cl : gset string) (w : world) :
  timers (host (started z cl w)) =
    timers (host w) ++
    [{| tid := nextTimerId (host w);
        due := now (host w) + Z.max 0 (clickDelay (self w));
        period := None; action := ReleaseLock |}].
Proof. reflexivity. Qed.

(** A transition started from an idle queue, seen once the settle delay
    has passed. *)
Lemma started_settled (z : Z) (cl : gset string) (w : world) :
  idle_queue w → 0 < clickDelay (self w) →
  ∃ L',
    advance (clickDelay (self w)) (started z cl w) =
      enableButtons
        (set_isTransitioning false
           (set_now (now (host w) + clickDelay (self w))
              (set_timers L' (started z cl w)))) ∧
    Forall (λ t, action t = AutoplayTick ∧ tid t < nextTimerId (host w)) L'.
Proof.
  intros Hq Hd.
  destruct (advance_to_release (clickDelay (self w)) (started z cl w)
              {| tid := nextTimerId (host w);
                 due := now (host w) + Z.max 0 (clickDelay (self w));
                 period := None; action := ReleaseLock |}
              (timers (host w))) as (L' & E & HL'); try done.
  - cbn. lia.
  - exists L'. split; [exact E | exact HL'].
Qed.

(** Until then the lock is held and only the clock moves. *)
Lemma started_holds (z : Z) (cl : gset string) (w : world) (d : Z) :
  idle_queue w → d < clickDelay (self w) →
  isTransitioning (self (advance d (started z cl w))) = true ∧
  currentSlide (self (advance d (started z cl w))) = z ∧
  journal (host (advance d (started z cl w))) = journal (host w).
Proof.
  intros Hq Hd.
  destruct (advance_before_release d (started z cl w)
              {| tid := nextTimerId (host w);
                 due := now (host w) + Z.max 0 (clickDelay (self w));
                 period := None; action := ReleaseLock |}
              (timers (host w))) as (H1 & H2 & _ & H4); try done.
  - cbn. lia.
  - by rewrite H1, H2, H4.
Qed.

(** An idle [showSlide z] followed by the settle delay: the slider is
    idle again on slide [z], with an idle queue. *)
Lemma showSlide_settled (z : Z) (w : world) :
  index_inv w → isTransitioning (self w) = false →
  idle_queue w → 0 < clickDelay (self w) →
  0 ≤ z < totalSlides (self w) →
  let w' := settled (showSlide (Num z) w) in
  index_inv w' ∧ isTransitioning (self w') = false ∧ idle_queue w' ∧
  currentSlide (self w') = z ∧
  totalSlides (self w') = totalSlides (self w) ∧
  clickDelay (self w') = clickDelay (self w) ∧
  journal (host w') = journal (host w) ∧
  now (host w') = now (host w) + clickDelay (self w).
Proof.
  intros [Hn Hc] Hidle Hq Hd Hz.
  destruct (showSlide_idle z w) as (cl & Hcl & E); [done | lia |].
  unfold settled. rewrite E. cbn [state_of].
  change (clickDelay (self (started z cl w))) with (clickDelay (self w)).
  destruct (started_settled z cl w Hq Hd) as (L' & -> & HL').
  cbn. split_and!; try done.
  - split; cbn; rewrite ?length_insert, ?length_fmap; lia.
  - unfold idle_queue. cbn. eapply Forall_impl; [exact HL' |].
    cbn. intros t [? ?]. split; [done | lia].
Qed.

Lemma nextSlide_settled (w : world) :
  index_inv w → isTransitioning (self w) = false →
  idle_queue w → 0 < clickDelay (self w) →
  let w' := settled (nextSlide w) in
  index_inv w' ∧ isTransitioning (self w') = false ∧ idle_queue w' ∧
  currentSlide (self w') =
    Z.rem (currentSlide (self w) + 1) (totalSlides (self w)) ∧
  totalSlides (self w') = totalSlides (self w) ∧
  clickDelay (self w') = clickDelay (self w) ∧
  journal (host w') = journal (host w) ∧
  now (host w') = now (host w) + clickDelay (self w).
Proof.
  intros Hinv Hidle Hq Hd. unfold nextSlide, js_rem.
  destruct Hinv as [Hn Hc].
  destruct (Z.eqb_spec (totalSlides (self w)) 0); [lia |].
  apply showSlide_settled; try done. apply rem_in_range; lia.
Qed.

Lemma prevSlide_settled (w : world) :
  index_inv w → isTransitioning (self w) = false →
  idle_queue w → 0 < clickDelay (self w) →
  let w' := settled (prevSlide w) in
  index_inv w' ∧ isTransitioning (self w') = false ∧ idle_queue w' ∧
  currentSlide (self w') =
    Z.rem (currentSlide (self w) - 1 + totalSlides (self w))
          (totalSlides (self w)) ∧
  totalSlides (self w') = totalSlides (self w) ∧
  clickDelay (self w') = clickDelay (self w) ∧
  journal (host w') = journal (host w) ∧
  now (host w') = now (host w) + clickDelay (self w).
Proof.
  intros Hinv Hidle Hq Hd. unfold prevSlide, js_rem.
  destruct Hinv as [Hn Hc].
  destruct (Z.eqb_spec (totalSlides (self w)) 0); [lia |].
  apply showSlide_settled; try done. apply rem_in_range; lia.
Qed.

End SliderSettle.

(** ** The slider: one transition in flight *)

Section SliderLock.
Import Slider.

Lemma releases_app (l1 l2 : list timer) :
  releases (l1 ++ l2) = releases l1 ++ releases l2.
Proof. apply filter_app. Qed.

Lemma releases_filter (P : timer → Prop) `{!∀ x, Decision (P x)}
    (l : list timer) :
  releases (filter P l) = filter P (releases l).
Proof.
  unfold releases. induction l as [|x l IH]; [done |].
  rewrite !filter_cons.
  destruct (decide (P x)), (decide (action x = ReleaseLock));
    rewrite ?filter_cons; repeat case_decide; try done; by rewrite IH.
Qed.

Lemma releases_retime (id t : Z) (l : list timer) :
  releases (retime id t <$> l) = retime id t <$> releases l.
Proof.
  unfold releases. induction l as [|x l IH]; [done |].
  cbn [fmap list_fmap]. rewrite !filter_cons, retime_action.
  case_decide; [| exact IH]. cbn [fmap list_fmap]. f_equal. exact IH.
Qed.

Lemma length_filter_le {A} (P : A → Prop) `{!∀ x, Decision (P x)}
    (l : list A) :
  (length (filter P l) ≤ length l)%nat.
Proof.
  induction l as [|x l IH]; [done |]. rewrite filter_cons.
  case_decide; cbn [length]; lia.
Qed.

Lemma lock_queue_filter (b : bool) (P : timer → Prop)
    `{!∀ x, Decision (P x)} (l : list timer) :
  lock_queue b l → lock_queue b (filter P l).
Proof.
  intros (Hlen & Hnone & Hper). unfold lock_queue.
  rewrite releases_filter. split_and!.
  - pose proof (length_filter_le P (releases l)). lia.
  - intros Hb. by rewrite Hnone.
  - by apply Forall_filter_keep.
Qed.

Lemma retime_period (id t : Z) (x : timer) : period (retime id t x) = period x.
Proof. unfold retime. by destruct (decide _). Qed.

Lemma lock_queue_retime (b : bool) (id t : Z) (l : list timer) :
  lock_queue b l → lock_queue b (retime id t <$> l).
Proof.
  intros (Hlen & Hnone & Hper). unfold lock_queue.
  rewrite releases_retime. split_and!.
  - by rewrite length_fmap.
  - intros Hb. by rewrite Hnone.
  - apply Forall_fmap. eapply Forall_impl; [exact Hper |].
    intros x Hx. cbn. by rewrite retime_period.
Qed.

Lemma lock_queue_autoplay (b : bool) (l : list timer) (t : timer) :
  action t = AutoplayTick → lock_queue b l → lock_queue b (l ++ [t]).
Proof.
  intros Ht H. unfold lock_queue. rewrite releases_app.
  assert (releases [t] = []) as ->.
  { unfold releases. rewrite (list.filter_singleton _ t l), Ht.
    by case_decide. }
  by rewrite app_nil_r.
Qed.

Lemma lock_queue_take (l : list timer) : lock_queue false l → lock_queue true l.
Proof.
  intros (Hlen & Hnone & Hper). split_and!; [done | done | done].
Qed.

(** Taking the lock and registering the release. *)
Lemma lock_queue_start (l : list timer) (t : timer) :
  action t = ReleaseLock → period t = None →
  lock_queue false l → lock_queue true (l ++ [t]).
Proof.
  intros Ht Hp (_ & Hnone & _). unfold lock_queue. rewrite releases_app.
  rewrite Hnone by done.
  assert (releases [t] = [t]) as ->.
  { unfold releases. rewrite (list.filter_singleton _ t l).
    by case_decide. }
  cbn. split_and!; [lia | done |]. by apply Forall_cons.
Qed.

(** The release that runs was the only one; with it gone the queue fits
    a free lock. *)
Lemma lock_queue_release (b : bool) (l : list timer) (x : timer) :
  x ∈ l → action x = ReleaseLock →
  lock_queue b l → lock_queue false (filter (λ t, tid t ≠ tid x) l).
Proof.
  intros Hin Hact (Hlen & _ & Hper).
  assert (x ∈ releases l) as Hx by by apply list_elem_of_filter.
  assert (releases l = [x]) as E.
  { destruct (releases l) as [|y [|z r]]; cbn in Hlen.
    - by apply elem_of_nil in Hx.
    - by apply list_elem_of_singleton in Hx as ->.
    - lia. }
  unfold lock_queue. rewrite releases_filter, E.
  rewrite (list.filter_singleton _ x l).
  case_decide; [done |]. cbn. split_and!; [lia | done | done].
Qed.

Lemma showSlide_lock_inv (index : jsnum) (w : world) :
  lock_inv w → lock_inv (state_of (showSlide index w)).
Proof.
  unfold lock_inv, showSlide. intros H.
  destruct (isTransitioning (self w)) eqn:Hb; [cbn; by rewrite Hb |].
  destruct (slide_at index _) as [[i cl]|]; cbn.
  - by apply lock_queue_start.
  - by apply lock_queue_take.
Qed.

Lemma pauseAutoplay_lock_inv (w : world) :
  lock_inv w → lock_inv (pauseAutoplay w).
Proof.
  unfold lock_inv, pauseAutoplay. intros H.
  destruct (autoplayInterval (self w)) as [id|]; [| done].
  destruct (truthy _); [| done]. cbn. by apply lock_queue_filter.
Qed.

Lemma startAutoplay_lock_inv (w : world) :
  lock_inv w → lock_inv (startAutoplay w).
Proof.
  intros H. apply pauseAutoplay_lock_inv in H. revert H.
  unfold lock_inv, startAutoplay. cbn. intros H.
  by apply lock_queue_autoplay.
Qed.

Lemma settle_lock_inv (o : outcome) : lock_inv (state_of o) → lock_inv (settle o).
Proof. by destruct o. Qed.

Lemma run_timer_lock_inv (w : world) (t : timer) :
  lock_inv w → lock_inv (run_timer w t).
Proof.
  intros H. unfold run_timer.
  destruct (list_find _ _) as [[i x]|] eqn:E; [| done].
  apply list_find_Some in E as (Hl & _ & _).
  apply list_elem_of_lookup_2 in Hl.
  apply settle_lock_inv.
  destruct (action x) eqn:Hact; cbn [run_callback].
  - (* the release *)
    destruct H as (Hlen & Hnone & Hper).
    assert (period x = None) as ->.
    { rewrite Forall_forall in Hper. apply Hper.
      by apply list_elem_of_filter. }
    unfold lock_inv. cbn.
    by apply (lock_queue_release (isTransitioning (self w))).
  - (* the autoplay closure *)
    assert (lock_inv
              (match period x with
               | Some p =>
                   set_timers (retime (tid x) (now (host w) + Z.max 0 p)
                                 <$> timers (host w)) w
               | None => clearInterval (tid x) w
               end)) as H'.
    { destruct (period x); unfold lock_inv; cbn.
      - by apply lock_queue_retime.
      - by apply lock_queue_filter. }
    revert H'. generalize (match period x with
               | Some p =>
                   set_timers (retime (tid x) (now (host w) + Z.max 0 p)
                                 <$> timers (host w)) w
               | None => clearInterval (tid x) w
               end). intros w' H'.
    destruct (isTransitioning (self w')); cbn [negb state_of]; [done |].
    by apply (showSlide_lock_inv _ (note CalledNext w')).
Qed.

Lemma foldl_run_timer_lock_inv (l : list timer) (w : world) :
  lock_inv w → lock_inv (foldl run_timer w l).
Proof.
  revert w. induction l as [|t l IH]; intros w H; [done |].
  cbn [foldl]. by apply IH, run_timer_lock_inv.
Qed.

Lemma tick_lock_inv (w : world) : lock_inv w → lock_inv (tick w).
Proof. intros H. by apply foldl_run_timer_lock_inv. Qed.

Lemma deliver_lock_inv (i : input) (w : world) :
  lock_inv w → lock_inv (deliver i w).
Proof.
  intros H. destruct i; cbn [deliver].
  - destruct (prevBtn (dom w)); [| done].
    by apply settle_lock_inv, showSlide_lock_inv.
  - destruct (nextBtn (dom w)); [| done].
    by apply settle_lock_inv, showSlide_lock_inv.
  - destruct (sliderContainer (dom w)); [| done].
    by apply pauseAutoplay_lock_inv.
  - destruct (sliderContainer (dom w)); [| done].
    by apply startAutoplay_lock_inv.
  - by apply settle_lock_inv, showSlide_lock_inv.
  - by apply settle_lock_inv, showSlide_lock_inv.
  - by apply settle_lock_inv, showSlide_lock_inv.
  - by apply pauseAutoplay_lock_inv.
  - by apply startAutoplay_lock_inv.
  - by apply startAutoplay_lock_inv.
  - by apply tick_lock_inv.
Qed.

Lemma run_lock_inv (ins : list input) (w : world) :
  lock_inv w → lock_inv (run ins w).
Proof.
  revert w. induction ins as [|i ins IH]; intros w H; [done |].
  apply IH, deliver_lock_inv, H.
Qed.

End SliderLock.

(** ** The slider: no exception within the contract *)

Section SliderSafety.
Import Slider.

Lemma showSlide_in_range_done (z : Z) (w : world) :
  index_inv w → 0 ≤ z < totalSlides (self w) →
  ∃ w', showSlide (Num z) w = Done w' ∧ journal (host w') = journal (host w).
Proof.
  intros [Hn Hc] Hz. destruct (isTransitioning (self w)) eqn:Hb.
  - exists w. by rewrite showSlide_locked.
  - destruct (showSlide_idle z w) as (cl & _ & ->); [done | lia |].
    by eexists.
Qed.

Lemma nextSlide_done (w : world) :
  index_inv w →
  ∃ w', nextSlide w = Done w' ∧ journal (host w') = journal (host w).
Proof.
  intros Hinv. pose proof Hinv as [Hn Hc]. unfold nextSlide, js_rem.
  destruct (Z.eqb_spec (totalSlides (self w)) 0); [lia |].
  apply showSlide_in_range_done; [done |]. apply rem_in_range; lia.
Qed.

Lemma prevSlide_done (w : world) :
  index_inv w →
  ∃ w', prevSlide w = Done w' ∧ journal (host w') = journal (host w).
Proof.
  intros Hinv. pose proof Hinv as [Hn Hc]. unfold prevSlide, js_rem.
  destruct (Z.eqb_spec (totalSlides (self w)) 0); [lia |].
  apply showSlide_in_range_done; [done |]. apply rem_in_range; lia.
Qed.

Lemma run_callback_done (cb : callback) (w : world) :
  index_inv w → Uncaught ∉ journal (host w) →
  ∃ w', run_callback cb w = Done w' ∧ Uncaught ∉ journal (host w').
Proof.
  intros Hinv Hj. destruct cb; cbn [run_callback].
  - by eexists.
  - destruct (isTransitioning (self w)); cbn [negb]; [by eexists |].
    destruct (nextSlide_done (note CalledNext w)) as (w' & -> & E); [done |].
    exists w'. split; [done |]. rewrite E. cbn.
    rewrite elem_of_app, list_elem_of_singleton. by intros [?|?].
Qed.

Lemma run_timer_safe (w : world) (t : timer) :
  index_inv w → Uncaught ∉ journal (host w) →
  Uncaught ∉ journal (host (run_timer w t)).
Proof.
  intros Hinv Hj. unfold run_timer.
  destruct (list_find _ _) as [[i x]|]; [| done].
  destruct (run_callback_done (action x)
              (match period x with
               | Some p =>
                   set_timers (retime (tid x) (now (host w) + Z.max 0 p)
                                 <$> timers (host w)) w
               | None => clearInterval (tid x) w
               end)) as (w' & -> & H'); [| | done]; by destruct (period x).
Qed.

Lemma foldl_run_timer_safe (l : list timer) (w : world) :
  index_inv w → Uncaught ∉ journal (host w) →
  Uncaught ∉ journal (host (foldl run_timer w l)).
Proof.
  revert w. induction l as [|t l IH]; intros w Hinv Hj; [done |].
  cbn [foldl]. apply IH; [by apply run_timer_index_inv | by apply run_timer_safe].
Qed.

Lemma pauseAutoplay_journal (w : world) :
  journal (host (pauseAutoplay w)) = journal (host w).
Proof.
  unfold pauseAutoplay. destruct (autoplayInterval (self w)); [| done].
  by destruct (truthy _).
Qed.

Lemma startAutoplay_journal (w : world) :
  journal (host (startAutoplay w)) = journal (host w).
Proof. unfold startAutoplay. cbn. apply pauseAutoplay_journal. Qed.

Lemma pauseAutoplay_totalSlides (w : world) :
  totalSlides (self (pauseAutoplay w)) = totalSlides (self w).
Proof.
  unfold pauseAutoplay. destruct (autoplayInterval (self w)); [| done].
  by destruct (truthy _).
Qed.

Lemma deliver_safe (i : input) (w : world) :
  index_inv w → in_contract (totalSlides (self w)) i →
  Uncaught ∉ journal (host w) →
  Uncaught ∉ journal (host (deliver i w)).
Proof.
  intros Hinv Hi Hj. destruct i; cbn [deliver].
  - destruct (prevBtn (dom w)); [| done].
    destruct (prevSlide_done w Hinv) as (w' & -> & E). cbn. by rewrite E.
  - destruct (nextBtn (dom w)); [| done].
    destruct (nextSlide_done w Hinv) as (w' & -> & E). cbn. by rewrite E.
  - destruct (sliderContainer (dom w)); [| done].
    by rewrite pauseAutoplay_journal.
  - destruct (sliderContainer (dom w)); [| done].
    by rewrite startAutoplay_journal.
  - destruct index as [z|]; [| done].
    destruct (showSlide_in_range_done z w Hinv Hi) as (w' & -> & E).
    cbn. by rewrite E.
  - destruct (nextSlide_done w Hinv) as (w' & -> & E). cbn. by rewrite E.
  - destruct (prevSlide_done w Hinv) as (w' & -> & E). cbn. by rewrite E.
  - by rewrite pauseAutoplay_journal.
  - by rewrite startAutoplay_journal.
  - unfold restartAutoplay. by rewrite startAutoplay_journal.
  - by apply foldl_run_timer_safe.
Qed.

(** [totalSlides] is written by the constructor only. *)
Lemma showSlide_totalSlides (index : jsnum) (w : world) :
  totalSlides (self (state_of (showSlide index w))) = totalSlides (self w).
Proof.
  unfold showSlide. destruct (isTransitioning (self w)); [done |].
  by destruct (slide_at index _) as [[i cl]|].
Qed.

Lemma settle_totalSlides (o : outcome) :
  totalSlides (self (settle o)) = totalSlides (self (state_of o)).
Proof. by destruct o. Qed.

Lemma run_timer_totalSlides (w : world) (t : timer) :
  totalSlides (self (run_timer w t)) = totalSlides (self w).
Proof.
  unfold run_timer. destruct (list_find _ _) as [[i x]|]; [| done].
  rewrite settle_totalSlides.
  destruct (action x); cbn [run_callback].
  - by destruct (period x).
  - destruct (isTransitioning _); cbn [negb state_of].
    + by destruct (period x).
    + unfold nextSlide. rewrite showSlide_totalSlides. by destruct (period x).
Qed.

Lemma foldl_run_timer_totalSlides (l : list timer) (w : world) :
  totalSlides (self (foldl run_timer w l)) = totalSlides (self w).
Proof.
  revert w. induction l as [|t l IH]; intros w; [done |].
  cbn [foldl]. by rewrite IH, run_timer_totalSlides.
Qed.

Lemma startAutoplay_totalSlides (w : world) :
  totalSlides (self (startAutoplay w)) = totalSlides (self w).
Proof. unfold startAutoplay. cbn. apply pauseAutoplay_totalSlides. Qed.

Lemma tick_totalSlides (w : world) :
  totalSlides (self (tick w)) = totalSlides (self w).
Proof. unfold tick. by rewrite foldl_run_timer_totalSlides. Qed.

Lemma deliver_totalSlides (i : input) (w : world) :
  totalSlides (self (deliver i w)) = totalSlides (self w).
Proof.
  destruct i; cbn [deliver].
  - destruct (prevBtn (dom w)); [| done].
    unfold prevSlide. by rewrite settle_totalSlides, showSlide_totalSlides.
  - destruct (nextBtn (dom w)); [| done].
    unfold nextSlide. by rewrite settle_totalSlides, showSlide_totalSlides.
  - destruct (sliderContainer (dom w)); [| done].
    apply pauseAutoplay_totalSlides.
  - destruct (sliderContainer (dom w)); [| done].
    apply startAutoplay_totalSlides.
  - by rewrite settle_totalSlides, showSlide_totalSlides.
  - unfold nextSlide. by rewrite settle_totalSlides, showSlide_totalSlides.
  - unfold prevSlide. by rewrite settle_totalSlides, showSlide_totalSlides.
  - apply pauseAutoplay_totalSlides.
  - apply startAutoplay_totalSlides.
  - apply startAutoplay_totalSlides.
  - apply tick_totalSlides.
Qed.

Lemma run_safe (ins : list input) (w : world) :
  index_inv w →
  Forall (in_contract (totalSlides (self w))) ins →
  Uncaught ∉ journal (host w) →
  Uncaught ∉ journal (host (run ins w)).
Proof.
  revert w. induction ins as [|i ins IH]; intros w Hinv Hins Hj; [done |].
  apply Forall_cons in Hins as [Hi Hins]. cbn [run foldl].
  apply (IH (deliver i w)).
  - by apply deliver_index_inv.
  - by rewrite deliver_totalSlides.
  - by apply deliver_safe.
Qed.

End SliderSafety.

(** ** The slider: autoplay *)

Section SliderAutoplay.
Import Slider.

(** [pauseAutoplay] empties a queue that holds only the object's own
    interval. *)
Lemma pauseAutoplay_owned (w : world) :
  autoplay_owned w →
  ∃ h, pauseAutoplay w = set_autoplayInterval h (set_timers [] w).
Proof.
  destruct w as [d [c n a ad it cd] [nw tm ni j]].
  unfold autoplay_owned, pauseAutoplay. cbn. intros Hown.
  destruct a as [id|].
  - destruct (Z.eqb_spec id 0) as [->|Hid]; cbn.
    + exists (Some 0). destruct tm as [|t tm]; [done |].
      apply Forall_cons in Hown as [(_ & Hne & [= Heq]) _]. congruence.
    + exists None. unfold set_autoplayInterval, clearInterval, set_timers. cbn.
      rewrite filter_none; [done |].
      eapply Forall_impl; [exact Hown |]. cbn. intros t (_ & _ & [= ->]). tauto.
  - exists None. destruct tm as [|t tm]; [done |].
    by apply Forall_cons in Hown as [(_ & _ & ?) _].
Qed.

Lemma startAutoplay_owned (w : world) :
  autoplay_owned w → startAutoplay w = armed w.
Proof.
  intros Hown. unfold startAutoplay.
  destruct (pauseAutoplay_owned w Hown) as [h ->]. reflexivity.
Qed.

Lemma armed_owned (w : world) :
  0 < nextTimerId (host w) → autoplay_owned (armed w).
Proof.
  intros Hid. unfold autoplay_owned, armed. cbn.
  apply Forall_cons. split; [| done]. cbn. split_and!; [done | lia | done].
Qed.

(** With one autoplay interval in the queue, due in [d] milliseconds, and
    the slider idle: after [d] milliseconds the closure has run once, has
    called [nextSlide], and the transition it started is in flight. *)
Lemma autoplay_fires (w : world) (iv : timer) (d p : Z) :
  index_inv w → isTransitioning (self w) = false →
  timers (host w) = [iv] →
  action iv = AutoplayTick → period iv = Some p →
  0 < d → due iv = now (host w) + d →
  ∃ cl iv',
    advance d w =
      started (Z.rem (currentSlide (self w) + 1) (totalSlides (self w))) cl
        (note CalledNext
           (set_timers [iv'] (set_now (now (host w) + d) w))).
Proof.
  intros Hinv Hidle HT Hact Hper Hd Hdue. unfold advance.
  replace (Z.to_nat d) with (S (Z.to_nat (d - 1))) by lia.
  rewrite Nat.iter_succ, iter_tick_quiet.
  2:{ rewrite HT. apply Forall_cons. split; [lia | done]. }
  replace (now (host w) + Z.of_nat (Z.to_nat (d - 1)))
    with (now (host w) + d - 1) by lia.
  unfold tick. cbn [set_now host now timers]. rewrite HT.
  rewrite (list.filter_singleton _ iv []).
  case_decide; [| lia]. cbn [foldl]. unfold run_timer.
  cbn [set_now host timers now]. rewrite HT. cbn [list_find].
  case_decide; [| done]. cbn [fmap option_fmap option_map prod_map fst snd].
  rewrite Hper, Hact. cbn [run_callback set_timers set_now self host].
  rewrite Hidle. cbn [negb].
  match goal with
  | |- context [nextSlide ?x] =>
      destruct (nextSlide_idle x) as (cl & E); [exact Hinv | exact Hidle |]
  end.
  rewrite E. cbn [settle]. exists cl. eexists.
  cbn [fmap list_fmap set_now set_timers note host now timers dom self
       nextTimerId journal].
  replace (now (host w) + d - 1 + 1) with (now (host w) + d) by lia.
  reflexivity.
Qed.

End SliderAutoplay.

(** ** The slider: the stated properties *)

Section SliderTheorems.
Import Slider.

Lemma world_of_index_inv (n : nat) : (0 < n)%nat → index_inv (world_of n).
Proof.
  intros Hn. split; cbn; rewrite length_replicate; [done | lia].
Qed.

Lemma world_of_idle_queue (n : nat) : idle_queue (world_of n).
Proof.
  unfold idle_queue. cbn. apply Forall_cons. split; [| done]. cbn.
  split; [done | lia].
Qed.

Lemma world_of_autoplay_owned (n : nat) : autoplay_owned (world_of n).
Proof.
  unfold autoplay_owned. cbn. apply Forall_cons. split; [| done]. cbn.
  split_and!; [done | lia | done].
Qed.

Lemma construct_lock_inv (page : Dom) :
  lock_inv (state_of (construct page fresh_host)).
Proof.
  unfold lock_inv. cbn.
  apply (lock_queue_autoplay false []); [done |].
  unfold lock_queue, releases. rewrite filter_nil. cbn.
  split_and!; [lia | done | done].
Qed.

(** C3, as the code has it: constructing the slider on a page without
    slides does not fail.  The constructor completes; the object is idle
    with [currentSlide = 0], [totalSlides = 0] and the autoplay interval
    registered: the host's queue is the one it had, followed by one
    interval of 3000 ms that runs the autoplay closure, and the object
    holds its handle.  Nothing rejects the empty collection: the first
    [nextSlide] computes [1 % 0 = NaN], takes the lock and throws at the
    slide access, before the index is written. *)
Theorem construct_empty_completes (page : Dom) (h : Host) :
  slides page = [] →
  ∃ w, construct page h = Done w ∧
       totalSlides (self w) = 0 ∧
       currentSlide (self w) = 0 ∧
       isTransitioning (self w) = false ∧
       autoplayInterval (self w) = Some (nextTimerId h) ∧
       timers (host w) =
         timers h ++ [{| tid := nextTimerId h; due := now h + 3000;
                         period := Some 3000; action := AutoplayTick |}] ∧
       nextTimerId (host w) = nextTimerId h + 1 ∧
       dom w = page ∧
       js_rem (currentSlide (self w) + 1) (totalSlides (self w)) = NaN ∧
       ∃ w', nextSlide w = Thrown w' ∧
             currentSlide (self w') = 0 ∧
             isTransitioning (self w') = true.
Proof.
  destruct page as [sl pb nb sc]. cbn [slides]. intros ->.
  eexists. split; [reflexivity |]. cbn [self host dom state_of startAutoplay
    pauseAutoplay setInterval add_timer set_autoplayInterval totalSlides
    currentSlide isTransitioning autoplayInterval autoplayDelay timers
    nextTimerId now slides length Z.of_nat].
  split_and!; try done.
  eexists. unfold nextSlide. cbn [self totalSlides currentSlide].
  unfold js_rem. cbn [Z.eqb].
  rewrite showSlide_idle_undefined by done. by cbn.
Qed.

Lemma construct_empty_completes_witness :
  ∃ w, construct (page_of 0) fresh_host = Done w ∧
       totalSlides (self w) = 0 ∧
       currentSlide (self w) = 0 ∧
       isTransitioning (self w) = false ∧
       autoplayInterval (self w) = Some (nextTimerId fresh_host) ∧
       timers (host w) =
         timers fresh_host ++
           [{| tid := nextTimerId fresh_host; due := now fresh_host + 3000;
               period := Some 3000; action := AutoplayTick |}] ∧
       nextTimerId (host w) = nextTimerId fresh_host + 1 ∧
       dom w = page_of 0 ∧
       js_rem (currentSlide (self w) + 1) (totalSlides (self w)) = NaN ∧
       ∃ w', nextSlide w = Thrown w' ∧
             currentSlide (self w') = 0 ∧
             isTransitioning (self w') = true.
Proof. exact (construct_empty_completes (page_of 0) fresh_host eq_refl). Defined.

(** C3, as stated, fails: on the page without slides the constructor
    completes normally instead of rejecting it, and the navigation that
    follows is the one that throws. *)
Lemma construct_empty_not_rejected :
  slides (page_of 0) = [] ∧
  construct (page_of 0) fresh_host = Done (world_of 0) ∧
  ¬ (∃ w, construct (page_of 0) fresh_host = Thrown w) ∧
  totalSlides (self (world_of 0)) = 0 ∧
  ∃ w', nextSlide (world_of 0) = Thrown w'.
Proof.
  split_and!; try reflexivity.
  - intros [w Hw]. discriminate Hw.
  - eexists. reflexivity.
Qed.

(** C4: while [isTransitioning] is true, [showSlide], [nextSlide] and
    [prevSlide] return at once and the whole world (object, page, timer
    queue) is as before, so nothing is queued or retried; the autoplay
    closure does nothing either.  A second [nextSlide] right after a first
    one keeps the first call's target.  In every state reached from a
    fresh construction at most one release is pending, and none when the
    lock is free. *)
Theorem locked_calls_are_dropped :
  (∀ (w : world) (index : jsnum),
      isTransitioning (self w) = true →
      showSlide index w = Done w ∧ nextSlide w = Done w ∧
      prevSlide w = Done w ∧
      deliver ClickNext w = w ∧ deliver ClickPrev w = w ∧
      run_callback AutoplayTick w = Done w) ∧
  (∀ w : world,
      index_inv w → isTransitioning (self w) = false →
      ∃ w1, nextSlide w = Done w1 ∧
            isTransitioning (self w1) = true ∧
            currentSlide (self w1)
              = Z.rem (currentSlide (self w) + 1) (totalSlides (self w)) ∧
            nextSlide w1 = Done w1 ∧ prevSlide w1 = Done w1) ∧
  (∀ (page : Dom) (ins : list input),
      lock_inv (run ins (state_of (construct page fresh_host)))).
Proof.
  split_and!.
  - intros w index Hlock.
    assert (∀ i, showSlide i w = Done w) as Hdrop
      by (intros i; by apply showSlide_locked).
    unfold nextSlide, prevSlide. cbn [deliver run_callback].
    rewrite Hlock. cbn [negb]. unfold nextSlide, prevSlide.
    rewrite !Hdrop. cbn [settle].
    split_and!; try done.
    + by destruct (nextBtn (dom w)).
    + by destruct (prevBtn (dom w)).
  - intros w Hinv Hidle.
    destruct (nextSlide_idle w Hinv Hidle) as (cl & E).
    eexists. split; [exact E |]. split; [done |]. split; [done |].
    unfold nextSlide, prevSlide. by rewrite !showSlide_locked.
  - intros page ins. apply run_lock_inv, construct_lock_inv.
Qed.

Lemma locked_calls_are_dropped_witness :
  isTransitioning (self (state_of (nextSlide (world_of 3)))) = true ∧
  nextSlide (state_of (nextSlide (world_of 3)))
    = Done (state_of (nextSlide (world_of 3))) ∧
  currentSlide (self (state_of (nextSlide (state_of (nextSlide (world_of 3))))))
    = 1.
Proof.
  destruct locked_calls_are_dropped as (Hdrop & _ & _).
  assert (isTransitioning (self (state_of (nextSlide (world_of 3)))) = true)
    as Hlock by reflexivity.
  destruct (Hdrop _ NaN Hlock) as (_ & Hnext & _).
  split; [exact Hlock |]. split; [exact Hnext |].
  rewrite Hnext. reflexivity.
Defined.

(** C5: on three slides, starting idle at index 0, three [nextSlide]
    calls, each made once the settle delay of the previous one has passed,
    visit 1, 2 and come back to 0.  After the settle delay that follows a
    transition to any slide [z] the lock is free, and the next
    [nextSlide] or [prevSlide] goes through as a transition of its own. *)
Theorem next_wraps_and_lock_is_released :
  (∀ w : world,
      index_inv w → isTransitioning (self w) = false → idle_queue w →
      0 < clickDelay (self w) →
      totalSlides (self w) = 3 → currentSlide (self w) = 0 →
      let w1 := settled (nextSlide w) in
      let w2 := settled (nextSlide w1) in
      currentSlide (self w1) = 1 ∧ currentSlide (self w2) = 2 ∧
      currentSlide (self (state_of (nextSlide w2))) = 0 ∧
      currentSlide (self (settled (nextSlide w2))) = 0) ∧
  (∀ (w : world) (z : Z),
      index_inv w → isTransitioning (self w) = false → idle_queue w →
      0 < clickDelay (self w) →
      0 ≤ z < totalSlides (self w) →
      let w' := settled (showSlide (Num z) w) in
      isTransitioning (self w') = false ∧
      currentSlide (self w') = z ∧
      (∃ cl, nextSlide w' =
               Done (started (Z.rem (z + 1) (totalSlides (self w))) cl w')) ∧
      (∃ cl, prevSlide w' =
               Done (started (Z.rem (z - 1 + totalSlides (self w))
                                    (totalSlides (self w))) cl w'))).
Proof.
  split.
  - intros w Hinv Hidle Hq Hd HN Hc w1 w2.
    destruct (nextSlide_settled w Hinv Hidle Hq Hd)
      as (Hinv1 & Hidle1 & Hq1 & Hc1 & HN1 & Hd1 & _).
    fold w1 in Hinv1, Hidle1, Hq1, Hc1, HN1, Hd1.
    rewrite Hc, HN in Hc1. change (Z.rem (0 + 1) 3) with 1 in Hc1.
    destruct (nextSlide_settled w1 Hinv1 Hidle1 Hq1 ltac:(lia))
      as (Hinv2 & Hidle2 & Hq2 & Hc2 & HN2 & Hd2 & _).
    fold w2 in Hinv2, Hidle2, Hq2, Hc2, HN2, Hd2.
    rewrite Hc1, HN1, HN in Hc2. change (Z.rem (1 + 1) 3) with 2 in Hc2.
    destruct (nextSlide_settled w2 Hinv2 Hidle2 Hq2 ltac:(lia))
      as (_ & _ & _ & Hc3 & _).
    rewrite Hc2, HN2, HN1, HN in Hc3. change (Z.rem (2 + 1) 3) with 0 in Hc3.
    destruct (nextSlide_idle w2 Hinv2 Hidle2) as (cl & E).
    split_and!; [exact Hc1 | exact Hc2 | | exact Hc3].
    rewrite E. cbn. by rewrite Hc2, HN2, HN1, HN.
  - intros w z Hinv Hidle Hq Hd Hz w'.
    destruct (showSlide_settled z w Hinv Hidle Hq Hd Hz)
      as (Hinv' & Hidle' & _ & Hc' & HN' & _).
    fold w' in Hinv', Hidle', Hc', HN'.
    split; [done |]. split; [done |]. rewrite <- Hc', <- HN'.
    split; [by apply nextSlide_idle | by apply prevSlide_idle].
Qed.

Lemma next_wraps_and_lock_is_released_witness :
  currentSlide
    (self (state_of (nextSlide
                       (settled (nextSlide (settled (nextSlide (world_of 3))))))))
    = 0.
Proof.
  destruct next_wraps_and_lock_is_released as [Hwrap _].
  destruct (Hwrap (world_of 3)) as (_ & _ & H & _).
  - apply world_of_index_inv. lia.
  - reflexivity.
  - apply world_of_idle_queue.
  - cbn. lia.
  - reflexivity.
  - reflexivity.
  - exact H.
Defined.

(** Three [nextSlide] calls made in a row, without waiting: the second
    and the third are dropped and the index is that of the first call. *)
Lemma next_three_times_in_a_row :
  currentSlide
    (self (state_of (nextSlide (state_of (nextSlide (state_of (nextSlide
       (world_of 3)))))))) = 1.
Proof. reflexivity. Qed.

(** C6: [startAutoplay] clears the interval the object holds before it
    registers a new one.  Called twice in a row on an idle slider whose
    queue holds nothing but its own interval, it leaves exactly one
    interval in the queue, and one autoplay delay later the closure has
    called [nextSlide] exactly once.  A closure that runs while a
    transition is in flight changes nothing and queues nothing. *)
Theorem startAutoplay_keeps_one_timer :
  (∀ (w : world) (id : Z),
      autoplayInterval (self w) = Some id → id ≠ 0 →
      timers (host (startAutoplay w)) =
        filter (λ t, tid t ≠ id) (timers (host w)) ++
        [{| tid := nextTimerId (host w);
            due := now (host w) + Z.max 0 (autoplayDelay (self w));
            period := Some (autoplayDelay (self w));
            action := AutoplayTick |}]) ∧
  (∀ w : world,
      index_inv w → isTransitioning (self w) = false →
      autoplay_owned w → 0 < nextTimerId (host w) →
      0 < autoplayDelay (self w) →
      let w2 := startAutoplay (startAutoplay w) in
      (∃ iv, timers (host w2) = [iv] ∧ action iv = AutoplayTick ∧
             autoplayInterval (self w2) = Some (tid iv) ∧
             due iv = now (host w) + autoplayDelay (self w)) ∧
      journal (host (advance (autoplayDelay (self w)) w2))
        = journal (host w) ++ [CalledNext] ∧
      currentSlide (self (advance (autoplayDelay (self w)) w2))
        = Z.rem (currentSlide (self w) + 1) (totalSlides (self w))) ∧
  (∀ w : world,
      isTransitioning (self w) = true → run_callback AutoplayTick w = Done w).
Proof.
  split_and!.
  - intros w id Hh Hid. unfold startAutoplay, pauseAutoplay.
    rewrite Hh. cbn [truthy]. destruct (Z.eqb_spec id 0); [done |]. by cbn.
  - intros w Hinv Hidle Hown Hid Hd w2.
    assert (w2 = armed (armed w)) as ->.
    { unfold w2. rewrite (startAutoplay_owned w Hown).
      apply startAutoplay_owned, armed_owned, Hid. }
    split.
    { eexists. split; [reflexivity |]. cbn. split_and!; [done | done | lia]. }
    destruct (autoplay_fires (armed (armed w))
                {| tid := nextTimerId (host w) + 1;
                   due := now (host w) + Z.max 0 (autoplayDelay (self w));
                   period := Some (autoplayDelay (self w));
                   action := AutoplayTick |}
                (autoplayDelay (self w)) (autoplayDelay (self w)))
      as (cl & iv' & ->); try done.
    cbn. lia.
  - intros w Hlock. cbn [run_callback]. by rewrite Hlock.
Qed.

Lemma startAutoplay_keeps_one_timer_witness :
  journal (host (advance (autoplayDelay (self (world_of 3)))
                   (startAutoplay (startAutoplay (world_of 3)))))
    = journal (host (world_of 3)) ++ [CalledNext].
Proof.
  destruct startAutoplay_keeps_one_timer as (_ & Hone & _).
  destruct (Hone (world_of 3)) as (_ & H & _).
  - apply world_of_index_inv. lia.
  - reflexivity.
  - apply world_of_autoplay_owned.
  - cbn. lia.
  - cbn. lia.
  - exact H.
Defined.

(** C7: a slider constructed on at least one slide starts with
    [currentSlide = 0] and [0 <= currentSlide < totalSlides]; every input
    (a click, a hover, a direct call of any public method with any
    argument, a tick of the clock) keeps the index in that range, and so
    does every sequence of inputs.  From index 0, [prevSlide] goes to
    [totalSlides - 1]; from [totalSlides - 1], [nextSlide] goes to 0. *)
Theorem currentSlide_stays_in_range :
  (∀ (page : Dom) (h : Host),
      slides page ≠ [] →
      ∃ w, construct page h = Done w ∧ currentSlide (self w) = 0 ∧
           index_inv w) ∧
  (∀ (w : world) (i : input), index_inv w → index_inv (deliver i w)) ∧
  (∀ (w : world) (ins : list input), index_inv w → index_inv (run ins w)) ∧
  (∀ w : world,
      index_inv w → isTransitioning (self w) = false →
      currentSlide (self w) = 0 →
      currentSlide (self (state_of (prevSlide w))) = totalSlides (self w) - 1) ∧
  (∀ w : world,
      index_inv w → isTransitioning (self w) = false →
      currentSlide (self w) = totalSlides (self w) - 1 →
      currentSlide (self (state_of (nextSlide w))) = 0).
Proof.
  split_and!.
  - intros [sl pb nb sc] h Hne. eexists. split; [reflexivity |].
    split; [done |]. split; cbn; [done |].
    cbn in Hne. destruct sl; [done | cbn; lia].
  - intros w i. apply deliver_index_inv.
  - intros w ins. apply run_index_inv.
  - intros w Hinv Hidle Hc.
    destruct (prevSlide_idle w Hinv Hidle) as (cl & ->). cbn.
    destruct Hinv as [_ Hr]. rewrite Hc.
    replace (0 - 1 + totalSlides (self w)) with (totalSlides (self w) - 1)
      by lia.
    apply Z.rem_small. lia.
  - intros w Hinv Hidle Hc.
    destruct (nextSlide_idle w Hinv Hidle) as (cl & ->). cbn.
    destruct Hinv as [_ Hr]. rewrite Hc.
    replace (totalSlides (self w) - 1 + 1) with (totalSlides (self w)) by lia.
    apply Z.rem_same. lia.
Qed.

Lemma currentSlide_stays_in_range_witness :
  index_inv (run [ClickNext; Tick; MouseEnter; CallShowSlide NaN; ClickPrev]
               (world_of 3)) ∧
  currentSlide (self (state_of (prevSlide (world_of 3)))) = 2.
Proof.
  destruct currentSlide_stays_in_range as (_ & _ & Hrun & Hprev & _).
  split.
  - apply Hrun, world_of_index_inv. lia.
  - apply (Hprev (world_of 3)); [| reflexivity | reflexivity].
    apply world_of_index_inv. lia.
Defined.

Lemma reveal_hide_classes (cl : gset string) :
  "opacity-100" ∈ reveal (hide cl) ∧ "opacity-0" ∉ reveal (hide cl).
Proof.
  unfold reveal, hide, classList_add, classList_remove.
  cbn [list_to_set foldr]. split.
  - apply elem_of_union. right. apply elem_of_union. left.
    by apply elem_of_singleton.
  - rewrite elem_of_union, elem_of_difference.
    intros [[_ Hout]|Hin].
    + apply Hout, elem_of_union. left. by apply elem_of_singleton.
    + apply elem_of_union in Hin as [Hin|Hin].
      * by apply elem_of_singleton in Hin.
      * by apply elem_of_empty in Hin.
Qed.

(** C8: on a string, [transformHref] completes with a string, the value
    of the function above.  On a slider whose index is in range, the
    indices [nextSlide] and [prevSlide] compute denote slides, both calls
    complete, and no input within the contract ends in an exception; from
    a construction on at least one slide this holds along every sequence
    of such inputs. *)
Theorem components_do_not_throw :
  (∀ s : string,
      FixHref.transformHref_call (FixHref.JString s)
        = FixHref.Normal (FixHref.transformHref s)) ∧
  (∀ w : world,
      index_inv w →
      is_Some (slide_at (js_rem (currentSlide (self w) + 1)
                                (totalSlides (self w))) w) ∧
      is_Some (slide_at (js_rem (currentSlide (self w) - 1 + totalSlides (self w))
                                (totalSlides (self w))) w) ∧
      (∃ w', nextSlide w = Done w') ∧ (∃ w', prevSlide w = Done w')) ∧
  (∀ (w : world) (i : input),
      index_inv w → in_contract (totalSlides (self w)) i →
      Uncaught ∉ journal (host w) →
      index_inv (deliver i w) ∧ Uncaught ∉ journal (host (deliver i w))) ∧
  (∀ (page : Dom) (h : Host) (ins : list input),
      slides page ≠ [] → Uncaught ∉ journal h →
      Forall (in_contract (Z.of_nat (length (slides page)))) ins →
      ∃ w, construct page h = Done w ∧
           Uncaught ∉ journal (host (run ins w))).
Proof.
  split_and!.
  - reflexivity.
  - intros w Hinv. pose proof Hinv as [Hn Hc]. unfold js_rem.
    destruct (Z.eqb_spec (totalSlides (self w)) 0); [lia |].
    split_and!.
    + destruct (slide_at_in_range
                  (Z.rem (currentSlide (self w) + 1) (totalSlides (self w))) w)
        as (cl & _ & ->); [| done].
      rewrite <- Hn. apply rem_in_range; lia.
    + destruct (slide_at_in_range
                  (Z.rem (currentSlide (self w) - 1 + totalSlides (self w))
                         (totalSlides (self w))) w)
        as (cl & _ & ->); [| done].
      rewrite <- Hn. apply rem_in_range; lia.
    + destruct (nextSlide_done w Hinv) as (w' & E & _). by exists w'.
    + destruct (prevSlide_done w Hinv) as (w' & E & _). by exists w'.
  - intros w i Hinv Hi Hj.
    split; [by apply deliver_index_inv | by apply deliver_safe].
  - intros page h ins Hne Hj Hins. eexists. split; [reflexivity |].
    apply run_safe.
    + destruct page as [sl pb nb sc]. split; cbn; [done |].
      cbn in Hne. destruct sl; [done | cbn; lia].
    + exact Hins.
    + exact Hj.
Qed.

Lemma components_do_not_throw_witness :
  Uncaught ∉
    journal (host (run [ClickNext; Tick; CallShowSlide (Num 2); MouseLeave;
                        CallPrevSlide]
                     (world_of 3))).
Proof.
  destruct components_do_not_throw as (_ & _ & _ & Hrun).
  destruct (Hrun (page_of 3) fresh_host
              [ClickNext; Tick; CallShowSlide (Num 2); MouseLeave;
               CallPrevSlide]) as (w & Hw & H).
  - discriminate.
  - apply not_elem_of_nil.
  - repeat (apply Forall_cons; split; [cbn; try done; lia |]).
    constructor.
  - injection Hw as <-. exact H.
Defined.

(** C10: [showSlide] with the current index on an idle slider is a
    transition like any other: the call completes in a different world,
    with the lock taken, the index unchanged and the current slide shown
    again; the lock stays held at every instant before the settle delay
    has passed and is free once it has; meanwhile every navigation call is
    dropped.  With a single slide, [nextSlide] and [prevSlide] are this
    call with index 0. *)
Theorem showing_current_slide_is_a_transition :
  (∀ w : world,
      index_inv w → isTransitioning (self w) = false → idle_queue w →
      0 < clickDelay (self w) →
      ∃ cl w',
        slides (dom w) !! Z.to_nat (currentSlide (self w)) = Some cl ∧
        showSlide (Num (currentSlide (self w))) w = Done w' ∧
        w' ≠ w ∧
        isTransitioning (self w') = true ∧
        currentSlide (self w') = currentSlide (self w) ∧
        slides (dom w') !! Z.to_nat (currentSlide (self w))
          = Some (reveal (hide cl)) ∧
        "opacity-100" ∈ reveal (hide cl) ∧
        ("opacity-0" ∉ reveal (hide cl)) ∧
        (∀ d, d < clickDelay (self w) →
              isTransitioning (self (advance d w')) = true) ∧
        isTransitioning (self (advance (clickDelay (self w)) w')) = false ∧
        (∀ index, showSlide index w' = Done w') ∧
        nextSlide w' = Done w' ∧ prevSlide w' = Done w') ∧
  (∀ w : world,
      index_inv w → totalSlides (self w) = 1 →
      currentSlide (self w) = 0 ∧
      nextSlide w = showSlide (Num 0) w ∧
      prevSlide w = showSlide (Num 0) w).
Proof.
  split.
  - intros w Hinv Hidle Hq Hd. pose proof Hinv as [Hn Hc].
    destruct (showSlide_idle (currentSlide (self w)) w)
      as (cl & Hcl & E); [done | lia |].
    exists cl, (started (currentSlide (self w)) cl w).
    split; [done |]. split; [done |]. split_and!.
    + intros Heq. apply (f_equal (λ x, isTransitioning (self x))) in Heq.
      cbn in Heq. congruence.
    + done.
    + done.
    + cbn. apply list_lookup_insert_eq. rewrite length_fmap. lia.
    + apply reveal_hide_classes.
    + apply reveal_hide_classes.
    + intros d Hlt. by apply started_holds.
    + destruct (started_settled (currentSlide (self w)) cl w Hq Hd)
        as (L' & -> & _). done.
    + intros index. by apply showSlide_locked.
    + unfold nextSlide. by apply showSlide_locked.
    + unfold prevSlide. by apply showSlide_locked.
  - intros w [Hn Hc] HN. rewrite HN in Hc.
    assert (currentSlide (self w) = 0) as Hz by lia.
    split; [done |]. unfold nextSlide, prevSlide. rewrite Hz, HN. done.
Qed.

Lemma showing_current_slide_is_a_transition_witness :
  currentSlide (self (world_of 1)) = 0 ∧
  nextSlide (world_of 1) = showSlide (Num 0) (world_of 1) ∧
  ∃ w', showSlide (Num (currentSlide (self (world_of 1)))) (world_of 1) = Done w' ∧
        w' ≠ world_of 1 ∧
        isTransitioning (self (advance 799 w')) = true ∧
        isTransitioning (self (advance 800 w')) = false ∧
        nextSlide w' = Done w'.
Proof.
  destruct showing_current_slide_is_a_transition as [Hre Hone].
  destruct (Hone (world_of 1)) as (H0 & Hnext & _).
  { apply world_of_index_inv. lia. }
  { reflexivity. }
  destruct (Hre (world_of 1))
    as (cl & w' & _ & E & Hne & _ & _ & _ & _ & _ & Hheld & Hfree & _ & Hn & _).
  { apply world_of_index_inv. lia. }
  { reflexivity. }
  { apply world_of_idle_queue. }
  { cbn. lia. }
  split; [exact H0 |]. split; [exact Hnext |].
  exists w'. split; [exact E |]. split; [exact Hne |].
  split; [apply Hheld; cbn; lia |]. split; [exact Hfree | exact Hn].
Defined.

End SliderTheorems.

(** ** The href rewriter: further properties *)

Section HrefMore.
Import JsString.

Lemma split_parts (s : string) :
  HrefRules.split_hash s = (HrefPage.beforeHash s, HrefPage.afterHash s).
Proof.
  rewrite code_split. unfold HrefPage.beforeHash, HrefPage.afterHash.
  cbv zeta. by destruct (negb (indexOf "#" s =? -1)).
Qed.

(** The part before the split holds no ['#']. *)
Lemma split_hash_fst_clean (s : string) :
  HrefRules.split_hash (HrefRules.split_hash s).1
    = ((HrefRules.split_hash s).1, EmptyString).
Proof.
  induction s as [|c s IH]; [done |]. cbn [HrefRules.split_hash].
  destruct (Ascii.eqb c "#") eqn:Ec; [done |].
  destruct (HrefRules.split_hash s) as [b r]. cbn [fst] in *.
  cbn [HrefRules.split_hash]. by rewrite Ec, IH.
Qed.

(** The part from the split on is empty or starts with the ['#']. *)
Lemma split_hash_snd_shape (s : string) :
  (HrefRules.split_hash s).2 = EmptyString ∨
  ∃ r, (HrefRules.split_hash s).2 = String "#" r.
Proof.
  induction s as [|c s IH]; [by left |]. cbn [HrefRules.split_hash].
  destruct (Ascii.eqb_spec c "#") as [->|Hc]; [right; by eexists |].
  by destruct (HrefRules.split_hash s) as [b r].
Qed.

Lemma split_hash_clean_app (a b : string) :
  HrefRules.split_hash a = (a, EmptyString) →
  HrefRules.split_hash b = (b, EmptyString) →
  HrefRules.split_hash (a +:+ b) = (a +:+ b, EmptyString).
Proof.
  intros Ha Hb. induction a as [|c a IH]; [exact Hb |].
  rewrite append_cons. cbn [HrefRules.split_hash] in *.
  destruct (Ascii.eqb c "#"); [done |].
  destruct (HrefRules.split_hash a) as [x y]. injection Ha as -> ->.
  by rewrite IH.
Qed.

Lemma split_hash_app (a r : string) :
  HrefRules.split_hash a = (a, EmptyString) →
  (r = EmptyString ∨ ∃ r', r = String "#" r') →
  HrefRules.split_hash (a +:+ r) = (a, r).
Proof.
  intros Ha Hr. induction a as [|c a IH].
  - change (EmptyString +:+ r) with r. by destruct Hr as [->|[r' ->]].
  - rewrite append_cons. cbn [HrefRules.split_hash] in *.
    destruct (Ascii.eqb c "#"); [done |].
    destruct (HrefRules.split_hash a) as [x y]. injection Ha as -> ->.
    by rewrite IH.
Qed.

Lemma prefix_app_l (p s t : string) :
  String.prefix p s = true → String.prefix p (s +:+ t) = true.
Proof.
  revert s. induction p as [|c p IH]; intros s H.
  - by destruct (s +:+ t).
  - destruct s as [|d s]; [done |]. rewrite append_cons.
    cbn [String.prefix] in *. destruct (ascii_dec c d); [by apply IH | done].
Qed.

(** A prefix without ['#'] is a prefix of the part before the ['#']. *)
Lemma prefix_before_hash (p s : string) :
  HrefRules.split_hash p = (p, EmptyString) →
  String.prefix p s = true →
  String.prefix p (HrefRules.split_hash s).1 = true.
Proof.
  revert s. induction p as [|c p IH]; intros s Hp H.
  - by destruct (HrefRules.split_hash s).1.
  - destruct s as [|d s]; [done |]. cbn [String.prefix] in H.
    destruct (ascii_dec c d) as [<-|]; [| done].
    cbn [HrefRules.split_hash] in *.
    destruct (Ascii.eqb c "#"); [done |].
    destruct (HrefRules.split_hash p) as [x y]. injection Hp as -> ->.
    specialize (IH s eq_refl H).
    destruct (HrefRules.split_hash s) as [b r]. cbn [fst String.prefix] in *.
    by destruct (ascii_dec c c).
Qed.

(** With any base path, the configurable body follows the rules. *)
Lemma with_follows_rules (base href : string) :
  FixHrefBase.transformHref_with base href = HrefRules.transform href base.
Proof.
  unfold FixHrefBase.transformHref_with, HrefRules.transform.
  destruct (includes ".html" href); [reflexivity |].
  rewrite code_split.
  destruct (negb (indexOf "#" href =? -1)); cbv zeta beta iota.
  - by destruct (String.eqb _ base).
  - destruct (String.eqb href base); by rewrite append_nil_r.
Qed.

Lemma fixhref_is_with (href : string) :
  FixHref.transformHref href
    = FixHrefBase.transformHref_with "/src/pages" href.
Proof.
  unfold FixHrefBase.transformHref_with, FixHref.transformHref.
  destruct (includes ".html" href); [reflexivity |].
  destruct (negb (indexOf "#" href =? -1)); cbv zeta.
  - destruct (String.eqb _ "/src/pages"); reflexivity.
  - destruct (String.eqb href "/src/pages"); reflexivity.
Qed.

Lemma with_has_extension (base href : string) :
  includes ".html" (FixHrefBase.transformHref_with base href) = true.
Proof.
  rewrite with_follows_rules. unfold HrefRules.transform.
  destruct (includes ".html" href) eqn:Hinc; [exact Hinc |].
  destruct (HrefRules.split_hash href) as [b r].
  destruct (String.eqb b base).
  - rewrite append_assoc.
    change ("/index.html" +:+ r) with ("/index" +:+ (".html" +:+ r)).
    rewrite <- append_assoc. apply includes_middle.
  - rewrite append_assoc. apply includes_middle.
Qed.

(** X1: the hrefs [transformHref] leaves as they are are exactly those
    that contain [".html"]; every other href is changed.  This holds for
    the hard-coded function and for the configurable one at any base
    path. *)
Theorem transformHref_fixed_points :
  (∀ href : string,
      FixHref.transformHref href = href ↔ includes ".html" href = true) ∧
  (∀ base href : string,
      FixHrefBase.transformHref_with base href = href
      ↔ includes ".html" href = true).
Proof.
  assert (∀ base href : string,
             FixHrefBase.transformHref_with base href = href
             ↔ includes ".html" href = true) as Hwith.
  { intros base href. split.
    - intros E. rewrite <- E. apply with_has_extension.
    - intros H. unfold FixHrefBase.transformHref_with. by rewrite H. }
  split; [| exact Hwith].
  intros href. rewrite fixhref_is_with. apply Hwith.
Qed.

Lemma transformHref_fixed_points_witness :
  FixHref.transformHref "/src/pages/x.html#y" = "/src/pages/x.html#y" ∧
  FixHrefBase.transformHref_with "/aktiv/src/pages" "/aktiv/src/pages/a.html"
    = "/aktiv/src/pages/a.html".
Proof.
  destruct transformHref_fixed_points as [Hfix Hwith]. split.
  - apply Hfix. reflexivity.
  - apply Hwith. reflexivity.
Defined.

Lemma with_split (base href : string) :
  includes ".html" href = false →
  HrefRules.split_hash (FixHrefBase.transformHref_with base href) =
    ((if String.eqb (HrefPage.beforeHash href) base
      then base +:+ "/index.html"
      else HrefPage.beforeHash href +:+ ".html"),
     HrefPage.afterHash href).
Proof.
  intros Hinc. rewrite with_follows_rules. unfold HrefRules.transform.
  rewrite Hinc.
  pose proof (split_hash_fst_clean href) as Hclean.
  pose proof (split_hash_snd_shape href) as Hshape.
  pose proof (split_parts href) as Hparts.
  destruct (HrefRules.split_hash href) as [b r].
  injection Hparts as <- <-. cbn [fst snd] in *.
  apply split_hash_app; [| exact Hshape].
  destruct (String.eqb_spec b base) as [<-|_];
    by apply split_hash_clean_app.
Qed.

(** X2: the rewriting keeps the fragment.  The part of the result from
    its first ['#'] on is the part of the input from its first ['#'] on,
    and for an input without [".html"] the part before it is the input's
    part with [".html"] appended, or the base path with ["/index.html"]
    when that part is the base path. *)
Theorem transformHref_keeps_fragment :
  (∀ base href : string,
      HrefPage.afterHash (FixHrefBase.transformHref_with base href)
        = HrefPage.afterHash href ∧
      (includes ".html" href = false →
       HrefPage.beforeHash (FixHrefBase.transformHref_with base href)
         = if String.eqb (HrefPage.beforeHash href) base
           then base +:+ "/index.html"
           else HrefPage.beforeHash href +:+ ".html")) ∧
  (∀ href : string,
      HrefPage.afterHash (FixHref.transformHref href)
        = HrefPage.afterHash href).
Proof.
  assert (∀ base href : string,
      HrefPage.afterHash (FixHrefBase.transformHref_with base href)
        = HrefPage.afterHash href ∧
      (includes ".html" href = false →
       HrefPage.beforeHash (FixHrefBase.transformHref_with base href)
         = if String.eqb (HrefPage.beforeHash href) base
           then base +:+ "/index.html"
           else HrefPage.beforeHash href +:+ ".html")) as Hwith.
  { intros base href. destruct (includes ".html" href) eqn:Hinc.
    - split; [| done]. unfold FixHrefBase.transformHref_with. by rewrite Hinc.
    - pose proof (with_split base href Hinc) as E.
      rewrite split_parts in E. injection E as E1 E2. by split. }
  split; [exact Hwith |].
  intros href. rewrite fixhref_is_with. apply Hwith.
Qed.

Lemma transformHref_keeps_fragment_witness :
  HrefPage.beforeHash
    (FixHrefBase.transformHref_with "/src/pages" "/src/pages#team")
    = "/src/pages/index.html" ∧
  HrefPage.afterHash (FixHref.transformHref "/src/pages/a#b#c") = "#b#c".
Proof.
  destruct transformHref_keeps_fragment as [Hwith Hfix]. split.
  - destruct (Hwith "/src/pages" "/src/pages#team") as [_ H].
    apply H. reflexivity.
  - rewrite Hfix. reflexivity.
Defined.

Lemma with_keeps_prefix (base href : string) :
  indexOf "#" base = -1 →
  String.prefix base href = true →
  String.prefix base (FixHrefBase.transformHref_with base href) = true.
Proof.
  intros Hbase Hpre.
  rewrite with_follows_rules. unfold HrefRules.transform.
  destruct (includes ".html" href); [exact Hpre |].
  pose proof (prefix_before_hash base href
                (split_hash_absent base 0 ltac:(lia) Hbase) Hpre) as Hb.
  destruct (HrefRules.split_hash href) as [b r]. cbn [fst] in Hb.
  destruct (String.eqb b base).
  - rewrite append_assoc. apply prefix_append.
  - by do 2 apply prefix_app_l.
Qed.

(** X3: an href under a base path that holds no ['#'] is still under it
    after the rewriting, so a rewritten link stays within the selector of
    the scan; in particular for ["/src/pages"] and the hard-coded
    function. *)
Theorem transformHref_keeps_prefix :
  (∀ base href : string,
      indexOf "#" base = -1 →
      String.prefix base href = true →
      String.prefix base (FixHrefBase.transformHref_with base href) = true) ∧
  (∀ href : string,
      String.prefix "/src/pages" href = true →
      String.prefix "/src/pages" (FixHref.transformHref href) = true).
Proof.
  split; [exact with_keeps_prefix |].
  intros href H. rewrite fixhref_is_with. by apply with_keeps_prefix.
Qed.

Lemma transformHref_keeps_prefix_witness :
  String.prefix "/aktiv/src/pages"
    (FixHrefBase.transformHref_with "/aktiv/src/pages"
       "/aktiv/src/pages/team#lead") = true ∧
  String.prefix "/src/pages" (FixHref.transformHref "/src/pages/team#lead")
    = true.
Proof.
  destruct transformHref_keeps_prefix as [Hwith Hfix]. split.
  - apply Hwith; reflexivity.
  - apply Hfix. reflexivity.
Defined.

End HrefMore.

(** ** The page scan *)

Section ScanFacts.
Import JsString HrefPage.

(** The scan with any base path and any rewriting function that leaves
    exactly the hrefs with [".html"] alone and keeps the prefix. *)
Variable base : string.
Variable transformHref : string → string.
Hypothesis has_extension : ∀ h, includes ".html" (transformHref h) = true.
Hypothesis unchanged_qualified :
  ∀ h, includes ".html" h = true → transformHref h = h.
Hypothesis keeps_prefix :
  ∀ h, String.prefix base h = true →
       String.prefix base (transformHref h) = true.

Lemma changes_unqualified (h : string) :
  includes ".html" h = false → transformHref h ≠ h.
Proof.
  intros Hinc E. pose proof (has_extension h) as H. rewrite E in H. congruence.
Qed.

(** What [visit] does, by cases on the href. *)
Lemma visit_cases (e : element) :
  visit base transformHref e =
    if selected base e then
      match href e with
      | Some h =>
          if includes ".html" h then (e, [])
          else ({| localName := localName e; href := Some (transformHref h) |},
                [transformHref h])
      | None => (e, [])
      end
    else (e, []).
Proof.
  unfold visit. destruct (selected base e); [| done].
  destruct (href e) as [h|]; [| done]. cbv zeta.
  destruct (includes ".html" h) eqn:Hinc.
  - rewrite unchanged_qualified by done. by rewrite String.eqb_refl.
  - destruct (String.eqb_spec h (transformHref h)) as [E|_]; [| done].
    by destruct (changes_unqualified h Hinc).
Qed.

Lemma visit_selected (e : element) :
  selected base (visit base transformHref e).1 = selected base e.
Proof.
  rewrite visit_cases. destruct (selected base e) eqn:Hsel; [| done].
  destruct (href e) as [h|] eqn:Hh; [| done].
  destruct (includes ".html" h); [done |]. cbn [fst].
  unfold selected, attr_starts_with in *. cbn [localName href].
  rewrite Hh in Hsel.
  destruct (String.eqb (localName e) "a"); [| done].
  destruct (negb (String.eqb base EmptyString)); [| done]. cbn in *.
  by apply keeps_prefix.
Qed.

Lemma visit_qualified (e : element) :
  selected base e = true →
  ∃ h, href (visit base transformHref e).1 = Some h ∧
       includes ".html" h = true.
Proof.
  intros Hsel. rewrite visit_cases, Hsel.
  destruct (href e) as [h|] eqn:Hh.
  - destruct (includes ".html" h) eqn:Hinc; cbn [fst href].
    + exists h. by rewrite Hh.
    + eexists. split; [done |]. apply has_extension.
  - unfold selected, attr_starts_with in Hsel. rewrite Hh in Hsel.
    by rewrite andb_false_r in Hsel.
Qed.

Lemma visit_again (e : element) :
  visit base transformHref (visit base transformHref e).1
    = ((visit base transformHref e).1, []).
Proof.
  rewrite (visit_cases (visit base transformHref e).1), visit_selected.
  destruct (selected base e) eqn:Hsel; [| done].
  destruct (visit_qualified e Hsel) as (h & -> & ->). done.
Qed.

Lemma scan_nil : scan base transformHref [] = ([], []).
Proof. reflexivity. Qed.

Lemma scan_cons (e : element) (doc : list element) :
  scan base transformHref (e :: doc) =
    ((visit base transformHref e).1 :: (scan base transformHref doc).1,
     (visit base transformHref e).2 ++ (scan base transformHref doc).2).
Proof. reflexivity. Qed.

Lemma scan_again (doc : list element) :
  scan base transformHref (scan base transformHref doc).1
    = ((scan base transformHref doc).1, []).
Proof.
  induction doc as [|e doc IH]; [done |].
  rewrite scan_cons. cbn [fst]. rewrite scan_cons, visit_again, IH. done.
Qed.

Lemma scan_length (doc : list element) :
  length (scan base transformHref doc).1 = length doc.
Proof. unfold scan. cbn [fst]. by rewrite !length_fmap. Qed.

Lemma scan_lookup (doc : list element) (i : nat) :
  (scan base transformHref doc).1 !! i
    = (λ e, (visit base transformHref e).1) <$> doc !! i.
Proof.
  unfold scan. cbn [fst]. rewrite !list_lookup_fmap.
  by destruct (doc !! i).
Qed.

(** The values written, read off the document before the scan. *)
Lemma scan_writes (doc : list element) :
  (scan base transformHref doc).2 =
    omap (λ e, if selected base e then
                 match href e with
                 | Some h => if includes ".html" h then None
                             else Some (transformHref h)
                 | None => None
                 end
               else None) doc.
Proof.
  induction doc as [|e doc IH]; [done |].
  rewrite scan_cons. cbn [snd omap list_omap]. rewrite IH, visit_cases.
  destruct (selected base e); [| done].
  destruct (href e) as [h|]; [| done].
  by destruct (includes ".html" h).
Qed.

End ScanFacts.

Section ScanTheorems.
Import JsString HrefPage.

Lemma fixhref_unchanged_qualified (h : string) :
  includes ".html" h = true → FixHref.transformHref h = h.
Proof. intros H. unfold FixHref.transformHref. by rewrite H. Qed.

Lemma with_unchanged_qualified (base h : string) :
  includes ".html" h = true → FixHrefBase.transformHref_with base h = h.
Proof. intros H. unfold FixHrefBase.transformHref_with. by rewrite H. Qed.

Lemma fixhref_keeps_prefix (h : string) :
  String.prefix "/src/pages" h = true →
  String.prefix "/src/pages" (FixHref.transformHref h) = true.
Proof. intros H. rewrite fixhref_is_with. by apply with_keeps_prefix. Qed.

Lemma configured_keeps_prefix (h : string) :
  String.prefix FixHrefBase.BASE_PATH h = true →
  String.prefix FixHrefBase.BASE_PATH (FixHrefBase.transformHref h) = true.
Proof. intros H. by apply with_keeps_prefix. Qed.

(** X4: running the scan a second time changes nothing and writes
    nothing: the document after [fixAllHrefs] is a fixed point of
    [fixAllHrefs], for the hard-coded script and for the configurable
    one. *)
Theorem fixAllHrefs_second_pass_is_silent (doc : list element) :
  fixAllHrefs (fixAllHrefs doc).1 = ((fixAllHrefs doc).1, []) ∧
  fixAllHrefs_configured (fixAllHrefs_configured doc).1
    = ((fixAllHrefs_configured doc).1, []).
Proof.
  split.
  - apply scan_again.
    + apply transformHref_has_extension.
    + apply fixhref_unchanged_qualified.
    + apply fixhref_keeps_prefix.
  - apply scan_again.
    + apply with_has_extension.
    + apply with_unchanged_qualified.
    + apply configured_keeps_prefix.
Qed.

(** X5: after [fixAllHrefs] every element the selector matches has an
    href that contains [".html"]; the document keeps its length; an
    element is matched afterwards exactly when it was matched before, and
    an element that was not matched is the same element afterwards. *)
Theorem fixAllHrefs_qualifies_every_match (doc : list element) (i : nat)
    (e : element) :
  doc !! i = Some e →
  ∃ e', (fixAllHrefs doc).1 !! i = Some e' ∧
        length (fixAllHrefs doc).1 = length doc ∧
        localName e' = localName e ∧
        selected "/src/pages" e' = selected "/src/pages" e ∧
        (selected "/src/pages" e = false → e' = e) ∧
        (selected "/src/pages" e = true →
         ∃ h, href e' = Some h ∧ includes ".html" h = true).
Proof.
  intros Hi. unfold fixAllHrefs.
  exists (visit "/src/pages" FixHref.transformHref e).1.
  split; [by rewrite scan_lookup, Hi |].
  split; [apply scan_length |].
  split.
  { unfold visit. destruct (selected _ e); [| done].
    destruct (href e); [| done]. cbv zeta. by destruct (negb _). }
  split.
  { apply visit_selected.
    - apply transformHref_has_extension.
    - apply fixhref_unchanged_qualified.
    - apply fixhref_keeps_prefix. }
  split.
  { intros Hsel. unfold visit. by rewrite Hsel. }
  apply visit_qualified.
  - apply transformHref_has_extension.
  - apply fixhref_unchanged_qualified.
Qed.

Lemma fixAllHrefs_qualifies_every_match_witness :
  ∃ e', (fixAllHrefs sample_doc).1 !! 1%nat = Some e' ∧
        length (fixAllHrefs sample_doc).1 = length sample_doc ∧
        localName e' = "a" ∧
        selected "/src/pages" e' = true ∧
        (true = false →
         e' = {| localName := "a"; href := Some "/src/pages#workshop" |}) ∧
        (true = true → ∃ h, href e' = Some h ∧ includes ".html" h = true).
Proof.
  exact (fixAllHrefs_qualifies_every_match sample_doc 1
           {| localName := "a"; href := Some "/src/pages#workshop" |} eq_refl).
Defined.

(** X6: [fixAllHrefs] calls [setAttribute] exactly for the matched
    elements whose href holds no [".html"], in document order, with the
    rewritten href; for the others the write is skipped. *)
Theorem fixAllHrefs_writes (doc : list element) :
  (fixAllHrefs doc).2 =
    omap (λ e, if selected "/src/pages" e then
                 match href e with
                 | Some h => if includes ".html" h then None
                             else Some (FixHref.transformHref h)
                 | None => None
                 end
               else None) doc ∧
  (fixAllHrefs_configured doc).2 =
    omap (λ e, if selected FixHrefBase.BASE_PATH e then
                 match href e with
                 | Some h => if includes ".html" h then None
                             else Some (FixHrefBase.transformHref h)
                 | None => None
                 end
               else None) doc.
Proof.
  split.
  - apply scan_writes.
    + apply transformHref_has_extension.
    + apply fixhref_unchanged_qualified.
  - apply scan_writes.
    + apply with_has_extension.
    + apply with_unchanged_qualified.
Qed.

Example fixAllHrefs_sample :
  fixAllHrefs sample_doc =
    ([ {| localName := "a"; href := Some "/src/pages/view-booking.html" |};
       {| localName := "a"; href := Some "/src/pages/index.html#workshop" |};
       {| localName := "a"; href := Some "/src/pages/x.html#y" |};
       {| localName := "a"; href := Some "/about" |};
       {| localName := "link"; href := Some "/src/pages/site" |};
       {| localName := "a"; href := None |} ],
     ["/src/pages/view-booking.html"; "/src/pages/index.html#workshop"]).
Proof. reflexivity. Qed.

End ScanTheorems.

(** ** The slider: invariants of every run *)

Section SliderRuns.
Import Slider SliderState.

Lemma run_preserves (P : world → Prop) :
  (∀ i w, P w → P (deliver i w)) →
  ∀ ins w, P w → P (run ins w).
Proof.
  intros Hd ins. induction ins as [|i ins IH]; intros w H; [done |].
  apply IH, Hd, H.
Qed.

Lemma tick_preserves (P : world → Prop) :
  (∀ w t, P w → P (set_now t w)) →
  (∀ w t, P w → P (run_timer w t)) →
  ∀ w, P w → P (tick w).
Proof.
  intros Hnow Hrun w H. unfold tick.
  generalize (filter (λ t, due t ≤ now (host (set_now (now (host w) + 1) w)))
                (timers (host (set_now (now (host w) + 1) w)))).
  intros l. specialize (Hnow w (now (host w) + 1) H). revert Hnow.
  generalize (set_now (now (host w) + 1) w). clear w H.
  induction l as [|t l IH]; intros w H; [done |].
  cbn [foldl]. apply IH, Hrun, H.
Qed.

Lemma deliver_preserves (P : world → Prop) :
  (∀ index w, P w → P (settle (showSlide index w))) →
  (∀ w, P w → P (pauseAutoplay w)) →
  (∀ w, P w → P (startAutoplay w)) →
  (∀ w, P w → P (tick w)) →
  ∀ i w, P w → P (deliver i w).
Proof.
  intros Hshow Hpause Hstart Htick i w H. destruct i; cbn [deliver].
  - destruct (prevBtn (dom w)); [| done]. by apply Hshow.
  - destruct (nextBtn (dom w)); [| done]. by apply Hshow.
  - destruct (sliderContainer (dom w)); [| done]. by apply Hpause.
  - destruct (sliderContainer (dom w)); [| done]. by apply Hstart.
  - by apply Hshow.
  - by apply Hshow.
  - by apply Hshow.
  - by apply Hpause.
  - by apply Hstart.
  - by apply Hstart.
  - by apply Htick.
Qed.

(** [pauseAutoplay] either does nothing or clears one handle. *)
Lemma pauseAutoplay_cases (w : world) :
  pauseAutoplay w = w ∨
  ∃ id, autoplayInterval (self w) = Some id ∧ id ≠ 0 ∧
        pauseAutoplay w = set_autoplayInterval None (clearInterval id w).
Proof.
  unfold pauseAutoplay. destruct (autoplayInterval (self w)) as [id|]; [| by left].
  cbn [truthy]. destruct (Z.eqb_spec id 0); [by left |].
  right. by exists id.
Qed.

Lemma startAutoplay_unfold (w : world) :
  startAutoplay w =
    set_autoplayInterval (Some (nextTimerId (host (pauseAutoplay w))))
      (setInterval AutoplayTick (autoplayDelay (self (pauseAutoplay w)))
         (pauseAutoplay w)).2.
Proof. reflexivity. Qed.

(** *** The buttons follow the lock *)

Lemma buttons_inv_frame (w w' : world) :
  prevBtn (dom w') = prevBtn (dom w) →
  nextBtn (dom w') = nextBtn (dom w) →
  isTransitioning (self w') = isTransitioning (self w) →
  buttons_inv w → buttons_inv w'.
Proof. unfold buttons_inv. intros -> -> ->. done. Qed.

Lemma disabled_fits (cl : gset string) :
  button_fits true (classList_add disabled_classes cl).
Proof. unfold button_fits, classList_add. apply union_subseteq_r. Qed.

Lemma enabled_fits (cl : gset string) :
  button_fits false (classList_remove disabled_classes cl).
Proof.
  unfold button_fits, classList_remove. apply disjoint_difference_l1.
  done.
Qed.

Lemma showSlide_buttons_inv (index : jsnum) (w : world) :
  buttons_inv w → buttons_inv (state_of (showSlide index w)).
Proof.
  intros H. unfold showSlide.
  destruct (isTransitioning (self w)) eqn:Hb; [done |].
  assert (buttons_inv (disableButtons (set_isTransitioning true w))) as H'.
  { intros cl. cbn. intros [Hc|Hc].
    - destruct (prevBtn (dom w)); [| done]. injection Hc as <-.
      apply disabled_fits.
    - destruct (nextBtn (dom w)); [| done]. injection Hc as <-.
      apply disabled_fits. }
  destruct (slide_at index _) as [[i cl]|];
    by apply (buttons_inv_frame (disableButtons (set_isTransitioning true w))).
Qed.

Lemma settle_buttons_inv (o : outcome) :
  buttons_inv (state_of o) → buttons_inv (settle o).
Proof. by destruct o. Qed.

Lemma pauseAutoplay_buttons_inv (w : world) :
  buttons_inv w → buttons_inv (pauseAutoplay w).
Proof.
  intros H. destruct (pauseAutoplay_cases w) as [->|(id & _ & _ & ->)];
    [done |]. by apply (buttons_inv_frame w).
Qed.

Lemma startAutoplay_buttons_inv (w : world) :
  buttons_inv w → buttons_inv (startAutoplay w).
Proof.
  intros H. apply pauseAutoplay_buttons_inv in H.
  rewrite startAutoplay_unfold. by apply (buttons_inv_frame (pauseAutoplay w)).
Qed.

Lemma run_callback_buttons_inv (cb : callback) (w : world) :
  buttons_inv w → buttons_inv (state_of (run_callback cb w)).
Proof.
  intros H. destruct cb; cbn [run_callback state_of].
  - intros cl. cbn. intros [Hc|Hc].
    + destruct (prevBtn (dom w)); [| done]. injection Hc as <-.
      apply enabled_fits.
    + destruct (nextBtn (dom w)); [| done]. injection Hc as <-.
      apply enabled_fits.
  - destruct (isTransitioning (self w)); cbn [negb state_of]; [done |].
    by apply (showSlide_buttons_inv _ (note CalledNext w)).
Qed.

Lemma run_timer_buttons_inv (w : world) (t : timer) :
  buttons_inv w → buttons_inv (run_timer w t).
Proof.
  intros H. unfold run_timer.
  destruct (list_find _ _) as [[i x]|]; [| done].
  apply settle_buttons_inv, run_callback_buttons_inv.
  destruct (period x); by apply (buttons_inv_frame w).
Qed.

Lemma deliver_buttons_inv (i : input) (w : world) :
  buttons_inv w → buttons_inv (deliver i w).
Proof.
  apply deliver_preserves.
  - intros index w0 H. by apply settle_buttons_inv, showSlide_buttons_inv.
  - apply pauseAutoplay_buttons_inv.
  - apply startAutoplay_buttons_inv.
  - apply tick_preserves; [| apply run_timer_buttons_inv].
    intros w0 t H. by apply (buttons_inv_frame w0).
Qed.

Lemma opacity_50_disabled :
  "opacity-50" ∈ (list_to_set disabled_classes : gset string).
Proof.
  unfold disabled_classes. cbn [list_to_set foldr].
  apply elem_of_union. left. by apply elem_of_singleton.
Qed.

(** Each helper forces the classes of a button, whatever the lock says. *)
Lemma disableButtons_misfit (w : world) :
  is_Some (prevBtn (dom w)) ∨ is_Some (nextBtn (dom w)) →
  isTransitioning (self w) = false → ¬ buttons_inv (disableButtons w).
Proof.
  intros Hbtn Hidle Hinv.
  assert (∃ cl, prevBtn (dom w) = Some cl ∨ nextBtn (dom w) = Some cl)
    as [cl Hcl] by (destruct Hbtn as [[cl ?]|[cl ?]]; exists cl; tauto).
  specialize (Hinv (classList_add disabled_classes cl)).
  cbn in Hinv. rewrite Hidle in Hinv. cbn in Hinv.
  assert (classList_add disabled_classes cl
            ## (list_to_set disabled_classes : gset string)) as Hd.
  { apply Hinv. destruct Hcl as [->| ->]; [by left | by right]. }
  rewrite elem_of_disjoint in Hd.
  apply (Hd "opacity-50"); [| apply opacity_50_disabled].
  unfold classList_add. apply elem_of_union. right.
  apply opacity_50_disabled.
Qed.

Lemma enableButtons_misfit (w : world) :
  is_Some (prevBtn (dom w)) ∨ is_Some (nextBtn (dom w)) →
  isTransitioning (self w) = true → ¬ buttons_inv (enableButtons w).
Proof.
  intros Hbtn Hlock Hinv.
  assert (∃ cl, prevBtn (dom w) = Some cl ∨ nextBtn (dom w) = Some cl)
    as [cl Hcl] by (destruct Hbtn as [[cl ?]|[cl ?]]; exists cl; tauto).
  specialize (Hinv (classList_remove disabled_classes cl)).
  cbn in Hinv. rewrite Hlock in Hinv. cbn in Hinv.
  assert ((list_to_set disabled_classes : gset string)
            ⊆ classList_remove disabled_classes cl) as Hd.
  { apply Hinv. destruct Hcl as [->| ->]; [by left | by right]. }
  rewrite elem_of_subseteq in Hd.
  specialize (Hd "opacity-50" opacity_50_disabled).
  unfold classList_remove in Hd.
  apply elem_of_difference in Hd as [_ Hd]. apply Hd, opacity_50_disabled.
Qed.

(** X7: the navigation buttons follow the lock.  If the buttons of the
    page carry none of the classes of [disableButtons], then in every
    state the slider reaches through its listeners, through [showSlide]
    with any argument, [nextSlide], [prevSlide], [pauseAutoplay],
    [startAutoplay], [restartAutoplay] and through clock ticks, each
    button carries all three classes while [isTransitioning] is true and
    none of them while it is false.  The two helpers are not among these
    inputs, and the agreement does not survive them: on a page with a
    button, [disableButtons] called on an idle slider, and
    [enableButtons] called during a transition, leave the buttons at
    odds with the lock. *)
Theorem buttons_follow_the_lock :
  (∀ (page : Dom) (h : Host) (ins : list input),
      (∀ cl, prevBtn page = Some cl ∨ nextBtn page = Some cl →
             cl ## (list_to_set disabled_classes : gset string)) →
      buttons_inv (run ins (state_of (construct page h)))) ∧
  (∀ w : world,
      is_Some (prevBtn (dom w)) ∨ is_Some (nextBtn (dom w)) →
      (isTransitioning (self w) = false → ¬ buttons_inv (disableButtons w)) ∧
      (isTransitioning (self w) = true → ¬ buttons_inv (enableButtons w))).
Proof.
  split.
  - intros page h ins Hpage.
    apply run_preserves; [apply deliver_buttons_inv |].
    intros cl. cbn. apply Hpage.
  - intros w Hbtn. split.
    + by apply disableButtons_misfit.
    + by apply enableButtons_misfit.
Qed.

Lemma buttons_follow_the_lock_witness :
  buttons_inv (run [ClickNext; Tick; CallShowSlide NaN; MouseLeave]
                 (state_of (construct (page_of 3) fresh_host))) ∧
  ¬ buttons_inv (disableButtons (world_of 3)).
Proof.
  destruct buttons_follow_the_lock as [Hruns Hhelpers]. split.
  - apply Hruns.
    intros cl [[= <-]|[= <-]]; apply disjoint_empty_l.
  - apply (Hhelpers (world_of 3)); [left; by eexists | reflexivity].
Defined.

(** *** A failed call wedges the slider *)

Lemma wedged_frame (w w' : world) :
  isTransitioning (self w') = isTransitioning (self w) →
  releases (timers (host w')) = releases (timers (host w)) →
  wedged w → wedged w'.
Proof. unfold wedged. intros -> ->. done. Qed.

Lemma pauseAutoplay_wedged (w : world) : wedged w → wedged (pauseAutoplay w).
Proof.
  intros [Hl Hr]. destruct (pauseAutoplay_cases w) as [->|(id & _ & _ & ->)];
    [done |].
  split; [done |]. cbn. by rewrite releases_filter, Hr.
Qed.

Lemma startAutoplay_wedged (w : world) : wedged w → wedged (startAutoplay w).
Proof.
  intros H. apply pauseAutoplay_wedged in H as [Hl Hr].
  rewrite startAutoplay_unfold. split; [done |]. cbn.
  rewrite releases_app, Hr. unfold releases.
  rewrite (list.filter_singleton _ _ []). by case_decide.
Qed.

(** In a wedged world a timer that runs is an autoplay interval, and its
    closure is skipped: only the queue is re-armed. *)
Lemma run_timer_wedged (w : world) (t : timer) :
  wedged w →
  ∃ l, run_timer w t = set_timers l w ∧ releases l = [].
Proof.
  intros [Hl Hr]. unfold run_timer.
  destruct (list_find _ _) as [[i x]|] eqn:E.
  - apply list_find_Some in E as (Hx & _ & _).
    apply list_elem_of_lookup_2 in Hx.
    destruct (action x) eqn:Hact.
    { assert (x ∈ releases (timers (host w))) as Hin
        by by apply list_elem_of_filter.
      rewrite Hr in Hin. by apply elem_of_nil in Hin. }
    cbn [run_callback].
    destruct (period x) as [p|]; cbn [set_timers clearInterval self];
      rewrite Hl; cbn [negb settle].
    + eexists. split; [reflexivity |]. by rewrite releases_retime, Hr.
    + eexists. split; [reflexivity |]. by rewrite releases_filter, Hr.
  - exists (timers (host w)). by rewrite set_timers_same.
Qed.

Lemma foldl_run_timer_wedged (ready : list timer) (w : world) :
  wedged w →
  ∃ l, foldl run_timer w ready = set_timers l w ∧ releases l = [].
Proof.
  revert w. induction ready as [|t ready IH]; intros w Hw.
  - exists (timers (host w)). rewrite set_timers_same. by destruct Hw.
  - cbn [foldl]. destruct (run_timer_wedged w t Hw) as (l1 & -> & Hl1).
    destruct (IH (set_timers l1 w)) as (l2 & -> & Hl2).
    { destruct Hw. by split. }
    by exists l2.
Qed.

Lemma tick_wedged (w : world) :
  wedged w →
  ∃ l, tick w = set_now (now (host w) + 1) (set_timers l w) ∧ releases l = [].
Proof.
  intros Hw. unfold tick.
  destruct (foldl_run_timer_wedged
              (filter (λ t, due t ≤ now (host (set_now (now (host w) + 1) w)))
                 (timers (host (set_now (now (host w) + 1) w))))
              (set_now (now (host w) + 1) w)) as (l & -> & Hl).
  { destruct Hw. by split. }
  by exists l.
Qed.

(** Every input leaves a wedged world wedged, on the same slide, with
    the same class lists and the same journal of autoplay calls. *)
Lemma deliver_wedged (i : input) (w : world) :
  wedged w →
  wedged (deliver i w) ∧ self (deliver i w) = self w ∨
  wedged (deliver i w) ∧
  currentSlide (self (deliver i w)) = currentSlide (self w) ∧
  isTransitioning (self (deliver i w)) = true.
Proof.
  intros Hw. pose proof Hw as [Hl Hr].
  assert (∀ index, settle (showSlide index w) = w) as Hdrop.
  { intros index. by rewrite showSlide_locked. }
  assert (wedged (pauseAutoplay w) ∧
          currentSlide (self (pauseAutoplay w)) = currentSlide (self w) ∧
          isTransitioning (self (pauseAutoplay w)) = true) as Hp.
  { split; [by apply pauseAutoplay_wedged |].
    by destruct (pauseAutoplay_cases w) as [->|(id & _ & _ & ->)]. }
  assert (wedged (startAutoplay w) ∧
          currentSlide (self (startAutoplay w)) = currentSlide (self w) ∧
          isTransitioning (self (startAutoplay w)) = true) as Hs.
  { split; [by apply startAutoplay_wedged |].
    rewrite startAutoplay_unfold. cbn. by destruct Hp as (_ & -> & ->). }
  destruct i; cbn [deliver]; unfold nextSlide, prevSlide, restartAutoplay;
    rewrite ?Hdrop.
  - left. by destruct (prevBtn (dom w)).
  - left. by destruct (nextBtn (dom w)).
  - destruct (sliderContainer (dom w)); [by right | by left].
  - destruct (sliderContainer (dom w)); [by right | by left].
  - by left.
  - by left.
  - by left.
  - by right.
  - by right.
  - by right.
  - left. destruct (tick_wedged w Hw) as (l & -> & Hrel). by split.
Qed.

Lemma run_wedged (ins : list input) (w : world) :
  wedged w →
  wedged (run ins w) ∧
  currentSlide (self (run ins w)) = currentSlide (self w) ∧
  isTransitioning (self (run ins w)) = true.
Proof.
  revert w. induction ins as [|i ins IH]; intros w Hw.
  - split; [done |]. split; [done |]. by destruct Hw.
  - change (run (i :: ins) w) with (run ins (deliver i w)).
    destruct (deliver_wedged i w Hw) as [[Hw' E]|(Hw' & E & _)];
      destruct (IH (deliver i w) Hw') as (H1 & H2 & H3);
      split_and!; try done; rewrite H2; [by rewrite E | done].
Qed.

(** X9: a [showSlide] that throws wedges the slider.  When an idle slider
    with no release pending is asked for a slide that does not exist (an
    index out of range, or any navigation on an empty slide list), the
    call takes the lock and registers no release; after that, whatever
    clicks, hovers, calls and clock ticks follow, the lock is never freed
    and [currentSlide] never changes. *)
Theorem failed_showSlide_wedges (w : world) (index : jsnum)
    (ins : list input) :
  isTransitioning (self w) = false →
  lock_inv w →
  slide_at index w = None →
  ∃ w', showSlide index w = Thrown w' ∧
        slides (dom w') = hide <$> slides (dom w) ∧
        isTransitioning (self (run ins (settle (Thrown w')))) = true ∧
        currentSlide (self (run ins (settle (Thrown w'))))
          = currentSlide (self w).
Proof.
  intros Hidle (_ & Hnone & _) Hat.
  rewrite (showSlide_idle_undefined index w Hidle Hat).
  eexists. split; [reflexivity |]. split; [done |].
  destruct (run_wedged ins
              (settle (Thrown (set_slides (hide <$> slides (dom w))
                                 (disableButtons (set_isTransitioning true w))))))
    as (_ & Hc & Hl).
  { split; [done |]. cbn. by apply Hnone. }
  by rewrite Hc, Hl.
Qed.

Lemma failed_showSlide_wedges_witness :
  ∃ w', showSlide (Num 7) (world_of 3) = Thrown w' ∧
        slides (dom w') = hide <$> slides (dom (world_of 3)) ∧
        isTransitioning
          (self (run [Tick; ClickNext; CallStartAutoplay; CallShowSlide (Num 1)]
                   (settle (Thrown w')))) = true ∧
        currentSlide
          (self (run [Tick; ClickNext; CallStartAutoplay; CallShowSlide (Num 1)]
                   (settle (Thrown w'))))
          = currentSlide (self (world_of 3)).
Proof.
  apply (failed_showSlide_wedges (world_of 3) (Num 7)).
  - reflexivity.
  - apply construct_lock_inv.
  - reflexivity.
Defined.

(** *** One autoplay interval at most *)

Lemma autoplays_app (l1 l2 : list timer) :
  autoplays (l1 ++ l2) = autoplays l1 ++ autoplays l2.
Proof. apply filter_app. Qed.

Lemma autoplays_filter (P : timer → Prop) `{!∀ x, Decision (P x)}
    (l : list timer) :
  autoplays (filter P l) = filter P (autoplays l).
Proof.
  unfold autoplays. induction l as [|x l IH]; [done |].
  rewrite !filter_cons.
  destruct (decide (P x)), (decide (action x = AutoplayTick));
    rewrite ?filter_cons; repeat case_decide; try done; by rewrite IH.
Qed.

Lemma autoplays_retime (id t : Z) (l : list timer) :
  autoplays (retime id t <$> l) = retime id t <$> autoplays l.
Proof.
  unfold autoplays. induction l as [|x l IH]; [done |].
  cbn [fmap list_fmap]. rewrite !filter_cons, retime_action.
  case_decide; [| exact IH]. cbn [fmap list_fmap]. f_equal. exact IH.
Qed.

Lemma handle_inv_filter (P : timer → Prop) `{!∀ x, Decision (P x)}
    (w : world) :
  handle_inv w → handle_inv (set_timers (filter P (timers (host w))) w).
Proof.
  intros (Hid & Hlen & Hall). unfold handle_inv. cbn.
  rewrite autoplays_filter. split_and!; [done | |].
  - pose proof (length_filter_le P (autoplays (timers (host w)))). lia.
  - by apply Forall_filter_keep.
Qed.

Lemma handle_inv_retime (id t : Z) (w : world) :
  handle_inv w →
  handle_inv (set_timers (retime id t <$> timers (host w)) w).
Proof.
  intros (Hid & Hlen & Hall). unfold handle_inv. cbn.
  rewrite autoplays_retime. split_and!; [done | by rewrite length_fmap |].
  apply Forall_fmap. eapply Forall_impl; [exact Hall |].
  intros x Hx. cbn. by rewrite retime_tid.
Qed.

Lemma showSlide_handle_inv (index : jsnum) (w : world) :
  handle_inv w → handle_inv (state_of (showSlide index w)).
Proof.
  intros (Hid & Hlen & Hall). unfold showSlide.
  destruct (isTransitioning (self w)); [done |].
  destruct (slide_at index _) as [[i cl]|]; [| done].
  unfold handle_inv. cbn. rewrite autoplays_app.
  assert (autoplays
            [{| tid := nextTimerId (host w);
                due := now (host w) + Z.max 0 (clickDelay (self w));
                period := None; action := ReleaseLock |}] = []) as ->.
  { unfold autoplays. rewrite (list.filter_singleton _ _ []). by case_decide. }
  rewrite app_nil_r. split_and!; [lia | done | done].
Qed.

Lemma settle_handle_inv (o : outcome) :
  handle_inv (state_of o) → handle_inv (settle o).
Proof. by destruct o. Qed.

(** After [pauseAutoplay] no autoplay interval is left. *)
Lemma pauseAutoplay_handle_inv (w : world) :
  handle_inv w →
  handle_inv (pauseAutoplay w) ∧
  autoplays (timers (host (pauseAutoplay w))) = [].
Proof.
  intros (Hid & Hlen & Hall).
  assert (∀ id, autoplayInterval (self w) = Some id →
                filter (λ t, tid t ≠ id) (autoplays (timers (host w))) = [])
    as Hclear.
  { intros id Hh. apply filter_none. eapply Forall_impl; [exact Hall |].
    cbn. intros t [E _]. rewrite Hh in E. injection E as ->. tauto. }
  unfold pauseAutoplay.
  destruct (autoplayInterval (self w)) as [id|] eqn:Hh.
  - cbn [truthy]. destruct (Z.eqb_spec id 0) as [->|Hne]; cbn [negb].
    + assert (autoplays (timers (host w)) = []) as E.
      { destruct (autoplays (timers (host w))) as [|t l]; [done |].
        apply Forall_cons in Hall as [[[= E] Hne] _]. congruence. }
      split; [| done]. unfold handle_inv. rewrite E.
      split_and!; [done | cbn; lia | done].
    + unfold handle_inv. cbn. rewrite autoplays_filter, Hclear by done.
      split; [| done]. split_and!; [done | cbn; lia | done].
  - assert (autoplays (timers (host w)) = []) as E.
    { destruct (autoplays (timers (host w))) as [|t l]; [done |].
      by apply Forall_cons in Hall as [[? _] _]. }
    split; [| done]. unfold handle_inv. rewrite E.
    split_and!; [done | cbn; lia | done].
Qed.

Lemma startAutoplay_handle_inv (w : world) :
  handle_inv w → handle_inv (startAutoplay w).
Proof.
  intros H. destruct (pauseAutoplay_handle_inv w H) as [(Hid & _ & _) E].
  rewrite startAutoplay_unfold. unfold handle_inv. cbn.
  rewrite autoplays_app, E. cbn [app].
  unfold autoplays. rewrite (list.filter_singleton _ _ []).
  case_decide; [| done]. cbn [length].
  split_and!; [lia | lia |]. apply Forall_cons. split; [| done].
  cbn. split; [done | lia].
Qed.

Lemma run_timer_handle_inv (w : world) (t : timer) :
  handle_inv w → handle_inv (run_timer w t).
Proof.
  intros H. unfold run_timer.
  destruct (list_find _ _) as [[i x]|]; [| done].
  assert (handle_inv
            (match period x with
             | Some p =>
                 set_timers (retime (tid x) (now (host w) + Z.max 0 p)
                               <$> timers (host w)) w
             | None => clearInterval (tid x) w
             end)) as H'.
  { destruct (period x); [by apply handle_inv_retime |].
    by apply handle_inv_filter. }
  revert H'. generalize (match period x with
             | Some p =>
                 set_timers (retime (tid x) (now (host w) + Z.max 0 p)
                               <$> timers (host w)) w
             | None => clearInterval (tid x) w
             end). intros w' H'.
  apply settle_handle_inv. destruct (action x); cbn [run_callback state_of].
  - exact H'.
  - destruct (isTransitioning (self w')); cbn [negb state_of]; [done |].
    by apply (showSlide_handle_inv _ (note CalledNext w')).
Qed.

Lemma deliver_handle_inv (i : input) (w : world) :
  handle_inv w → handle_inv (deliver i w).
Proof.
  apply deliver_preserves.
  - intros index w0 H. by apply settle_handle_inv, showSlide_handle_inv.
  - intros w0 H. by apply pauseAutoplay_handle_inv.
  - apply startAutoplay_handle_inv.
  - apply tick_preserves; [done | apply run_timer_handle_inv].
Qed.

(** X10: the slider never has two autoplay intervals.  Constructed in a
    host that issues positive handles and holds no autoplay interval yet,
    then driven by any clicks, hovers, calls and clock ticks, its queue
    holds at most one autoplay interval, and that interval is the one
    whose handle [autoplayInterval] holds; after [pauseAutoplay] it holds
    none. *)
Theorem autoplay_interval_is_unique (page : Dom) (h : Host)
    (ins : list input) :
  0 < nextTimerId h → autoplays (timers h) = [] →
  let w := run ins (state_of (construct page h)) in
  (length (autoplays (timers (host w))) ≤ 1)%nat ∧
  (∀ t, t ∈ timers (host w) → action t = AutoplayTick →
        autoplayInterval (self w) = Some (tid t)) ∧
  autoplays (timers (host (pauseAutoplay w))) = [].
Proof.
  intros Hid Hnone w.
  assert (handle_inv w) as Hw.
  { apply run_preserves; [apply deliver_handle_inv |].
    apply startAutoplay_handle_inv. unfold handle_inv. cbn.
    rewrite Hnone. split_and!; [done | cbn; lia | done]. }
  destruct (pauseAutoplay_handle_inv w Hw) as [_ Hp].
  destruct Hw as (_ & Hlen & Hall).
  split_and!; [done | | done].
  intros t Hin Hact. rewrite Forall_forall in Hall.
  apply Hall. by apply list_elem_of_filter.
Qed.

Lemma autoplay_interval_is_unique_witness :
  let w := run [MouseLeave; ClickNext; CallStartAutoplay; Tick; MouseLeave]
               (state_of (construct (page_of 3) fresh_host)) in
  (length (autoplays (timers (host w))) ≤ 1)%nat ∧
  (∀ t, t ∈ timers (host w) → action t = AutoplayTick →
        autoplayInterval (self w) = Some (tid t)) ∧
  autoplays (timers (host (pauseAutoplay w))) = [].
Proof.
  apply (autoplay_interval_is_unique (page_of 3) fresh_host); [cbn; lia | done].
Defined.

(** *** The visible slide *)

Lemma hide_classes (cl : gset string) :
  "opacity-0" ∈ hide cl ∧ "opacity-100" ∉ hide cl.
Proof.
  unfold hide, classList_add, classList_remove.
  cbn [list_to_set foldr]. split.
  - apply elem_of_union. right. apply elem_of_union. left.
    by apply elem_of_singleton.
  - rewrite elem_of_union, elem_of_difference.
    intros [[_ Hout]|Hin].
    + apply Hout, elem_of_union. left. by apply elem_of_singleton.
    + apply elem_of_union in Hin as [Hin|Hin].
      * by apply elem_of_singleton in Hin.
      * by apply elem_of_empty in Hin.
Qed.

Lemma shown_inv_frame (w w' : world) :
  slides (dom w') = slides (dom w) →
  currentSlide (self w') = currentSlide (self w) →
  shown_inv w → shown_inv w'.
Proof. unfold shown_inv. intros -> ->. done. Qed.

(** A completed [showSlide z] leaves slide [z] visible and the others
    hidden, whatever their classes were. *)
Lemma started_shown (z : Z) (cl : gset string) (w : world) :
  0 ≤ z → shown_inv (started z cl w).
Proof.
  intros Hz i c. cbn. intros Hi.
  destruct (decide (i = Z.to_nat z)) as [->|Hne].
  - assert (Z.to_nat z < length (hide <$> slides (dom w)))%nat as Hlt.
    { apply lookup_lt_Some in Hi. by rewrite length_insert in Hi. }
    rewrite list_lookup_insert_eq in Hi by done. injection Hi as <-.
    destruct (reveal_hide_classes cl) as [H1 H0].
    split; split; try done; intros; lia.
  - rewrite list_lookup_insert_ne in Hi by done.
    rewrite list_lookup_fmap in Hi.
    destruct (slides (dom w) !! i) as [c0|]; [| done]. injection Hi as <-.
    destruct (hide_classes c0) as [H0 H1].
    split; split; try done; intros; lia.
Qed.

Lemma showSlide_shown_inv (z : Z) (w : world) :
  index_inv w → 0 ≤ z < totalSlides (self w) →
  shown_inv w → shown_inv (state_of (showSlide (Num z) w)).
Proof.
  intros [Hn Hc] Hz H. destruct (isTransitioning (self w)) eqn:Hb.
  - by rewrite showSlide_locked.
  - destruct (showSlide_idle z w) as (cl & _ & ->); [done | lia |].
    apply started_shown. lia.
Qed.

Lemma nextSlide_shown_inv (w : world) :
  index_inv w → shown_inv w → shown_inv (state_of (nextSlide w)).
Proof.
  intros Hinv H. pose proof Hinv as [Hn Hc]. unfold nextSlide, js_rem.
  destruct (Z.eqb_spec (totalSlides (self w)) 0); [lia |].
  apply showSlide_shown_inv; [done | | done]. apply rem_in_range; lia.
Qed.

Lemma prevSlide_shown_inv (w : world) :
  index_inv w → shown_inv w → shown_inv (state_of (prevSlide w)).
Proof.
  intros Hinv H. pose proof Hinv as [Hn Hc]. unfold prevSlide, js_rem.
  destruct (Z.eqb_spec (totalSlides (self w)) 0); [lia |].
  apply showSlide_shown_inv; [done | | done]. apply rem_in_range; lia.
Qed.

Lemma settle_shown_inv (o : outcome) :
  shown_inv (state_of o) → shown_inv (settle o).
Proof. by destruct o. Qed.

Lemma pauseAutoplay_shown_inv (w : world) :
  shown_inv w → shown_inv (pauseAutoplay w).
Proof.
  intros H. by destruct (pauseAutoplay_cases w) as [->|(id & _ & _ & ->)].
Qed.

Lemma startAutoplay_shown_inv (w : world) :
  shown_inv w → shown_inv (startAutoplay w).
Proof.
  intros H. apply pauseAutoplay_shown_inv in H.
  by rewrite startAutoplay_unfold.
Qed.

Lemma run_timer_shown_inv (w : world) (t : timer) :
  index_inv w ∧ shown_inv w →
  index_inv (run_timer w t) ∧ shown_inv (run_timer w t).
Proof.
  intros [Hinv H]. split; [by apply run_timer_index_inv |].
  unfold run_timer.
  destruct (list_find _ _) as [[i x]|]; [| done].
  apply settle_shown_inv.
  assert (∀ w', dom w' = dom w → self w' = self w →
                shown_inv (state_of (run_callback (action x) w'))) as Hcb.
  { intros w' Hd Hs.
    assert (index_inv w') as Hinv' by (unfold index_inv; by rewrite Hd, Hs).
    assert (shown_inv w') as H'
      by (apply (shown_inv_frame w); [by rewrite Hd | by rewrite Hs | done]).
    destruct (action x); cbn [run_callback state_of]; [done |].
    destruct (isTransitioning (self w')); cbn [negb state_of]; [done |].
    by apply (nextSlide_shown_inv (note CalledNext w')). }
  destruct (period x); by apply Hcb.
Qed.

Lemma tick_shown_inv (w : world) :
  index_inv w → shown_inv w → shown_inv (tick w).
Proof.
  intros Hinv H.
  apply (tick_preserves (λ w, index_inv w ∧ shown_inv w)); [| | done].
  - intros w0 t [? ?]. done.
  - intros w0 t. apply run_timer_shown_inv.
Qed.

Lemma deliver_shown_inv (i : input) (w : world) :
  index_inv w → in_contract (totalSlides (self w)) i →
  shown_inv w → shown_inv (deliver i w).
Proof.
  intros Hinv Hi H. destruct i; cbn [deliver].
  - destruct (prevBtn (dom w)); [| done].
    by apply settle_shown_inv, prevSlide_shown_inv.
  - destruct (nextBtn (dom w)); [| done].
    by apply settle_shown_inv, nextSlide_shown_inv.
  - destruct (sliderContainer (dom w)); [| done].
    by apply pauseAutoplay_shown_inv.
  - destruct (sliderContainer (dom w)); [| done].
    by apply startAutoplay_shown_inv.
  - destruct index as [z|]; [| done].
    by apply settle_shown_inv, showSlide_shown_inv.
  - by apply settle_shown_inv, nextSlide_shown_inv.
  - by apply settle_shown_inv, prevSlide_shown_inv.
  - by apply pauseAutoplay_shown_inv.
  - by apply startAutoplay_shown_inv.
  - by apply startAutoplay_shown_inv.
  - by apply tick_shown_inv.
Qed.

Lemma run_shown_inv (ins : list input) (w : world) :
  index_inv w → Forall (in_contract (totalSlides (self w))) ins →
  shown_inv w → shown_inv (run ins w).
Proof.
  revert w. induction ins as [|i ins IH]; intros w Hinv Hins H; [done |].
  apply Forall_cons in Hins as [Hi Hins].
  change (run (i :: ins) w) with (run ins (deliver i w)).
  apply IH.
  - by apply deliver_index_inv.
  - by rewrite deliver_totalSlides.
  - by apply deliver_shown_inv.
Qed.

(** X8: once a transition has completed, the current slide is the
    visible one.  Whatever classes the slides had before, after an idle
    [showSlide z] with [z] in range, and after any further inputs within
    the contract, the slide at [currentSlide] carries [opacity-100] and
    not [opacity-0], and every other slide carries [opacity-0] and not
    [opacity-100]. *)
Theorem current_slide_is_the_visible_one (w : world) (z : Z)
    (ins : list input) :
  index_inv w → isTransitioning (self w) = false →
  0 ≤ z < totalSlides (self w) →
  Forall (in_contract (totalSlides (self w))) ins →
  shown_inv (run ins (state_of (showSlide (Num z) w))).
Proof.
  intros Hinv Hidle Hz Hins. pose proof Hinv as [Hn Hc].
  apply run_shown_inv.
  - by apply showSlide_index_inv.
  - by rewrite showSlide_totalSlides.
  - destruct (showSlide_idle z w) as (cl & _ & ->); [done | lia |].
    apply started_shown. lia.
Qed.

Lemma current_slide_is_the_visible_one_witness :
  shown_inv (run [Tick; ClickNext; MouseEnter; CallShowSlide (Num 0)]
               (state_of (showSlide (Num 2) (world_of 3)))).
Proof.
  apply current_slide_is_the_visible_one.
  - apply world_of_index_inv. lia.
  - reflexivity.
  - cbn. lia.
  - repeat (apply Forall_cons; split; [cbn; try done; lia |]). constructor.
Defined.

End SliderRuns.

(** ** The slider: the slideshow over time *)

Section SliderPlay.
Import Slider SliderState.

Lemma advance_add (a b : Z) (w : world) :
  0 ≤ a → 0 ≤ b → advance (a + b) w = advance b (advance a w).
Proof.
  intros Ha Hb. unfold advance.
  replace (Z.to_nat (a + b)) with (Z.to_nat b + Z.to_nat a)%nat by lia.
  apply Nat.iter_add.
Qed.

Lemma advance_split (a d : Z) (w : world) :
  0 ≤ a ≤ d → advance d w = advance (d - a) (advance a w).
Proof.
  intros H. rewrite <- advance_add by lia. f_equal. lia.
Qed.

Lemma advance_last (d : Z) (w : world) :
  0 < d → advance d w = tick (advance (d - 1) w).
Proof.
  intros H. unfold advance.
  replace (Z.to_nat d) with (S (Z.to_nat (d - 1))) by lia.
  apply Nat.iter_succ.
Qed.

Lemma advance_quiet (d : Z) (w : world) :
  0 ≤ d →
  Forall (λ t, now (host w) + d < due t) (timers (host w)) →
  advance d w = set_now (now (host w) + d) w.
Proof.
  intros Hd H. unfold advance. rewrite iter_tick_quiet.
  - by rewrite Z2Nat.id.
  - by rewrite Z2Nat.id.
Qed.

(** The tick at which a release is due while nothing else is: the lock
    is freed, the buttons are enabled, the release leaves the queue. *)
Lemma tick_release_alone (w : world) (rel : timer) (L : list timer) :
  timers (host w) = L ++ [rel] →
  Forall (λ t, now (host w) + 1 < due t ∧ tid t ≠ tid rel) L →
  action rel = ReleaseLock → period rel = None →
  due rel ≤ now (host w) + 1 →
  tick w =
    enableButtons
      (set_isTransitioning false (set_now (now (host w) + 1) (set_timers L w))).
Proof.
  intros HT HL Hact Hper Hdue. unfold tick.
  cbn [set_now host now timers]. rewrite HT, filter_app.
  rewrite filter_none.
  2:{ eapply Forall_impl; [exact HL |]. cbn. intros t [? _]. lia. }
  rewrite (list.filter_singleton _ rel L).
  case_decide; [| lia]. cbn [app foldl]. unfold run_timer.
  cbn [set_now host timers]. rewrite HT.
  assert (list_find (λ x, tid x = tid rel) (L ++ [rel])
          = Some (length L, rel)) as ->.
  { apply list_find_Some. split; [| split; [done |]].
    - by rewrite lookup_app_r, Nat.sub_diag.
    - intros j y Hy Hj. rewrite lookup_app_l in Hy by done.
      apply list_elem_of_lookup_2 in Hy.
      rewrite Forall_forall in HL. by destruct (HL y Hy). }
  rewrite Hper, Hact. unfold clearInterval.
  cbn [run_callback settle set_timers set_now host timers]. rewrite HT.
  rewrite filter_app, (list.filter_singleton _ rel L).
  case_decide; [done |]. rewrite app_nil_r.
  assert (filter (λ t, tid t ≠ tid rel) L = L) as ->; [| done].
  clear -HL. induction HL as [|y l [_ Hy] _ IH]; [done |].
  rewrite filter_cons. case_decide; [| done]. by rewrite IH.
Qed.

(** A transition started while every timer of the queue is due after the
    settle delay: the settle delay later the lock is free and the queue
    is as it was before the call. *)
Lemma started_settled_alone (z : Z) (cl : gset string) (w : world) :
  0 < clickDelay (self w) →
  Forall (λ t, now (host w) + clickDelay (self w) < due t ∧
               tid t < nextTimerId (host w)) (timers (host w)) →
  advance (clickDelay (self w)) (started z cl w) =
    enableButtons
      (set_isTransitioning false
         (set_now (now (host w) + clickDelay (self w))
            (set_timers (timers (host w)) (started z cl w)))).
Proof.
  intros Hd HL.
  replace (clickDelay (self w)) with ((clickDelay (self w) - 1) + 1) at 1 by lia.
  rewrite advance_add by lia.
  rewrite (advance_quiet (clickDelay (self w) - 1)); [| lia |].
  2:{ rewrite started_queue. apply Forall_app. split.
      - eapply Forall_impl; [exact HL |]. cbn. intros t [? _]. lia.
      - apply Forall_cons. split; [cbn; lia | done]. }
  change (advance 1 ?x) with (tick x).
  rewrite (tick_release_alone _
             {| tid := nextTimerId (host w);
                due := now (host w) + Z.max 0 (clickDelay (self w));
                period := None; action := ReleaseLock |}
             (timers (host w))); try done.
  - cbn [set_now set_timers host now].
    replace (now (host (started z cl w)) + (clickDelay (self w) - 1) + 1)
      with (now (host w) + clickDelay (self w)) by (cbn; lia).
    reflexivity.
  - cbn [set_now host now]. eapply Forall_impl; [exact HL |].
    cbn. intros t [? ?]. lia.
  - cbn. lia.
Qed.

(** [autoplay_fires] with the re-armed interval spelled out. *)
Lemma autoplay_fires_exact (w : world) (iv : timer) (d p : Z) :
  index_inv w → isTransitioning (self w) = false →
  timers (host w) = [iv] →
  action iv = AutoplayTick → period iv = Some p →
  0 < d → due iv = now (host w) + d →
  ∃ cl,
    advance d w =
      started (Z.rem (currentSlide (self w) + 1) (totalSlides (self w))) cl
        (note CalledNext
           (set_timers [{| tid := tid iv;
                           due := now (host w) + d + Z.max 0 p;
                           period := Some p; action := AutoplayTick |}]
              (set_now (now (host w) + d) w))).
Proof.
  intros Hinv Hidle HT Hact Hper Hd Hdue.
  assert (advance d w = tick (set_now (now (host w) + (d - 1)) w)) as ->.
  { replace d with ((d - 1) + 1) at 1 by lia.
    rewrite advance_add by lia.
    rewrite (advance_quiet (d - 1)); [done | lia |].
    rewrite HT. apply Forall_cons. split; [lia | done]. }
  unfold tick. cbn [set_now host now timers]. rewrite HT.
  rewrite (list.filter_singleton _ iv []).
  case_decide; [| lia]. cbn [foldl]. unfold run_timer.
  cbn [set_now host timers now]. rewrite HT. cbn [list_find].
  case_decide; [| done]. cbn [fmap option_fmap option_map prod_map fst snd].
  rewrite Hper, Hact. cbn [run_callback set_timers set_now self host].
  rewrite Hidle. cbn [negb].
  match goal with
  | |- context [nextSlide ?x] =>
      destruct (nextSlide_idle x) as (cl & E); [exact Hinv | exact Hidle |]
  end.
  rewrite E. cbn [settle]. exists cl.
  cbn [fmap list_fmap set_now set_timers note host now timers dom self
       nextTimerId journal].
  unfold retime. case_decide; [| done]. rewrite Hper, Hact.
  replace (now (host w) + (d - 1) + 1) with (now (host w) + d) by lia.
  reflexivity.
Qed.

Lemma pauseAutoplay_twice (w : world) :
  pauseAutoplay (pauseAutoplay w) = pauseAutoplay w.
Proof.
  destruct (pauseAutoplay_cases w) as [E|(id & _ & _ & E)]; rewrite E; [done |].
  reflexivity.
Qed.

(** X11: [pauseAutoplay] silences the slideshow.  On a slider whose
    queue holds nothing but its own autoplay interval, [pauseAutoplay]
    empties the queue; however much time passes afterwards, nothing but
    the clock changes (no tick fires, the slide stays), and a second
    [pauseAutoplay] does nothing. *)
Theorem pauseAutoplay_silences (w : world) (d : Z) :
  autoplay_owned w → 0 ≤ d →
  timers (host (pauseAutoplay w)) = [] ∧
  advance d (pauseAutoplay w)
    = set_now (now (host w) + d) (pauseAutoplay w) ∧
  pauseAutoplay (pauseAutoplay w) = pauseAutoplay w.
Proof.
  intros Hown Hd. split_and!; [| | apply pauseAutoplay_twice].
  - by destruct (pauseAutoplay_owned w Hown) as [h ->].
  - destruct (pauseAutoplay_owned w Hown) as [h ->].
    by rewrite advance_quiet.
Qed.

Lemma pauseAutoplay_silences_witness :
  timers (host (pauseAutoplay (world_of 3))) = [] ∧
  advance 9000 (pauseAutoplay (world_of 3))
    = set_now (now (host (world_of 3)) + 9000) (pauseAutoplay (world_of 3)) ∧
  pauseAutoplay (pauseAutoplay (world_of 3)) = pauseAutoplay (world_of 3).
Proof.
  apply pauseAutoplay_silences; [apply world_of_autoplay_owned | lia].
Defined.

(** [pauseAutoplay] in the middle of a transition removes the interval
    and leaves the release. *)
Lemma pauseAutoplay_started (z : Z) (cl : gset string) (w : world) :
  autoplay_owned w → handle_issued w →
  ∃ h, pauseAutoplay (started z cl w) =
         set_autoplayInterval h
           (set_timers
              [{| tid := nextTimerId (host w);
                  due := now (host w) + Z.max 0 (clickDelay (self w));
                  period := None; action := ReleaseLock |}]
              (started z cl w)).
Proof.
  intros Hown Hiss. unfold pauseAutoplay.
  change (autoplayInterval (self (started z cl w)))
    with (autoplayInterval (self w)).
  assert (autoplayInterval (self w) = None ∨
          autoplayInterval (self w) = Some 0 → timers (host w) = []) as Hempty.
  { intros Hh. destruct (timers (host w)) as [|t l] eqn:E; [done |].
    unfold autoplay_owned in Hown. rewrite E in Hown.
    apply Forall_cons in Hown as [(_ & Hne & Hh') _].
    destruct Hh as [Hh|Hh]; rewrite Hh in Hh'; [done |].
    injection Hh' as Hh'. congruence. }
  destruct (autoplayInterval (self w)) as [id|] eqn:Hh in |- *.
  - cbn [truthy]. destruct (Z.eqb_spec id 0) as [->|Hne]; cbn [negb].
    + exists (Some 0). unfold started, set_autoplayInterval, set_timers.
      cbn. rewrite Hh, Hempty by (right; by rewrite Hh). reflexivity.
    + exists None. unfold clearInterval. rewrite started_queue, filter_app.
      rewrite filter_none.
      2:{ eapply Forall_impl; [exact Hown |]. cbn.
          intros t (_ & _ & E). rewrite Hh in E. injection E as ->. tauto. }
      rewrite (list.filter_singleton _ _ []). cbn [tid].
      pose proof (Hiss id Hh). case_decide; [done | lia].
  - exists None. unfold started, set_autoplayInterval, set_timers.
    cbn. rewrite Hh, Hempty by (left; by rewrite Hh). reflexivity.
Qed.

(** X12: [pauseAutoplay] during a transition does not abort it.  Called
    right after an idle [showSlide z] on a slider whose queue held only
    its own interval, it leaves the release in the queue: once the settle
    delay has passed the lock is free, the slider is on slide [z], the
    queue is empty, and no autoplay call has been made. *)
Theorem pauseAutoplay_keeps_transition (w : world) (z d : Z) :
  index_inv w → isTransitioning (self w) = false →
  0 ≤ z < totalSlides (self w) →
  autoplay_owned w → handle_issued w →
  0 < clickDelay (self w) → clickDelay (self w) ≤ d →
  let w' := advance d (pauseAutoplay (state_of (showSlide (Num z) w))) in
  isTransitioning (self (pauseAutoplay (state_of (showSlide (Num z) w))))
    = true ∧
  isTransitioning (self w') = false ∧
  currentSlide (self w') = z ∧
  timers (host w') = [] ∧
  journal (host w') = journal (host w).
Proof.
  intros [Hn Hc] Hidle Hz Hown Hiss Hcd Hd.
  destruct (showSlide_idle z w) as (cl & _ & ->); [done | lia |].
  cbn [state_of].
  destruct (pauseAutoplay_started z cl w Hown Hiss) as [h ->].
  cbv zeta. split; [done |].
  rewrite (advance_split (clickDelay (self w)) d) by lia.
  rewrite (advance_last (clickDelay (self w))) by lia.
  rewrite (advance_quiet (clickDelay (self w) - 1)); [| lia |].
  2:{ apply Forall_cons. split; [cbn; lia | done]. }
  rewrite (tick_release_alone _
             {| tid := nextTimerId (host w);
                due := now (host w) + Z.max 0 (clickDelay (self w));
                period := None; action := ReleaseLock |} []);
    try done; [| cbn; lia].
  rewrite advance_quiet; [done | lia | done].
Qed.

Lemma pauseAutoplay_keeps_transition_witness :
  let w' := advance 800 (pauseAutoplay
                           (state_of (showSlide (Num 2) (world_of 3)))) in
  isTransitioning
    (self (pauseAutoplay (state_of (showSlide (Num 2) (world_of 3))))) = true ∧
  isTransitioning (self w') = false ∧
  currentSlide (self w') = 2 ∧
  timers (host w') = [] ∧
  journal (host w') = journal (host (world_of 3)).
Proof.
  apply (pauseAutoplay_keeps_transition (world_of 3) 2 800).
  - apply world_of_index_inv. lia.
  - reflexivity.
  - cbn. lia.
  - apply world_of_autoplay_owned.
  - intros id [= <-]. cbn. lia.
  - cbn. lia.
  - cbn. lia.
Defined.

(** One period of the undisturbed slideshow: the interval fires, the
    transition settles, and the slideshow is as before, one slide on. *)
Lemma playing_cycle (d : Z) (w : world) :
  playing d w → 0 < d →
  let w' := advance (d + clickDelay (self w)) w in
  playing (autoplayDelay (self w) - clickDelay (self w)) w' ∧
  currentSlide (self w')
    = Z.rem (currentSlide (self w) + 1) (totalSlides (self w)) ∧
  journal (host w') = journal (host w) ++ [CalledNext] ∧
  totalSlides (self w') = totalSlides (self w) ∧
  clickDelay (self w') = clickDelay (self w) ∧
  autoplayDelay (self w') = autoplayDelay (self w).
Proof.
  intros (Hinv & Hidle & Hdel & iv & HT & Hact & Hper & Hdue & Htid) Hd.
  cbv zeta. rewrite advance_add by lia.
  destruct (autoplay_fires_exact w iv d (autoplayDelay (self w)))
    as (cl & ->); try done.
  match goal with
  | |- context [started ?z cl ?b] => set (z0 := z); set (wb := b)
  end.
  pose proof (started_settled_alone z0 cl wb) as E.
  change (clickDelay (self wb)) with (clickDelay (self w)) in E.
  rewrite E; clear E.
  - pose proof Hinv as [Hn Hc].
    assert (0 ≤ z0 < totalSlides (self w)) as Hz0
      by (apply rem_in_range; lia).
    split_and!; try done.
    split_and!; try done.
    + split; cbn; rewrite ?length_insert, ?length_fmap; lia.
    + cbn. lia.
    + cbn. lia.
    + eexists. split; [reflexivity |]. cbn. split_and!; try done; lia.
  - lia.
  - cbn. apply Forall_cons. split; [| done]. cbn. lia.
Qed.

Lemma playing_cycles (k : nat) (d : Z) (w : world) :
  playing d w → 0 < d →
  let w' := advance (d + clickDelay (self w)
                     + Z.of_nat k * autoplayDelay (self w)) w in
  playing (autoplayDelay (self w) - clickDelay (self w)) w' ∧
  currentSlide (self w')
    = (currentSlide (self w) + 1 + Z.of_nat k) mod totalSlides (self w) ∧
  journal (host w') = journal (host w) ++ replicate (S k) CalledNext ∧
  totalSlides (self w') = totalSlides (self w) ∧
  clickDelay (self w') = clickDelay (self w) ∧
  autoplayDelay (self w') = autoplayDelay (self w).
Proof.
  intros Hp Hd. pose proof Hp as ([Hn Hc] & _ & Hdel & _).
  induction k as [|k IH]; cbv zeta.
  - replace (d + clickDelay (self w) + Z.of_nat 0 * autoplayDelay (self w))
      with (d + clickDelay (self w)) by lia.
    destruct (playing_cycle d w Hp Hd) as (H1 & H2 & H3 & H4 & H5 & H6).
    split_and!; try done.
    rewrite H2, Z.rem_mod_nonneg by lia. f_equal. lia.
  - cbv zeta in IH. destruct IH as (H1 & H2 & H3 & H4 & H5 & H6).
    replace (d + clickDelay (self w) + Z.of_nat (S k) * autoplayDelay (self w))
      with ((d + clickDelay (self w) + Z.of_nat k * autoplayDelay (self w))
            + ((autoplayDelay (self w) - clickDelay (self w))
               + clickDelay (self w))) by lia.
    assert (0 ≤ Z.of_nat k * autoplayDelay (self w)) by nia.
    rewrite advance_add by lia.
    set (wk := advance (d + clickDelay (self w)
                        + Z.of_nat k * autoplayDelay (self w)) w) in *.
    rewrite <- H5 at 2. rewrite <- H5 in H1 at 1. rewrite <- H6 in H1.
    destruct (playing_cycle _ wk H1) as (G1 & G2 & G3 & G4 & G5 & G6);
      [lia |].
    cbv zeta in *. rewrite H5, H6 in *.
    split_and!; try done; try congruence.
    + rewrite G2, H2, H4, Z.rem_mod_nonneg;
        [| pose proof (Z.mod_pos_bound
                         (currentSlide (self w) + 1 + Z.of_nat k)
                         (totalSlides (self w))); lia | lia].
      rewrite Z.add_mod_idemp_l by lia. f_equal. lia.
    + rewrite G3, H3. rewrite <- app_assoc. f_equal.
      change [CalledNext] with (replicate 1 CalledNext).
      rewrite <- replicate_add. f_equal. lia.
Qed.

(** X13: left alone, the slideshow advances one slide per autoplay
    period, for ever.  From an idle slider whose queue holds its autoplay
    interval alone, due in [d] ms, with a settle delay shorter than the
    autoplay delay: [d] ms plus the settle delay plus [k] autoplay
    periods later the slider is idle on slide
    [(currentSlide + 1 + k) mod totalSlides], and the autoplay closure has
    called [nextSlide] exactly [k + 1] times (no tick was skipped). *)
Theorem autoplay_advances_every_period (k : nat) (d : Z) (w : world) :
  playing d w → 0 < d →
  let w' := advance (d + clickDelay (self w)
                     + Z.of_nat k * autoplayDelay (self w)) w in
  isTransitioning (self w') = false ∧
  currentSlide (self w')
    = (currentSlide (self w) + 1 + Z.of_nat k) mod totalSlides (self w) ∧
  journal (host w') = journal (host w) ++ replicate (S k) CalledNext.
Proof.
  intros Hp Hd.
  destruct (playing_cycles k d w Hp Hd) as ((_ & Hidle & _) & Hc & Hj & _).
  done.
Qed.

Lemma construct_playing (page : Dom) :
  slides page ≠ [] → playing 3000 (state_of (construct page fresh_host)).
Proof.
  intros Hne. destruct page as [sl pb nb sc]. cbn in Hne.
  split_and!.
  - split; cbn; [done |]. destruct sl; [done | cbn; lia].
  - done.
  - cbn. lia.
  - cbn. lia.
  - eexists. split; [reflexivity |]. cbn. split_and!; try done; lia.
Qed.

Lemma autoplay_advances_every_period_witness :
  let w' := advance (3000 + clickDelay (self (world_of 3))
                     + Z.of_nat 4 * autoplayDelay (self (world_of 3)))
                    (world_of 3) in
  isTransitioning (self w') = false ∧
  currentSlide (self w')
    = (currentSlide (self (world_of 3)) + 1 + Z.of_nat 4)
      mod totalSlides (self (world_of 3)) ∧
  journal (host w') = journal (host (world_of 3)) ++ replicate 5 CalledNext.
Proof.
  apply (autoplay_advances_every_period 4 3000 (world_of 3)); [| lia].
  apply construct_playing. discriminate.
Defined.

(** *** Navigation composed *)

Lemma rem_next_prev (c n : Z) :
  0 ≤ c < n → Z.rem (Z.rem (c + 1) n - 1 + n) n = c.
Proof.
  intros H. rewrite (Z.rem_mod_nonneg (c + 1)) by lia.
  destruct (decide (c + 1 = n)) as [E|E].
  - rewrite E, Z_mod_same_full.
    replace (0 - 1 + n) with c by lia. apply Z.rem_small. lia.
  - rewrite Z.mod_small by lia.
    replace (c + 1 - 1 + n) with (c + 1 * n) by lia.
    rewrite Z.rem_mod_nonneg by lia.
    rewrite Z.mod_add by lia. apply Z.mod_small. lia.
Qed.

Lemma rem_prev_next (c n : Z) :
  0 ≤ c < n → Z.rem (Z.rem (c - 1 + n) n + 1) n = c.
Proof.
  intros H. rewrite (Z.rem_mod_nonneg (c - 1 + n)) by lia.
  destruct (decide (c = 0)) as [->|E].
  - rewrite Z.mod_small by lia.
    replace (0 - 1 + n + 1) with n by lia. apply Z.rem_same. lia.
  - replace (c - 1 + n) with (c - 1 + 1 * n) by lia.
    rewrite Z.mod_add by lia. rewrite Z.mod_small by lia.
    replace (c - 1 + 1) with c by lia. apply Z.rem_small. lia.
Qed.

(** X14: [prevSlide] undoes [nextSlide] and [nextSlide] undoes
    [prevSlide], each call being made once the previous transition has
    settled: the slider is back on the slide it started from, wrap-around
    included. *)
Theorem next_and_prev_undo_each_other (w : world) :
  index_inv w → isTransitioning (self w) = false → idle_queue w →
  0 < clickDelay (self w) →
  currentSlide (self (prev_settled (next_settled w))) = currentSlide (self w) ∧
  currentSlide (self (next_settled (prev_settled w))) = currentSlide (self w).
Proof.
  intros Hinv Hidle Hq Hd. pose proof Hinv as [Hn Hc]. split.
  - destruct (nextSlide_settled w Hinv Hidle Hq Hd)
      as (Hinv1 & Hidle1 & Hq1 & Hc1 & HN1 & Hd1 & _).
    destruct (prevSlide_settled (next_settled w) Hinv1 Hidle1 Hq1)
      as (_ & _ & _ & Hc2 & _).
    { unfold next_settled. lia. }
    unfold prev_settled. rewrite Hc2. unfold next_settled.
    rewrite Hc1, HN1. by apply rem_next_prev.
  - destruct (prevSlide_settled w Hinv Hidle Hq Hd)
      as (Hinv1 & Hidle1 & Hq1 & Hc1 & HN1 & Hd1 & _).
    destruct (nextSlide_settled (prev_settled w) Hinv1 Hidle1 Hq1)
      as (_ & _ & _ & Hc2 & _).
    { unfold prev_settled. lia. }
    unfold next_settled. rewrite Hc2. unfold prev_settled.
    rewrite Hc1, HN1. by apply rem_prev_next.
Qed.

Lemma next_and_prev_undo_each_other_witness :
  currentSlide (self (prev_settled (next_settled (world_of 3))))
    = currentSlide (self (world_of 3)) ∧
  currentSlide (self (next_settled (prev_settled (world_of 3))))
    = currentSlide (self (world_of 3)).
Proof.
  apply next_and_prev_undo_each_other.
  - apply world_of_index_inv. lia.
  - reflexivity.
  - apply world_of_idle_queue.
  - cbn. lia.
Defined.

Lemma iter_next_settled (k : nat) (w : world) :
  index_inv w → isTransitioning (self w) = false → idle_queue w →
  0 < clickDelay (self w) →
  let w' := Nat.iter k next_settled w in
  index_inv w' ∧ isTransitioning (self w') = false ∧ idle_queue w' ∧
  clickDelay (self w') = clickDelay (self w) ∧
  totalSlides (self w') = totalSlides (self w) ∧
  currentSlide (self w')
    = (currentSlide (self w) + Z.of_nat k) mod totalSlides (self w).
Proof.
  intros Hinv Hidle Hq Hd. pose proof Hinv as [Hn Hc].
  induction k as [|k IH]; cbv zeta.
  - cbn [Nat.iter]. split_and!; try done.
    rewrite Z.add_0_r, Z.mod_small; [done | lia].
  - cbv zeta in IH. destruct IH as (I1 & I2 & I3 & I4 & I5 & I6).
    rewrite Nat.iter_succ.
    destruct (nextSlide_settled (Nat.iter k next_settled w) I1 I2 I3)
      as (J1 & J2 & J3 & J4 & J5 & J6 & _); [lia |].
    change (settled (nextSlide (Nat.iter k next_settled w)))
      with (next_settled (Nat.iter k next_settled w)) in *.
    split_and!; try done; try congruence.
    rewrite J4, I6, I5, Z.rem_mod_nonneg;
      [| pose proof (Z.mod_pos_bound (currentSlide (self w) + Z.of_nat k)
                       (totalSlides (self w))); lia | lia].
    rewrite Z.add_mod_idemp_l by lia. f_equal. lia.
Qed.

(** X15: [k] [nextSlide] calls, each made once the previous transition
    has settled, move the slider from slide [c] to slide
    [(c + k) mod totalSlides]; as many calls as there are slides bring it
    back to [c], for any number of slides. *)
Theorem next_k_times (k : nat) (w : world) :
  index_inv w → isTransitioning (self w) = false → idle_queue w →
  0 < clickDelay (self w) →
  currentSlide (self (Nat.iter k next_settled w))
    = (currentSlide (self w) + Z.of_nat k) mod totalSlides (self w) ∧
  currentSlide (self (Nat.iter (length (slides (dom w))) next_settled w))
    = currentSlide (self w).
Proof.
  intros Hinv Hidle Hq Hd. pose proof Hinv as [Hn Hc]. split.
  - by destruct (iter_next_settled k w Hinv Hidle Hq Hd) as (_ & _ & _ & _ & _ & ?).
  - destruct (iter_next_settled (length (slides (dom w))) w Hinv Hidle Hq Hd)
      as (_ & _ & _ & _ & _ & ->).
    rewrite <- Hn.
    replace (currentSlide (self w) + totalSlides (self w))
      with (currentSlide (self w) + 1 * totalSlides (self w)) by lia.
    rewrite Z.mod_add by lia. apply Z.mod_small. lia.
Qed.

Lemma next_k_times_witness :
  currentSlide (self (Nat.iter 7 next_settled (world_of 5)))
    = (currentSlide (self (world_of 5)) + Z.of_nat 7)
      mod totalSlides (self (world_of 5)) ∧
  currentSlide
    (self (Nat.iter (length (slides (dom (world_of 5)))) next_settled
             (world_of 5)))
    = currentSlide (self (world_of 5)).
Proof.
  apply next_k_times.
  - apply world_of_index_inv. lia.
  - reflexivity.
  - apply world_of_idle_queue.
  - cbn. lia.
Defined.

End SliderPlay.

(** ** The mobile drawer *)

Section DrawerTheorems.
Import Drawer.

Ltac drawer_simpl :=
  cbv [openDrawer closeDrawer on_mobileDrawer on_drawerBackdrop on_line1
       on_line2 on_line3 set_mobileDrawer set_drawerBackdrop set_bodyOverflow
       set_line1 set_line2 set_line3 mobileDrawer drawerBackdrop line1 line2
       line3 bodyOverflow mobileMenuButton closeDrawerButton page_of] in *.

Lemma add_removed (t : string) (cl : gset string) :
  t ∈ cl →
  Slider.classList_add [t] (Slider.classList_remove [t] cl) = cl.
Proof.
  intros Hin. unfold Slider.classList_add, Slider.classList_remove.
  cbn [list_to_set foldr]. apply set_eq. intros x.
  rewrite elem_of_union, elem_of_difference, elem_of_union,
    elem_of_singleton, elem_of_empty.
  destruct (decide (x = t)) as [->|Hne]; tauto.
Qed.

Lemma add_after_remove (t : string) (cl : gset string) :
  Slider.classList_add [t] (Slider.classList_remove [t] cl)
    = Slider.classList_add [t] cl.
Proof.
  unfold Slider.classList_add, Slider.classList_remove.
  cbn [list_to_set foldr]. apply set_eq. intros x.
  rewrite !elem_of_union, elem_of_difference, elem_of_union,
    elem_of_singleton, elem_of_empty.
  destruct (decide (x = t)) as [->|Hne]; tauto.
Qed.

(** The backdrop after [openDrawer] then [closeDrawer] is the backdrop
    after [closeDrawer] alone. *)
Lemma backdrop_open_close (cl : gset string) :
  Slider.classList_add ["opacity-0"; "pointer-events-none"]
    (Slider.classList_remove ["opacity-100"; "pointer-events-auto"]
       (Slider.classList_add ["opacity-100"; "pointer-events-auto"]
          (Slider.classList_remove ["opacity-0"; "pointer-events-none"] cl)))
  = Slider.classList_add ["opacity-0"; "pointer-events-none"]
      (Slider.classList_remove ["opacity-100"; "pointer-events-auto"] cl).
Proof.
  unfold Slider.classList_add, Slider.classList_remove.
  cbn [list_to_set foldr]. apply set_eq. intros x.
  rewrite !elem_of_union, !elem_of_difference, !elem_of_union,
    !elem_of_difference, !elem_of_union, !elem_of_singleton, !elem_of_empty.
  destruct (decide (x = "opacity-0")), (decide (x = "pointer-events-none"));
    tauto.
Qed.

(** A backdrop in its closed configuration comes back unchanged. *)
Lemma backdrop_round_trip (cl : gset string) :
  "opacity-0" ∈ cl → "pointer-events-none" ∈ cl →
  "opacity-100" ∉ cl → "pointer-events-auto" ∉ cl →
  Slider.classList_add ["opacity-0"; "pointer-events-none"]
    (Slider.classList_remove ["opacity-100"; "pointer-events-auto"] cl) = cl.
Proof.
  intros H1 H2 H3 H4. unfold Slider.classList_add, Slider.classList_remove.
  cbn [list_to_set foldr]. apply set_eq. intros x.
  rewrite !elem_of_union, !elem_of_difference, !elem_of_union,
    !elem_of_singleton, !elem_of_empty.
  split.
  - intros [[? _]|[->|[->|[]]]]; done.
  - intros Hx. left. split; [done |]. intros [->|[->|[]]]; done.
Qed.

(** X16: with every element on the page, [openDrawer] and [closeDrawer]
    complete; closing after opening leaves the page [closeDrawer] alone
    would leave; and a page in its closed configuration (drawer off
    screen, backdrop faded out, scrolling free, icon at rest) is exactly
    restored by opening and closing. *)
Theorem open_then_close (p : page) (d b : gset string) (s1 s2 s3 : string) :
  mobileDrawer p = Some d → drawerBackdrop p = Some b →
  line1 p = Some s1 → line2 p = Some s2 → line3 p = Some s3 →
  ∃ p1 p2,
    openDrawer p = Completed p1 ∧
    closeDrawer p1 = Completed p2 ∧
    closeDrawer p = Completed p2 ∧
    (∃ d1, mobileDrawer p1 = Some d1 ∧ "-translate-x-full" ∉ d1) ∧
    bodyOverflow p1 = "hidden" ∧
    closed p2 ∧ bodyOverflow p2 = EmptyString ∧
    ("-translate-x-full" ∈ d →
     "opacity-0" ∈ b → "pointer-events-none" ∈ b →
     "opacity-100" ∉ b → "pointer-events-auto" ∉ b →
     s1 = EmptyString → s2 = EmptyString → s3 = EmptyString →
     bodyOverflow p = EmptyString →
     p2 = p).
Proof.
  destruct p as [mb cb bd md l1 l2 l3 ov]. drawer_simpl.
  intros -> -> -> -> ->.
  eexists. eexists. split; [drawer_simpl; reflexivity |].
  split; [drawer_simpl; reflexivity |].
  split.
  { drawer_simpl. by rewrite add_after_remove, backdrop_open_close. }
  split.
  { eexists. split; [reflexivity |].
    unfold Slider.classList_remove. cbn [list_to_set foldr].
    rewrite elem_of_difference, elem_of_union, elem_of_singleton. tauto. }
  split; [reflexivity |]. split.
  { eexists. split; [reflexivity |].
    unfold Slider.classList_add. cbn [list_to_set foldr].
    rewrite !elem_of_union, elem_of_singleton. tauto. }
  split; [reflexivity |].
  intros Hd H1 H2 H3 H4 -> -> -> ->.
  by rewrite add_removed, backdrop_open_close, backdrop_round_trip.
Qed.

Lemma open_then_close_witness :
  ∃ p1 p2,
    openDrawer sample = Completed p1 ∧
    closeDrawer p1 = Completed p2 ∧
    closeDrawer sample = Completed p2 ∧
    (∃ d1, mobileDrawer p1 = Some d1 ∧ "-translate-x-full" ∉ d1) ∧
    bodyOverflow p1 = "hidden" ∧
    closed p2 ∧ bodyOverflow p2 = EmptyString ∧
    ("-translate-x-full" ∈ ({["-translate-x-full"; "fixed"]} : gset string) →
     "opacity-0" ∈ ({["opacity-0"; "pointer-events-none"; "fixed"]} : gset string) →
     "pointer-events-none" ∈ ({["opacity-0"; "pointer-events-none"; "fixed"]} : gset string) →
     "opacity-100" ∉ ({["opacity-0"; "pointer-events-none"; "fixed"]} : gset string) →
     "pointer-events-auto" ∉ ({["opacity-0"; "pointer-events-none"; "fixed"]} : gset string) →
     EmptyString = EmptyString → EmptyString = EmptyString →
     EmptyString = EmptyString →
     bodyOverflow sample = EmptyString →
     p2 = sample).
Proof.
  exact (open_then_close sample _ _ _ _ _ eq_refl eq_refl eq_refl eq_refl
           eq_refl).
Defined.

Lemma openDrawer_scroll_lock (p : page) (d b : gset string) :
  mobileDrawer p = Some d → drawerBackdrop p = Some b →
  is_Some (drawerBackdrop (page_of (openDrawer p))) ∧
  scroll_lock_inv (page_of (openDrawer p)).
Proof.
  destruct p as [mb cb bd md l1 l2 l3 ov]. drawer_simpl. intros -> ->.
  unfold scroll_lock_inv.
  destruct l1, l2, l3; drawer_simpl; (split; [by eexists |]);
    (eexists; split; [reflexivity |]);
    unfold Slider.classList_remove; cbn [list_to_set foldr];
    rewrite elem_of_difference, elem_of_union, elem_of_singleton; tauto.
Qed.

Lemma closeDrawer_scroll_lock (p : page) (d b : gset string) :
  mobileDrawer p = Some d → drawerBackdrop p = Some b →
  is_Some (drawerBackdrop (page_of (closeDrawer p))) ∧
  scroll_lock_inv (page_of (closeDrawer p)).
Proof.
  destruct p as [mb cb bd md l1 l2 l3 ov]. drawer_simpl. intros -> ->.
  unfold scroll_lock_inv.
  destruct l1, l2, l3; drawer_simpl; (split; [by eexists |]);
    (eexists; split; [reflexivity |]);
    unfold Slider.classList_add; cbn [list_to_set foldr];
    rewrite !elem_of_union, elem_of_singleton;
    (split; [discriminate | tauto]).
Qed.

Lemma handle_scroll_lock (e : event) (p : page) :
  is_Some (drawerBackdrop p) → scroll_lock_inv p →
  is_Some (drawerBackdrop (page_of (handle e p))) ∧
  scroll_lock_inv (page_of (handle e p)).
Proof.
  intros [b Hb] Hinv. pose proof Hinv as (d & Hd & _).
  destruct e; cbn [handle].
  - destruct (mobileMenuButton p); [| by split; [eexists |]].
    by apply (openDrawer_scroll_lock p d b).
  - destruct (closeDrawerButton p); [| by split; [eexists |]].
    by apply (closeDrawer_scroll_lock p d b).
  - rewrite Hb. by apply (closeDrawer_scroll_lock p d b).
  - rewrite Hd. by apply (closeDrawer_scroll_lock p d b).
  - unfold onKeydown. destruct (String.eqb key "Escape");
      [| by split; [eexists |]].
    rewrite Hd. destruct (negb _); [| by split; [eexists |]].
    by apply (closeDrawer_scroll_lock p d b).
Qed.

(** X18: page scrolling is locked exactly while the drawer is in view.
    On a page that has the drawer and the backdrop, if
    [body.style.overflow] is ["hidden"] exactly when the drawer lacks
    [-translate-x-full], this remains so after any sequence of clicks and
    key presses, also when the icon lines are missing and the calls
    throw half-way. *)
Theorem scroll_lock_follows_drawer (es : list event) (p : page) :
  is_Some (drawerBackdrop p) → scroll_lock_inv p →
  scroll_lock_inv (run es p).
Proof.
  revert p. induction es as [|e es IH]; intros p Hb Hinv; [done |].
  change (run (e :: es) p) with (run es (page_of (handle e p))).
  destruct (handle_scroll_lock e p Hb Hinv) as [Hb' Hinv']. by apply IH.
Qed.

Lemma scroll_lock_follows_drawer_witness :
  scroll_lock_inv
    (run [ClickMenuButton; Keydown "a"; Keydown "Escape"; ClickMenuButton;
          ClickDrawerLink] sample).
Proof.
  apply scroll_lock_follows_drawer; [by eexists |].
  eexists. split; [reflexivity |]. split; [discriminate |].
  intros Hout. exfalso. apply Hout.
  apply elem_of_union. left. by apply elem_of_singleton.
Defined.

(** *** Escape *)

Lemma run_snoc (es : list event) (e : event) (p : page) :
  run (es ++ [e]) p = page_of (handle e (run es p)).
Proof. unfold run. by rewrite foldl_app. Qed.

Lemma run_cons (e : event) (es : list event) (p : page) :
  run (e :: es) p = run es (page_of (handle e p)).
Proof. reflexivity. Qed.

(** The first statement of [closeDrawer] is done whatever is missing
    after it. *)
Lemma closeDrawer_drawer (p : page) (d : gset string) :
  mobileDrawer p = Some d →
  mobileDrawer (page_of (closeDrawer p))
    = Some (Slider.classList_add ["-translate-x-full"] d).
Proof.
  destruct p as [mb cb bd md l1 l2 l3 ov]. drawer_simpl. intros ->.
  destruct bd, l1, l2, l3; reflexivity.
Qed.

Lemma openDrawer_drawer (p : page) (d : gset string) :
  mobileDrawer p = Some d →
  mobileDrawer (page_of (openDrawer p))
    = Some (Slider.classList_remove ["-translate-x-full"] d).
Proof.
  destruct p as [mb cb bd md l1 l2 l3 ov]. drawer_simpl. intros ->.
  destruct bd, l1, l2, l3; reflexivity.
Qed.

Lemma added_is_closed (d : gset string) :
  "-translate-x-full" ∈ Slider.classList_add ["-translate-x-full"] d.
Proof.
  unfold Slider.classList_add. cbn [list_to_set foldr].
  rewrite !elem_of_union, elem_of_singleton. tauto.
Qed.

Lemma removed_is_in_view (d : gset string) :
  "-translate-x-full" ∉ Slider.classList_remove ["-translate-x-full"] d.
Proof.
  unfold Slider.classList_remove. cbn [list_to_set foldr].
  rewrite elem_of_difference, elem_of_union, elem_of_singleton. tauto.
Qed.

Lemma escape_closed (p : page) :
  is_Some (mobileDrawer p) → closed (page_of (onKeydown "Escape" p)).
Proof.
  intros [d Hd]. unfold onKeydown. cbn [String.eqb Ascii.eqb Bool.eqb].
  rewrite Hd. destruct (decide ("-translate-x-full" ∈ d)) as [Hin|Hout].
  - rewrite bool_decide_eq_true_2 by done. by exists d.
  - rewrite bool_decide_eq_false_2 by done. cbn [negb].
    eexists. split; [by apply closeDrawer_drawer |]. apply added_is_closed.
Qed.

Lemma escape_twice (p : page) :
  page_of (onKeydown "Escape" (page_of (onKeydown "Escape" p)))
    = page_of (onKeydown "Escape" p).
Proof.
  destruct (mobileDrawer p) as [d|] eqn:Hd.
  - destruct (escape_closed p) as (cl & Hcl & Hin); [by eexists |].
    generalize dependent (page_of (onKeydown "Escape" p)). intros q Hcl.
    unfold onKeydown. cbn [String.eqb Ascii.eqb Bool.eqb].
    rewrite Hcl. by rewrite bool_decide_eq_true_2.
  - unfold onKeydown. cbn [String.eqb Ascii.eqb Bool.eqb].
    rewrite Hd. cbn [page_of]. by rewrite Hd.
Qed.

Lemma handle_keeps_drawer (e : event) (p : page) :
  is_Some (mobileDrawer p) → is_Some (mobileDrawer (page_of (handle e p))).
Proof.
  intros [d Hd]. destruct e; cbn [handle].
  - destruct (mobileMenuButton p); [| by eexists].
    rewrite (openDrawer_drawer p d Hd). by eexists.
  - destruct (closeDrawerButton p); [| by eexists].
    rewrite (closeDrawer_drawer p d Hd). by eexists.
  - destruct (drawerBackdrop p); [| by eexists].
    rewrite (closeDrawer_drawer p d Hd). by eexists.
  - rewrite Hd. rewrite (closeDrawer_drawer p d Hd). by eexists.
  - unfold onKeydown. destruct (String.eqb key "Escape"); [| by eexists].
    rewrite Hd. destruct (negb _); [| by eexists].
    rewrite (closeDrawer_drawer p d Hd). by eexists.
Qed.

Lemma run_keeps_drawer (es : list event) (p : page) :
  is_Some (mobileDrawer p) → is_Some (mobileDrawer (run es p)).
Proof.
  revert p. induction es as [|e es IH]; intros p H; [done |].
  rewrite run_cons. by apply IH, handle_keeps_drawer.
Qed.

Lemma run_scroll_lock (es : list event) (p : page) :
  is_Some (drawerBackdrop p) → scroll_lock_inv p →
  is_Some (drawerBackdrop (run es p)) ∧ scroll_lock_inv (run es p).
Proof.
  revert p. induction es as [|e es IH]; intros p Hb Hinv; [done |].
  rewrite run_cons.
  destruct (handle_scroll_lock e p Hb Hinv) as [Hb' Hinv']. by apply IH.
Qed.

Lemma other_key_ignored (e : event) (p : page) :
  other_key e = true → page_of (handle e p) = p.
Proof.
  destruct e; try discriminate. cbn [other_key handle]. unfold onKeydown.
  by destruct (String.eqb key "Escape").
Qed.

(** X17: Escape leaves the drawer closed, whatever happened before.  On
    a page that has the drawer element, after any sequence of clicks and
    key presses followed by Escape the drawer carries
    [-translate-x-full], also when the backdrop or the icon lines are
    missing and [closeDrawer] throws half-way; on a page that also has
    the backdrop and started with the scroll lock in step with the
    drawer, scrolling is then free.  Pressing Escape a second time
    changes nothing, on any page.  Keys other than Escape can be removed
    from any sequence of events without changing the page it leads to. *)
Theorem escape_leaves_the_drawer_closed :
  (∀ (es : list event) (p : page),
      is_Some (mobileDrawer p) →
      closed (run (es ++ [Keydown "Escape"]) p)) ∧
  (∀ (es : list event) (p : page),
      is_Some (drawerBackdrop p) → scroll_lock_inv p →
      bodyOverflow (run (es ++ [Keydown "Escape"]) p) ≠ "hidden") ∧
  (∀ p : page,
      run [Keydown "Escape"; Keydown "Escape"] p = run [Keydown "Escape"] p) ∧
  (∀ (es : list event) (p : page),
      run (filter (λ e, other_key e = false) es) p = run es p).
Proof.
  split_and!.
  - intros es p Hd. rewrite run_snoc. cbn [handle].
    by apply escape_closed, run_keeps_drawer.
  - intros es p Hb Hinv.
    destruct (run_scroll_lock (es ++ [Keydown "Escape"]) p Hb Hinv)
      as [_ (cl & Hcl & Hlock)].
    assert (closed (run (es ++ [Keydown "Escape"]) p)) as (cl' & Hcl' & Hin).
    { rewrite run_snoc. cbn [handle].
      apply escape_closed, run_keeps_drawer.
      destruct Hinv as (d & Hd & _). by eexists. }
    rewrite Hcl in Hcl'. injection Hcl' as <-.
    intros Hov. by apply Hlock in Hov.
  - intros p. apply escape_twice.
  - intros es. induction es as [|e es IH]; intros p; [done |].
    rewrite filter_cons. destruct (decide (other_key e = false)) as [Hk|Hk].
    + rewrite !run_cons. apply IH.
    + rewrite run_cons, other_key_ignored by by destruct (other_key e).
      apply IH.
Qed.

Lemma escape_leaves_the_drawer_closed_witness :
  closed (run ([ClickMenuButton; Keydown "a"] ++ [Keydown "Escape"]) sample) ∧
  bodyOverflow (run ([ClickMenuButton; Keydown "a"] ++ [Keydown "Escape"])
                  sample) ≠ "hidden".
Proof.
  destruct escape_leaves_the_drawer_closed as (H1 & H2 & _). split.
  - apply H1. by eexists.
  - apply H2; [by eexists |].
    eexists. split; [reflexivity |]. split; [discriminate |].
    intros Hout. exfalso. apply Hout.
    apply elem_of_union. left. by apply elem_of_singleton.
Defined.

(** *** Pages that lack an element *)

Lemma handle_without_drawer (e : event) (p : page) :
  mobileDrawer p = None → page_of (handle e p) = p.
Proof.
  intros Hd. destruct e; cbn [handle].
  - destruct (mobileMenuButton p); [| done].
    unfold openDrawer, on_mobileDrawer. by rewrite Hd.
  - destruct (closeDrawerButton p); [| done].
    unfold closeDrawer, on_mobileDrawer. by rewrite Hd.
  - destruct (drawerBackdrop p); [| done].
    unfold closeDrawer, on_mobileDrawer. by rewrite Hd.
  - by rewrite Hd.
  - unfold onKeydown. destruct (String.eqb key "Escape"); [| done].
    by rewrite Hd.
Qed.

Lemma openDrawer_without_backdrop (p : page) :
  drawerBackdrop p = None → same_rest p (page_of (openDrawer p)).
Proof.
  destruct p as [mb cb bd md l1 l2 l3 ov]. unfold same_rest.
  drawer_simpl. intros ->. by destruct md.
Qed.

Lemma closeDrawer_without_backdrop (p : page) :
  drawerBackdrop p = None → same_rest p (page_of (closeDrawer p)).
Proof.
  destruct p as [mb cb bd md l1 l2 l3 ov]. unfold same_rest.
  drawer_simpl. intros ->. by destruct md.
Qed.

Lemma handle_without_backdrop (e : event) (p : page) :
  drawerBackdrop p = None → same_rest p (page_of (handle e p)).
Proof.
  intros Hb.
  assert (same_rest p p) as Hrefl by (unfold same_rest; by rewrite Hb).
  destruct e; cbn [handle].
  - destruct (mobileMenuButton p); [| done].
    by apply openDrawer_without_backdrop.
  - destruct (closeDrawerButton p); [| done].
    by apply closeDrawer_without_backdrop.
  - by rewrite Hb.
  - destruct (mobileDrawer p); [| done].
    by apply closeDrawer_without_backdrop.
  - unfold onKeydown. destruct (String.eqb key "Escape"); [| done].
    destruct (mobileDrawer p); [| done]. destruct (negb _); [| done].
    by apply closeDrawer_without_backdrop.
Qed.

Lemma run_without_backdrop (es : list event) (p : page) :
  drawerBackdrop p = None → same_rest p (run es p).
Proof.
  revert p. induction es as [|e es IH]; intros p Hb.
  - unfold same_rest. by split_and!.
  - rewrite run_cons.
    destruct (handle_without_backdrop e p Hb) as (Hb' & E1 & E2 & E3 & E4 & E5).
    destruct (IH _ Hb') as (Hb'' & F1 & F2 & F3 & F4 & F5).
    unfold same_rest. split_and!; [done | congruence ..].
Qed.

(** X19: what the drawer does on a page that lacks one of its elements.
    Without the drawer element no sequence of clicks and key presses
    changes anything.  Without the backdrop, no sequence of events ever
    changes [body.style.overflow] or the styles of the three icon lines;
    yet the drawer itself still moves: after any events, a click on the
    menu button throws and leaves the drawer on screen with scrolling
    not locked, so that the scroll lock is no longer in step with the
    drawer. *)
Theorem drawer_needs_its_elements (es : list event) (p : page) :
  (mobileDrawer p = None → run es p = p) ∧
  (drawerBackdrop p = None →
   drawerBackdrop (run es p) = None ∧
   bodyOverflow (run es p) = bodyOverflow p ∧
   line1 (run es p) = line1 p ∧ line2 (run es p) = line2 p ∧
   line3 (run es p) = line3 p) ∧
  (drawerBackdrop p = None → is_Some (mobileDrawer p) →
   mobileMenuButton p = true → bodyOverflow p ≠ "hidden" →
   (∃ q, handle ClickMenuButton (run es p) = Threw q) ∧
   in_view (run (es ++ [ClickMenuButton]) p) ∧
   bodyOverflow (run (es ++ [ClickMenuButton]) p) ≠ "hidden" ∧
   ¬ scroll_lock_inv (run (es ++ [ClickMenuButton]) p)).
Proof.
  split_and!.
  - revert p. induction es as [|e es IH]; intros p Hd; [done |].
    rewrite run_cons, handle_without_drawer by done. by apply IH.
  - intros Hb.
    destruct (run_without_backdrop es p Hb) as (? & ? & ? & ? & ? & ?).
    done.
  - intros Hb Hd Hmenu Hov.
    destruct (run_without_backdrop es p Hb) as (Hb' & Eov & _ & _ & _ & Emenu).
    destruct (run_keeps_drawer es p Hd) as [d Hd'].
    assert (in_view (run (es ++ [ClickMenuButton]) p)) as Hview.
    { rewrite run_snoc. cbn [handle]. rewrite Emenu, Hmenu.
      eexists. split; [by apply openDrawer_drawer |].
      apply removed_is_in_view. }
    assert (bodyOverflow (run (es ++ [ClickMenuButton]) p) ≠ "hidden") as Hov'.
    { destruct (run_without_backdrop (es ++ [ClickMenuButton]) p Hb)
        as (_ & -> & _). done. }
    split_and!; [| done | done |].
    + cbn [handle]. rewrite Emenu, Hmenu.
      unfold openDrawer, on_mobileDrawer. rewrite Hd'.
      unfold on_drawerBackdrop. cbn [drawerBackdrop set_mobileDrawer].
      rewrite Hb'. by eexists.
    + intros (cl & Hcl & Hlock). destruct Hview as (cl' & Hcl' & Hout).
      rewrite Hcl in Hcl'. injection Hcl' as <-.
      by apply Hov', Hlock.
Qed.

Lemma drawer_needs_its_elements_witness :
  in_view
    (run ([ClickMenuButton; Keydown "Escape"] ++ [ClickMenuButton])
       {| mobileMenuButton := true; closeDrawerButton := true;
          drawerBackdrop := None;
          mobileDrawer := Some {["-translate-x-full"; "fixed"]};
          line1 := Some EmptyString; line2 := Some EmptyString;
          line3 := Some EmptyString; bodyOverflow := EmptyString |}) ∧
  bodyOverflow
    (run ([ClickMenuButton; Keydown "Escape"] ++ [ClickMenuButton])
       {| mobileMenuButton := true; closeDrawerButton := true;
          drawerBackdrop := None;
          mobileDrawer := Some {["-translate-x-full"; "fixed"]};
          line1 := Some EmptyString; line2 := Some EmptyString;
          line3 := Some EmptyString; bodyOverflow := EmptyString |})
    ≠ "hidden".
Proof.
  destruct (drawer_needs_its_elements
              [ClickMenuButton; Keydown "Escape"]
              {| mobileMenuButton := true; closeDrawerButton := true;
                 drawerBackdrop := None;
                 mobileDrawer := Some {["-translate-x-full"; "fixed"]};
                 line1 := Some EmptyString; line2 := Some EmptyString;
                 line3 := Some EmptyString; bodyOverflow := EmptyString |})
    as (_ & _ & H).
  destruct H as (_ & Hview & Hov & _);
    [reflexivity | by eexists | reflexivity | discriminate |].
  by split.
Defined.

End DrawerTheorems.

(** ** The navbar on scroll *)

Section ScrollTheorems.
Import Scroll.

Lemma gt_true (a b : Q) : gt a b = true → (b < a)%Q.
Proof.
  unfold gt. intros H. apply Qnot_le_lt. intros Hle.
  apply Qle_bool_iff in Hle. rewrite Hle in H. discriminate.
Qed.

Lemma gt_false (a b : Q) : gt a b = false → (a <= b)%Q.
Proof.
  unfold gt. intros H. apply Qle_bool_iff.
  by destruct (Qle_bool a b).
Qed.

(** What holds between two events: the throttle flag counts the waiting
    callback, the script has seen the current position unless a callback
    waits, and a hidden navbar was hidden at a position past the
    threshold. *)
Lemma handle_keeps (e : event) (s : state) :
  throttle_inv s ∧
  (ticking s = false → lastScrollY s = scrollY s) ∧
  (hidden s → (50 # 1 < lastScrollY s)%Q) →
  throttle_inv (handle e s) ∧
  (ticking (handle e s) = false →
   lastScrollY (handle e s) = scrollY (handle e s)) ∧
  (hidden (handle e s) → (50 # 1 < lastScrollY (handle e s))%Q).
Proof.
  destruct s as [nav y last tk fr]. unfold throttle_inv, hidden. cbn.
  intros (Hfr & Hseen & Hhid). destruct e as [y'|]; cbn.
  - unfold requestTick. cbn. destruct tk; cbn in *; subst fr; cbn.
    + split_and!; [done | done | exact Hhid].
    + split_and!; [done | done | exact Hhid].
  - destruct tk; subst fr; cbn.
    + split_and!; [done | done |].
      intros (cl & Hcl & Hin).
      destruct (gt y last && gt y (50 # 1)) eqn:Hg.
      * apply andb_prop in Hg as [_ Hg]. by apply gt_true.
      * destruct nav as [c|]; [| done]. cbn in Hcl. injection Hcl as <-.
        unfold Slider.classList_remove in Hin. cbn [list_to_set foldr] in Hin.
        rewrite elem_of_difference, elem_of_union, elem_of_singleton in Hin.
        tauto.
    + split_and!; [done | exact Hseen | exact Hhid].
Qed.

Lemma run_keeps (es : list event) (s : state) :
  throttle_inv s ∧
  (ticking s = false → lastScrollY s = scrollY s) ∧
  (hidden s → (50 # 1 < lastScrollY s)%Q) →
  throttle_inv (run es s) ∧
  (ticking (run es s) = false → lastScrollY (run es s) = scrollY (run es s)) ∧
  (hidden (run es s) → (50 # 1 < lastScrollY (run es s))%Q).
Proof.
  revert s. induction es as [|e es IH]; intros s H; [done |].
  change (run (e :: es) s) with (run es (handle e s)).
  by apply IH, handle_keeps.
Qed.

Lemma handle_throttle (e : event) (s : state) :
  throttle_inv s → throttle_inv (handle e s).
Proof.
  destruct s as [nav y last tk fr]. unfold throttle_inv. cbn.
  intros ->. destruct e as [y'|]; by destruct tk.
Qed.

Lemma run_throttle (es : list event) (s : state) :
  throttle_inv s → throttle_inv (run es s).
Proof.
  revert s. induction es as [|e es IH]; intros s H; [done |].
  change (run (e :: es) s) with (run es (handle e s)).
  by apply IH, handle_throttle.
Qed.

(** X20: scroll events are throttled to one update per animation frame.
    From the state in which the script was loaded, after any scroll
    events and frames, at most one [updateNavbar] callback waits for the
    next frame, and one waits exactly while [ticking] is true; a scroll
    event that arrives while one waits registers nothing more; after a
    frame none waits. *)
Theorem one_update_per_frame (nav : option (gset string)) (y : Q)
    (es : list event) (y' : Q) :
  let s := run es (loaded nav y) in
  (frames s ≤ 1)%nat ∧
  (ticking s = true ↔ frames s = 1%nat) ∧
  (ticking s = true → frames (handle (ScrollTo y') s) = 1%nat) ∧
  frames (handle Frame s) = 0%nat ∧ ticking (handle Frame s) = false.
Proof.
  cbv zeta. pose proof (run_throttle es (loaded nav y) eq_refl) as H.
  pose proof (handle_throttle (ScrollTo y') _ H) as Hs.
  pose proof (handle_throttle Frame _ H) as Hf.
  destruct (run es (loaded nav y)) as [n sy last tk fr].
  unfold throttle_inv in *. cbn in *. subst fr.
  destruct tk; cbn in *; split_and!; try done; try lia.
Qed.

Lemma one_update_per_frame_witness :
  frames (handle (ScrollTo (40 # 1))
            (run [ScrollTo (10 # 1); ScrollTo (20 # 1)]
               (loaded (Some ∅) (0 # 1)))) = 1%nat.
Proof.
  destruct (one_update_per_frame (Some ∅) (0 # 1)
              [ScrollTo (10 # 1); ScrollTo (20 # 1)] (40 # 1))
    as (_ & _ & H & _).
  apply H. reflexivity.
Defined.

(** X21: the navbar is never left hidden near the top of the page.  If
    the navbar does not start hidden, then after any scroll events and
    frames: whenever no update is waiting, the script has seen the current
    scroll position; a hidden navbar was hidden at a position more than 50
    below the top; so with no update waiting and the page within 50 of the
    top the navbar is showing. *)
Theorem navbar_shown_near_top (nav : option (gset string)) (y : Q)
    (es : list event) :
  (∀ cl, nav = Some cl → "-translate-y-full" ∉ cl) →
  let s := run es (loaded nav y) in
  (ticking s = false → lastScrollY s = scrollY s) ∧
  (hidden s → (50 # 1 < lastScrollY s)%Q) ∧
  (ticking s = false → (scrollY s <= 50 # 1)%Q → ¬ hidden s).
Proof.
  intros Hnav. cbv zeta.
  destruct (run_keeps es (loaded nav y)) as (_ & Hseen & Hhid).
  { split_and!; [done | done |].
    intros (cl & Hcl & Hin). by destruct (Hnav cl Hcl). }
  split_and!; [done | done |].
  intros Htk Hle Hh. specialize (Hhid Hh). rewrite (Hseen Htk) in Hhid.
  by apply (Qlt_not_le _ _ Hhid).
Qed.

Lemma navbar_shown_near_top_witness :
  let s := run [ScrollTo (300 # 1); Frame; ScrollTo (20 # 1); ScrollTo (10 # 1);
                Frame]
               (loaded (Some ∅) (0 # 1)) in
  (ticking s = false → lastScrollY s = scrollY s) ∧
  (hidden s → (50 # 1 < lastScrollY s)%Q) ∧
  (ticking s = false → (scrollY s <= 50 # 1)%Q → ¬ hidden s).
Proof.
  apply navbar_shown_near_top. intros cl [= <-]. apply not_elem_of_empty.
Defined.

Example navbar_hides_when_scrolling_down :
  hidden (run [ScrollTo (300 # 1); Frame] (loaded (Some ∅) (0 # 1))).
Proof.
  eexists. split; [reflexivity |].
  unfold Slider.classList_add. cbn [list_to_set foldr].
  apply elem_of_union. right. apply elem_of_union. left.
  by apply elem_of_singleton.
Qed.

End ScrollTheorems.
